(** * cvgen: the controlled-vocabulary code generator and the accessors it emits

    A shallow embedding of [cvgen.cpp].  The program reads OBO ontologies
    and writes two C++ files: [cv.hpp] (the [CVID] enumeration) and
    [cv.cpp] (static tables plus the accessor routines [cv], [cvTermInfo],
    [cvIsA] and [cvids]).  The development has three layers:

    - [Generator]: what [writeHpp] and [writeCpp] compute from the parsed
      ontologies (enumerator names and values, table rows, escaping,
      version extraction);
    - [Link]: how the C++ compiler turns the emitted declarations into the
      static tables the accessors see (enumerator names become codes);
    - [Runtime]: the emitted accessor routines as state-passing functions
      over the process-wide maps.

    Integer widths follow the LP64 data model: [size_t] is 64 bits,
    [unsigned int] is 32 bits; the range of [unsigned long] is a parameter
    of [strtoul]. *)
From Stdlib Require Import ZArith List Ascii String Lia Bool DecimalString.
From Stdlib Require DecimalPos DecimalN.
From Stdlib Require Import ZArith List Ascii String Lia Bool DecimalString.
From stdpp Require Import gmap strings list fin_maps.

Import ListNotations.
Local Open Scope Z_scope.
Local Open Scope string_scope.

(** stdpp keeps [String.append] folded; the proofs below compute with it. *)
#[local] Arguments String.append !_ _ : simpl nomatch.

(** ** Machine integers *)

Definition SIZE_MOD : Z := 2 ^ 64.
Definition UINT_MOD : Z := 2 ^ 32.
Definition INT_MAX : Z := 2 ^ 31 - 1.

(** [size_t] arithmetic wraps modulo [2^64]. *)
Definition size_wrap (z : Z) : Z := z mod SIZE_MOD.

(** ** Characters and strings *)

Definition chr (n : nat) : ascii := ascii_of_nat n.
Definition code (c : ascii) : nat := nat_of_ascii c.

Definition backslash : ascii := chr 92.
Definition dquote : ascii := chr 34.
Definition newline : ascii := chr 10.
Definition NUL : ascii := chr 0.

(** C's [isdigit], [isalnum], [isspace] and [ispunct] in the "C" locale. *)
Definition isdigit (c : ascii) : bool :=
  (48 <=? code c)%nat && (code c <=? 57)%nat.

Definition isalpha (c : ascii) : bool :=
  ((65 <=? code c)%nat && (code c <=? 90)%nat)
  || ((97 <=? code c)%nat && (code c <=? 122)%nat).

Definition isalnum (c : ascii) : bool := isalpha c || isdigit c.

Definition isspace (c : ascii) : bool :=
  (code c =? 32)%nat || ((9 <=? code c)%nat && (code c <=? 13)%nat).

Definition ispunct (c : ascii) : bool :=
  (33 <=? code c)%nat && (code c <=? 126)%nat && negb (isalnum c).

Definition string_empty (s : string) : bool :=
  match s with EmptyString => true | String _ _ => false end.

Fixpoint transform (f : ascii -> ascii) (s : string) : string :=
  match s with
  | EmptyString => EmptyString
  | String c s' => String (f c) (transform f s')
  end.

Fixpoint starts_with (search s : string) : bool :=
  match search, s with
  | EmptyString, _ => true
  | String a search', String b s' => Ascii.eqb a b && starts_with search' s'
  | String _ _, EmptyString => false
  end.

(** The longest run of [p]-characters at the front, and what follows it. *)
Fixpoint skip_while (p : ascii -> bool) (s : string) : string :=
  match s with
  | EmptyString => EmptyString
  | String c s' => if p c then skip_while p s' else s
  end.

Fixpoint take_while (p : ascii -> bool) (s : string) : string :=
  match s with
  | EmptyString => EmptyString
  | String c s' => if p c then String c (take_while p s') else EmptyString
  end.

(** [s] contains [sub] as a contiguous run of characters. *)
Definition contains (s sub : string) : Prop :=
  exists before after, s = before +:+ sub +:+ after.

(** The same as a test. *)
Fixpoint occurs (sub s : string) : bool :=
  starts_with sub s
  || match s with
     | EmptyString => false
     | String _ s' => occurs sub s'
     end.

(** [bal::replace_all(s, search, format)]: every occurrence of [search]
    found scanning left to right is replaced by [format]; the scan resumes
    behind the replaced characters, so occurrences do not overlap and the
    inserted text is not searched again.  [skip] counts the characters of
    the current occurrence still to be dropped.  Every call site passes a
    non-empty [search]. *)
Fixpoint replace_all_from (skip : nat) (s search format : string) : string :=
  match s with
  | EmptyString => EmptyString
  | String c s' =>
      match skip with
      | S k => replace_all_from k s' search format
      | O =>
          if starts_with search s
          then format +:+ replace_all_from (String.length search - 1) s' search format
          else String c (replace_all_from 0 s' search format)
      end
  end.

Definition replace_all (s search format : string) : string :=
  replace_all_from 0 s search format.

(** Decimal output of an unsigned number under [setw(w)] and
    [setfill('0')]: padded on the left up to the width, never cut. *)
Definition decimal (z : Z) : string :=
  NilZero.string_of_uint (N.to_uint (Z.to_N z)).

Fixpoint fill (n : nat) (c : ascii) : string :=
  match n with O => EmptyString | S k => String c (fill k c) end.

Definition setw_fill (w : nat) (c : ascii) (s : string) : string :=
  fill (w - String.length s) c +:+ s.

Fixpoint with_index {A} (i : Z) (l : list A) : list (Z * A) :=
  match l with
  | [] => []
  | x :: l' => (i, x) :: with_index (i + 1) l'
  end.

(** ** Regular expressions

    The two patterns of the version scan, with Perl-style backtracking as
    in boost::regex: alternatives are tried in priority order (a greedy
    quantifier tries the longest run first, a lazy one the shortest) and
    the first way to match the whole line is the match reported.
    Quantifiers are only ever applied to single-character classes. *)

Inductive quant := One | Star | StarLazy | Plus.

Inductive regex :=
| Class (p : ascii -> bool) (q : quant)
| Lit (s : string)
| Seq (r1 r2 : regex)
| Group (r : regex).

(** Ways for [p*] to consume a prefix of [s], as (consumed, rest). *)
Fixpoint spans_greedy (p : ascii -> bool) (s : string) : list (string * string) :=
  match s with
  | EmptyString => [(EmptyString, EmptyString)]
  | String c s' =>
      if p c
      then map (fun ab => (String c (fst ab), snd ab)) (spans_greedy p s') ++ [(EmptyString, s)]
      else [(EmptyString, s)]
  end.

Fixpoint spans_lazy (p : ascii -> bool) (s : string) : list (string * string) :=
  match s with
  | EmptyString => [(EmptyString, EmptyString)]
  | String c s' =>
      (EmptyString, s) ::
      (if p c then map (fun ab => (String c (fst ab), snd ab)) (spans_lazy p s') else [])
  end.

Definition spans (p : ascii -> bool) (q : quant) (s : string) : list (string * string) :=
  match q, s with
  | One, String c s' => if p c then [(String c EmptyString, s')] else []
  | One, EmptyString => []
  | Star, _ => spans_greedy p s
  | StarLazy, _ => spans_lazy p s
  | Plus, String c s' =>
      if p c then map (fun ab => (String c (fst ab), snd ab)) (spans_greedy p s') else []
  | Plus, EmptyString => []
  end.

Fixpoint drop_prefix (search s : string) : string :=
  match search, s with
  | String _ search', String _ s' => drop_prefix search' s'
  | _, _ => s
  end.

(** A partial match: the characters consumed, the rest of the line and the
    text of group 1 if it has taken part. *)
Record partial := mkPartial {
  consumed : string;
  rest : string;
  what1 : option string
}.

Fixpoint run (r : regex) (s : string) (g : option string) : list partial :=
  match r with
  | Class p q => map (fun ab => mkPartial (fst ab) (snd ab) g) (spans p q s)
  | Lit l => if starts_with l s then [mkPartial l (drop_prefix l s) g] else []
  | Seq r1 r2 =>
      flat_map (fun m1 =>
        map (fun m2 => mkPartial (consumed m1 +:+ consumed m2) (rest m2) (what1 m2))
            (run r2 (rest m1) (what1 m1)))
        (run r1 s g)
  | Group r1 =>
      map (fun m => mkPartial (consumed m) (rest m) (Some (consumed m))) (run r1 s g)
  end.

(** [regex_match(line, what, e)]: the whole line must match; the result
    carries [what[1]]. *)
Definition regex_match (line : string) (e : regex) : option (option string) :=
  what1 <$> List.find (fun m => string_empty (rest m)) (run e line None).

(** A sub-match that took no part converts to the empty string. *)
Definition sub_match (w : option string) : string :=
  match w with Some s => s | None => EmptyString end.

(** ** Parsed ontology data *)

(** Modelled from the spec: [Term] is declared in obo.hpp, which is not
    among the sources; the fields are those of the spec's data model that
    cvgen.cpp reads.  [id] is an unsigned number. *)
Module Term.
Record t := mk {
  prefix : string;
  id : Z;
  name : string;
  def : string;
  parentsIsA : list Z;
  parentsPartOf : list Z;
  exactSynonyms : list string
}.
End Term.

(** Modelled from the spec: [OBO] is declared in obo.hpp as well; cvgen.cpp
    reads [filename], [header], [prefix] and the ordered [terms]. *)
Module OBO.
Record t := mk {
  filename : string;
  header : list string;
  prefix : string;
  terms : list Term.t
}.
End OBO.

Module Generator.

(** *** Identifier allocation *)

Definition enumBlockSize_ : Z := 100000000.

(** [size_t enumValue(const Term& term, size_t index)] *)
Definition enumValue (term : Term.t) (index : Z) : Z :=
  size_wrap (Term.id term + size_wrap (enumBlockSize_ * index)).

(** The inverse the spec asks for, following the spec's words: integer
    division and modulo against the same block size. *)
Definition deallocate (code : Z) : Z * Z :=
  (code / enumBlockSize_, code mod enumBlockSize_).

(** Namespace indices whose whole block fits in [size_t].  [main] fills
    [obos] from [argv] with an [int] counter, so every index of a run is
    at most [INT_MAX] and satisfies this. *)
Definition index_in_range (index : Z) : Prop :=
  0 <= index /\ enumBlockSize_ * (index + 1) <= SIZE_MOD.

(** *** Enumerator names *)

Definition toAllowableChar (a : ascii) : ascii :=
  if isalnum a then a else chr 95.

Definition enumName2 (prefix name : string) : string :=
  prefix +:+ "_" +:+ transform toAllowableChar name.

Definition enumName (term : Term.t) : string :=
  enumName2 (Term.prefix term) (Term.name term).

(** *** The declarations artifact ([writeHpp]) *)

(** An enumerator's initializer: a number, or an earlier enumerator. *)
Inductive initializer := Num (z : Z) | Ref (enumerator : string).

Definition synonym_entries (term : Term.t) : list (string * initializer) :=
  map (fun syn => (enumName2 (Term.prefix term) syn, Ref (enumName term)))
      (Term.exactSynonyms term).

Definition term_entries (obo : OBO.t) (index : Z) (term : Term.t)
  : list (string * initializer) :=
  (enumName term, Num (enumValue term index))
  :: (if String.eqb (OBO.prefix obo) "MS" then synonym_entries term else []).

(** The enumerators of [enum CVID], in the order they are written. *)
Definition enum_entries (obos : list OBO.t) : list (string * initializer) :=
  ("CVID_Unknown", Num (-1))
  :: flat_map (fun io => flat_map (term_entries (snd io) (fst io)) (OBO.terms (snd io)))
       (with_index 0 obos).

(** *** Escaping *)

Definition bs (c : string) : string := String backslash c.

(** [string escape_copy(const string& str)] *)
Definition escape_copy (str : string) : string :=
  let copy := str in
  let copy := replace_all copy (bs "!") (bs (bs "!")) in
  let copy := replace_all copy (bs ":") (bs (bs ":")) in
  let copy := replace_all copy (bs ",") (bs (bs ",")) in
  let copy := replace_all copy (bs "(") (bs (bs "(")) in
  let copy := replace_all copy (bs ")") (bs (bs ")")) in
  let copy := replace_all copy (bs "[") (bs (bs "[")) in
  let copy := replace_all copy (bs "]") (bs (bs "]")) in
  let copy := replace_all copy (bs "{") (bs (bs "{")) in
  let copy := replace_all copy (bs "}") (bs (bs "}")) in
  copy.

(** *** The definitions artifact ([writeCpp]) *)

(** A row of [termInfos_] as written: the enumerator and the text between
    the quotes of the three string literals. *)
Record TermInfoRow := mkRow {
  row_cvid : string;
  row_id : string;
  row_name : string;
  row_def : string
}.

Definition quoted (s : string) : string :=
  String dquote s +:+ String dquote EmptyString.

(** The line of the definitions artifact that holds a row. *)
Definition row_line (r : TermInfoRow) : string :=
  "    {" +:+ row_cvid r +:+ ", "
  +:+ quoted (row_id r) +:+ ", "
  +:+ quoted (row_name r) +:+ ", "
  +:+ quoted (row_def r)
  +:+ "}," +:+ String newline EmptyString.

Definition term_row (term : Term.t) : TermInfoRow :=
  mkRow (enumName term)
        (Term.prefix term +:+ ":" +:+ setw_fill 7 "0" (decimal (Term.id term)))
        (escape_copy (Term.name term))
        (escape_copy (Term.def term)).

Definition unknown_row : TermInfoRow :=
  mkRow "CVID_Unknown" "??:0000000" "CVID_Unknown" "CVID_Unknown".

Definition termInfos_rows (obos : list OBO.t) : list TermInfoRow :=
  unknown_row :: flat_map (fun obo => map term_row (OBO.terms obo)) obos.

(** [termMaps[index]]: the terms of one ontology by id; a later term with
    the same id replaces an earlier one. *)
Definition termMap (obo : OBO.t) : gmap Z Term.t :=
  fold_left (fun m term => <[Term.id term := term]> m) (OBO.terms obo) ∅.

(** The rows one term contributes to a relation table.  A parent Term.id that is
    not in the term map makes [termMaps[index][*jt]] a null pointer, whose
    dereference ends the run: no artifact is produced. *)
Fixpoint parent_rows (tm : gmap Z Term.t) (child : Term.t) (parents : list Z)
  : option (list (string * string)) :=
  match parents with
  | [] => Some []
  | jt :: parents' =>
      match tm !! jt with
      | Some parent =>
          match parent_rows tm child parents' with
          | Some rows => Some ((enumName child, enumName parent) :: rows)
          | None => None
          end
      | None => None
      end
  end.

Fixpoint collect {A B} (f : A -> option (list B)) (l : list A) : option (list B) :=
  match l with
  | [] => Some []
  | x :: l' =>
      match f x, collect f l' with
      | Some ys, Some zs => Some (ys ++ zs)%list
      | _, _ => None
      end
  end.

Definition relation_rows (parents : Term.t -> list Z) (obos : list OBO.t)
  : option (list (string * string)) :=
  collect (fun obo =>
             collect (fun term => parent_rows (termMap obo) term (parents term))
                     (OBO.terms obo))
          obos.

Definition relationsIsA_rows := relation_rows Term.parentsIsA.
Definition relationsPartOf_rows := relation_rows Term.parentsPartOf.

(** [relationsExactSynonym_]: enumerator and the text between the quotes. *)
Definition relationsExactSynonym_rows (obos : list OBO.t) : list (string * string) :=
  ("CVID_Unknown", "Unknown")
  :: flat_map (fun obo =>
       flat_map (fun term => map (fun jt => (enumName term, jt)) (Term.exactSynonyms term))
                (OBO.terms obo))
     obos.

(** *** Version extraction *)

Definition any_char (c : ascii) : bool := true.
Definition not_dash (c : ascii) : bool := negb (Ascii.eqb c "-").
Definition non_space (c : ascii) : bool := negb (isspace c).

(** [".*?[^-]version: (\\S+)"] *)
Definition version_regex : regex :=
  Seq (Class any_char StarLazy)
 (Seq (Class not_dash One)
 (Seq (Lit "version: ")
      (Group (Class non_space Plus)))).

(** ["\\s*date: (\\S+).*"] *)
Definition date_regex : regex :=
  Seq (Class isspace Star)
 (Seq (Lit "date: ")
 (Seq (Group (Class non_space Plus))
      (Class any_char Star))).

(** The loop over [obo->header]; the result is [version] when the loop is
    left, by [break] or at the end. *)
Fixpoint version_loop (header : list string) (version : string) : string :=
  match header with
  | [] => version
  | line :: header' =>
      match regex_match line version_regex with
      | Some what => sub_match what
      | None =>
          let version :=
            if string_empty version
            then match regex_match line date_regex with
                 | Some what => sub_match what
                 | None => version
                 end
            else version in
          version_loop header' version
      end
  end.

Definition extract_version (header : list string) : string :=
  let version := version_loop header EmptyString in
  if string_empty version then "unknown" else version.

(** *** The statements of [initialize] that fill [cvMap_] *)

Inductive cv_field := FullName | URI | Id | Version.

(** [cvMap_["key"].field = "text";] *)
Record cv_statement := mkStmt {
  stmt_key : string;
  stmt_field : cv_field;
  stmt_text : string
}.

Definition cvMap_statements (obos : list OBO.t) : list cv_statement :=
  [ mkStmt "MS" FullName "Proteomics Standards Initiative Mass Spectrometry Ontology";
    mkStmt "MS" URI "http://psidev.cvs.sourceforge.net/*checkout*/psidev/psi/psi-ms/mzML/controlledVocabulary/psi-ms.obo";
    mkStmt "UO" FullName "Unit Ontology";
    mkStmt "UO" URI "http://obo.cvs.sourceforge.net/*checkout*/obo/obo/ontology/phenotype/unit.obo" ]
  ++ flat_map (fun obo =>
       [ mkStmt (OBO.prefix obo) Id (OBO.prefix obo);
         mkStmt (OBO.prefix obo) Version (extract_version (OBO.header obo)) ])
     obos.

Definition oboPrefixes_rows (obos : list OBO.t) : list string :=
  map OBO.prefix obos.

(** *** The include guard *)

(** C's [toupper] in the "C" locale. *)
Definition toupper (c : ascii) : ascii :=
  if (97 <=? code c)%nat && (code c <=? 122)%nat then chr (code c - 32) else c.

(** [string includeGuardString(const string& basename)] *)
Definition includeGuardString (basename : string) : string :=
  let includeGuard := transform toupper basename in
  "_" +:+ includeGuard +:+ "_HPP_".

End Generator.

(** ** The generated artifact as the accessors see it *)

(** [struct TermInfo] of the definitions artifact. *)
Module TermInfo.
Record t := mk {
  cvid : Z;
  id : string;
  name : string;
  def : string
}.
End TermInfo.

Definition CVID_Unknown : Z := -1.

(** [struct CVTermInfo]; its constructor sets [cvid] to [(CVID)-1]. *)
Module CVTermInfo.
Record t := mk {
  cvid : Z;
  id : string;
  name : string;
  def : string;
  parentsIsA : list Z;
  parentsPartOf : list Z;
  exactSynonyms : list string
}.
Definition default : t :=
  mk CVID_Unknown EmptyString EmptyString EmptyString [] [] [].
End CVTermInfo.

(** [struct CV]. *)
Module CV.
Record t := mk {
  id : string;
  URI : string;
  fullName : string;
  version : string
}.
Definition default : t := mk EmptyString EmptyString EmptyString EmptyString.
End CV.

(** The static data of the definitions artifact after compilation:
    enumerators are codes and string literals are C strings. *)
Module Tables.
Record t := mk {
  termInfos_ : list TermInfo.t;
  relationsIsA_ : list (Z * Z);
  relationsPartOf_ : list (Z * Z);
  relationsExactSynonym_ : list (Z * string);
  cvMap_init : list Generator.cv_statement;
  oboPrefixes_ : list string;
  enumBlockSize_ : Z
}.
End Tables.

(** A [std::string] seen through [c_str()], or a literal seen as a
    [const char*]: the characters before the first NUL. *)
Fixpoint c_str (s : string) : string :=
  match s with
  | EmptyString => EmptyString
  | String c s' => if Ascii.eqb c NUL then EmptyString else String c (c_str s')
  end.

Module Link.

Import Generator.

(** [enum CVID { ... }]: enumerators are declared in order; a name may be
    declared once, and an initializer may only name an earlier enumerator.
    [None] stands for a declarations artifact that does not compile.  These
    two rules are all that is checked: a result does not promise that a
    compiler accepts the names (it refuses one that is no identifier), only
    that the artifact breaks neither rule, as every artifact that compiles
    does. *)
Fixpoint compile_enum (entries : list (string * initializer)) (env : gmap string Z)
  : option (gmap string Z) :=
  match entries with
  | [] => Some env
  | (enumerator, init) :: entries' =>
      match env !! enumerator with
      | Some _ => None
      | None =>
          match init with
          | Num z => compile_enum entries' (<[enumerator := z]> env)
          | Ref earlier =>
              match env !! earlier with
              | Some z => compile_enum entries' (<[enumerator := z]> env)
              | None => None
              end
          end
      end
  end.

(** The character a simple escape sequence stands for; an escape the
    language does not define keeps its character. *)
Definition escaped (e : ascii) : ascii :=
  if Ascii.eqb e "n" then chr 10
  else if Ascii.eqb e "t" then chr 9
  else if Ascii.eqb e "r" then chr 13
  else if Ascii.eqb e "a" then chr 7
  else if Ascii.eqb e "b" then chr 8
  else if Ascii.eqb e "f" then chr 12
  else if Ascii.eqb e "v" then chr 11
  else e.

(** The characters of a string literal.  Numeric and universal-character
    escapes are not decoded; cvgen writes none of its own.  Text that would
    end the literal early (a bare quote, a line break) is not rejected, so
    [link] may produce tables for artifacts a compiler would refuse. *)
Fixpoint literal (text : string) : string :=
  match text with
  | EmptyString => EmptyString
  | String c text' =>
      if Ascii.eqb c backslash
      then match text' with
           | String e text'' => String (escaped e) (literal text'')
           | EmptyString => EmptyString
           end
      else String c (literal text')
  end.

Definition c_literal (text : string) : string := c_str (literal text).

Fixpoint all_some {A} (l : list (option A)) : option (list A) :=
  match l with
  | [] => Some []
  | Some x :: l' => match all_some l' with Some xs => Some (x :: xs) | None => None end
  | None :: _ => None
  end.

Definition link_termInfo (env : gmap string Z) (r : TermInfoRow) : option TermInfo.t :=
  match env !! row_cvid r with
  | Some c => Some (TermInfo.mk c (c_literal (row_id r)) (c_literal (row_name r))
                                 (c_literal (row_def r)))
  | None => None
  end.

Definition link_pair (env : gmap string Z) (r : string * string) : option (Z * Z) :=
  match env !! fst r, env !! snd r with
  | Some a, Some b => Some (a, b)
  | _, _ => None
  end.

Definition link_synonym (env : gmap string Z) (r : string * string) : option (Z * string) :=
  match env !! fst r with
  | Some a => Some (a, c_literal (snd r))
  | None => None
  end.

Definition link_statement (st : cv_statement) : cv_statement :=
  mkStmt (c_literal (stmt_key st)) (stmt_field st) (c_literal (stmt_text st)).

(** Both artifacts of one run, compiled together.  [None]: the generator
    stopped on a dangling parent id, or the artifacts do not compile.  A
    run whose artifacts compile has tables here, and these are its tables
    as far as its literals hold plain characters and simple escapes; the
    converse does not hold, see [compile_enum] and [literal]. *)
Definition link (obos : list OBO.t) : option Tables.t :=
  match compile_enum (enum_entries obos) ∅,
        relationsIsA_rows obos, relationsPartOf_rows obos with
  | Some env, Some isA, Some partOf =>
      match all_some (map (link_termInfo env) (termInfos_rows obos)),
            all_some (map (link_pair env) isA),
            all_some (map (link_pair env) partOf),
            all_some (map (link_synonym env) (relationsExactSynonym_rows obos)) with
      | Some infos, Some isA', Some partOf', Some synonyms =>
          Some (Tables.mk infos isA' partOf' synonyms
                  (map link_statement (cvMap_statements obos))
                  (map c_literal (oboPrefixes_rows obos))
                  Generator.enumBlockSize_)
      | _, _, _, _ => None
      end
  | _, _, _ => None
  end.

End Link.

(** ** The accessor routines of the definitions artifact *)

Module Runtime.

Import Generator.

(** What a routine can throw. *)
Inductive exception :=
| runtime_error (what : string)
| bad_lexical_cast.

Inductive outcome (A : Type) :=
| Return (a : A)
| Throw (e : exception).
Arguments Return {A} a.
Arguments Throw {A} e.

(** The namespace-scope variables [initialized_], [infoMap_], [cvMap_] and
    [cvids_]. *)
Record State := mkState {
  initialized_ : bool;
  infoMap_ : gmap Z CVTermInfo.t;
  cvMap_ : gmap string CV.t;
  cvids_ : list Z
}.

(** The variables as static initialization leaves them. *)
Definition start : State := mkState false ∅ ∅ [].

(** [std::map::operator[]]: the element under the key; a key that is
    missing is first inserted with a value-initialized element. *)
Definition subscript {K V} `{Countable K} (dflt : V) (m : gmap K V) (k : K)
  : V * gmap K V :=
  match m !! k with
  | Some v => (v, m)
  | None => (dflt, <[k := dflt]> m)
  end.

(** [m[k].field = ...] and [m[k].list.push_back(...)]: [operator[]]
    followed by an update of the element in place. *)
Definition update {K V} `{Countable K} (dflt : V) (f : V -> V) (m : gmap K V) (k : K)
  : gmap K V :=
  let (v, m') := subscript dflt m k in <[k := f v]> m'.

Definition push_parentsIsA (second : Z) (i : CVTermInfo.t) : CVTermInfo.t :=
  CVTermInfo.mk (CVTermInfo.cvid i) (CVTermInfo.id i) (CVTermInfo.name i) (CVTermInfo.def i)
    (CVTermInfo.parentsIsA i ++ [second]) (CVTermInfo.parentsPartOf i)
    (CVTermInfo.exactSynonyms i).

Definition push_parentsPartOf (second : Z) (i : CVTermInfo.t) : CVTermInfo.t :=
  CVTermInfo.mk (CVTermInfo.cvid i) (CVTermInfo.id i) (CVTermInfo.name i) (CVTermInfo.def i)
    (CVTermInfo.parentsIsA i) (CVTermInfo.parentsPartOf i ++ [second])
    (CVTermInfo.exactSynonyms i).

Definition push_exactSynonyms (second : string) (i : CVTermInfo.t) : CVTermInfo.t :=
  CVTermInfo.mk (CVTermInfo.cvid i) (CVTermInfo.id i) (CVTermInfo.name i) (CVTermInfo.def i)
    (CVTermInfo.parentsIsA i) (CVTermInfo.parentsPartOf i)
    (CVTermInfo.exactSynonyms i ++ [second]).

Definition assign (field : cv_field) (text : string) (c : CV.t) : CV.t :=
  match field with
  | Id => CV.mk text (CV.URI c) (CV.fullName c) (CV.version c)
  | URI => CV.mk (CV.id c) text (CV.fullName c) (CV.version c)
  | FullName => CV.mk (CV.id c) (CV.URI c) text (CV.version c)
  | Version => CV.mk (CV.id c) (CV.URI c) (CV.fullName c) text
  end.

(** The type that underlies [enum CVID].  The declaration fixes none, and
    g++ takes [int] while every enumerator fits [int] and [long], of 64
    bits, when one does not ([CVID_Unknown = -1] rules out the unsigned
    types).  The values of the enumerators are the codes of the rows of
    [termInfos_]: every term has a row, and an alias has the value of its
    term. *)
Definition CVID_is_int (T : Tables.t) : bool :=
  forallb (fun it => (- 2 ^ 31 <=? TermInfo.cvid it)%Z && (TermInfo.cvid it <=? INT_MAX)%Z)
          (Tables.termInfos_ T).

(** [(CVID)] applied to a [size_t]: the value is converted to the
    underlying type, so its low 32 bits are read as an [int], or its 64
    bits as a [long]. *)
Definition to_CVID (T : Tables.t) (z : Z) : Z :=
  if CVID_is_int T
  then (z + 2 ^ 31) mod UINT_MOD - 2 ^ 31
  else (z + 2 ^ 63) mod SIZE_MOD - 2 ^ 63.

(** [bal::split(tokens, id, bal::is_any_of(":"))]: the fields between the
    colons, empty ones included; a string without a colon is one field. *)
Fixpoint split (s : string) : list string :=
  match s with
  | EmptyString => [EmptyString]
  | String c s' =>
      if Ascii.eqb c ":"
      then EmptyString :: split s'
      else match split s' with
           | token :: tokens => String c token :: tokens
           | [] => [String c EmptyString]
           end
  end.

(** *** [strtoul] (ISO C 7.22.1.4, base 10) *)

(** The number a run of decimal digits denotes, given the value [acc] of
    the digits to its left. *)
Fixpoint digits_value (acc : Z) (digits : string) : Z :=
  match digits with
  | EmptyString => acc
  | String d digits' => digits_value (10 * acc + Z.of_nat (code d - 48)) digits'
  end.

(** The subject sequence: white space is skipped, a sign may follow, and
    the digits behind it are the number; the rest of the string is not
    looked at.  The result is the sign and the digits. *)
Definition subject (nptr : string) : bool * string :=
  let s := skip_while isspace nptr in
  match s with
  | String c s' =>
      if Ascii.eqb c "-" then (true, take_while isdigit s')
      else if Ascii.eqb c "+" then (false, take_while isdigit s')
      else (false, take_while isdigit s)
  | EmptyString => (false, EmptyString)
  end.

Record conversion := mkConversion {
  result : Z;
  converted : bool;     (* [endptr] has moved off the start of the string *)
  range_error : bool    (* [errno] was set to [ERANGE] *)
}.

Definition ERANGE : Z := 34.

(** The first loop of [initialize], over the rows of [termInfos_]. *)
Definition load_termInfos (rows : list TermInfo.t) (st : State) : State :=
  fold_left (fun st it =>
      let temp := CVTermInfo.mk (TermInfo.cvid it) (TermInfo.id it) (TermInfo.name it)
                                (TermInfo.def it) [] [] [] in
      mkState (initialized_ st)
              (<[CVTermInfo.cvid temp := temp]> (infoMap_ st))
              (cvMap_ st)
              (cvids_ st ++ [TermInfo.cvid it]))
    rows st.

Section Accessors.

(** The artifact the routines are compiled with, and the platform's
    largest [unsigned long]. *)
Variable T : Tables.t.
Variable ULONG_MAX : Z.

Definition strtoul (nptr : string) : conversion :=
  let (negative, digits) := subject nptr in
  if string_empty digits then mkConversion 0 false false
  else
    let n := digits_value 0 digits in
    if (ULONG_MAX <? n)%Z then mkConversion ULONG_MAX true true
    else mkConversion (if negative then (- n) mod (ULONG_MAX + 1) else n) true false.

(** [inline unsigned int stringToCVID(const std::string& str)] *)
Definition stringToCVID (str : string) : outcome Z :=
  let errno := 0 in
  let stringToConvert := c_str str in
  let c := strtoul stringToConvert in
  let errno := if range_error c then ERANGE else errno in
  let value := result c mod UINT_MOD in
  if ((value =? 0)%Z && negb (converted c)) || negb (errno =? 0)%Z
  then Throw bad_lexical_cast
  else Return value.

(** [void initialize()] *)
Definition initialize (st : State) : State :=
  let st := load_termInfos (Tables.termInfos_ T) st in
  let infoMap :=
    fold_left (fun m it => update CVTermInfo.default (push_parentsIsA (snd it)) m (fst it))
      (Tables.relationsIsA_ T) (infoMap_ st) in
  let infoMap :=
    fold_left (fun m it => update CVTermInfo.default (push_parentsPartOf (snd it)) m (fst it))
      (Tables.relationsPartOf_ T) infoMap in
  let infoMap :=
    fold_left (fun m it => update CVTermInfo.default (push_exactSynonyms (snd it)) m (fst it))
      (Tables.relationsExactSynonym_ T) infoMap in
  let cvMap :=
    fold_left (fun m s => update CV.default (assign (stmt_field s) (stmt_text s)) m (stmt_key s))
      (Tables.cvMap_init T) (cvMap_ st) in
  mkState true infoMap cvMap (cvids_ st).

(** [if (!initialized_) initialize();] *)
Definition ensure_initialized (st : State) : State :=
  if initialized_ st then st else initialize st.

(** [const CV& cv(const string& prefix)] *)
Definition cv (prefix : string) (st : State) : CV.t * State :=
  let st := ensure_initialized st in
  let (r, cvMap) := subscript CV.default (cvMap_ st) prefix in
  (r, mkState (initialized_ st) (infoMap_ st) cvMap (cvids_ st)).

(** [const CVTermInfo& cvTermInfo(CVID cvid)] *)
Definition cvTermInfo (cvid : Z) (st : State) : CVTermInfo.t * State :=
  let st := ensure_initialized st in
  let (r, infoMap) := subscript CVTermInfo.default (infoMap_ st) cvid in
  (r, mkState (initialized_ st) infoMap (cvMap_ st) (cvids_ st)).

(** [find_if(oboPrefixes_, oboPrefixes_+oboPrefixesSize_, StringEquals(mine))]
    as the distance [it - oboPrefixes_], or [None] for the end. *)
Fixpoint find_prefix (mine : string) (prefixes : list string) (i : Z) : option Z :=
  match prefixes with
  | [] => None
  | yours :: prefixes' =>
      if String.eqb mine yours then Some i else find_prefix mine prefixes' (i + 1)
  end.

Definition splitting_error (id : string) : exception :=
  runtime_error ("[cvinfo] Error splitting id " +:+ String dquote id
                 +:+ String dquote " into prefix and numeric components").

(** [const CVTermInfo& cvTermInfo(const string& id)] *)
Definition cvTermInfo_id (id : string) (st : State) : outcome CVTermInfo.t * State :=
  let st := ensure_initialized st in
  let cvid := CVID_Unknown in
  match split id with
  | [prefix; cvidStr] =>
      let it := find_prefix (c_str prefix) (Tables.oboPrefixes_ T) 0 in
      let cvid :=
        match it with
        | Some i =>
            match stringToCVID cvidStr with
            | Return v =>
                Return (to_CVID T (size_wrap (size_wrap (i * Tables.enumBlockSize_ T) + v)))
            | Throw e => Throw e
            end
        | None => Return cvid
        end in
      match cvid with
      | Return cvid =>
          let (r, infoMap) := subscript CVTermInfo.default (infoMap_ st) cvid in
          (Return r, mkState (initialized_ st) infoMap (cvMap_ st) (cvids_ st))
      | Throw e => (Throw e, st)
      end
  | _ => (Throw (splitting_error id), st)
  end.

(** The loop of [cvIsA] over [info.parentsIsA], with the recursive call
    as a parameter; [None] when a call does not return. *)
Fixpoint any_parent (call : Z -> State -> option (bool * State))
  (parents : list Z) (st : State) : option (bool * State) :=
  match parents with
  | [] => Some (false, st)
  | it :: parents' =>
      match call it st with
      | Some (true, st') => Some (true, st')
      | Some (false, st') => any_parent call parents' st'
      | None => None
      end
  end.

(** [bool cvIsA(CVID child, CVID parent)].  The recursion has no bound of
    its own; [depth] is the number of nested calls the run may use, and
    [None] means that it needs more. *)
Fixpoint cvIsA (depth : nat) (child parent : Z) (st : State) : option (bool * State) :=
  match depth with
  | O => None
  | S depth' =>
      if (child =? parent)%Z then Some (true, st)
      else
        let (info, st) := cvTermInfo child st in
        any_parent (fun it => cvIsA depth' it parent) (CVTermInfo.parentsIsA info) st
  end.

(** [const vector<CVID>& cvids()] *)
Definition cvids (st : State) : list Z * State :=
  let st := ensure_initialized st in
  (cvids_ st, st).

End Accessors.

(** *** Member functions of [CV] and [CVTermInfo] *)

(** [bool CV::operator==(const CV& that) const] *)
Definition CV_equal (this that : CV.t) : bool :=
  String.eqb (CV.id this) (CV.id that)
  && String.eqb (CV.fullName this) (CV.fullName that)
  && String.eqb (CV.URI this) (CV.URI that)
  && String.eqb (CV.version this) (CV.version that).

(** [bool CV::empty() const] *)
Definition CV_empty (this : CV.t) : bool :=
  string_empty (CV.id this) && string_empty (CV.fullName this)
  && string_empty (CV.URI this) && string_empty (CV.version this).

(** [const string& CVTermInfo::shortName() const] *)
Definition shortName (this : CVTermInfo.t) : string :=
  fold_left (fun result it =>
               if (String.length it <? String.length result)%nat then it else result)
            (CVTermInfo.exactSynonyms this) (CVTermInfo.name this).

(** [s.find_first_of(chars)]: the position of the first character of [s]
    that is one of [chars]; [None] is [npos]. *)
Fixpoint find_first_of (chars s : string) : option nat :=
  match s with
  | EmptyString => None
  | String c s' =>
      if existsb (Ascii.eqb c) (list_ascii_of_string chars) then Some O
      else match find_first_of chars s' with
           | Some n => Some (S n)
           | None => None
           end
  end.

(** [s.substr(0, n)]: the first [n] characters, or all of [s] when it has
    fewer; [None] for [n] is [npos]. *)
Fixpoint substr0 (n : option nat) (s : string) : string :=
  match n, s with
  | Some O, _ => EmptyString
  | _, EmptyString => EmptyString
  | Some (S k), String c s' => String c (substr0 (Some k) s')
  | None, String c s' => String c (substr0 None s')
  end.

(** [string CVTermInfo::prefix() const] *)
Definition CVTermInfo_prefix (this : CVTermInfo.t) : string :=
  substr0 (find_first_of ":" (CVTermInfo.id this)) (CVTermInfo.id this).


End Runtime.

Import Generator Link Runtime.

(** * Definitions for the statements

    What the properties below are stated with: operations in the words of
    the specification, to compare the code with; the states a running
    process can reach; the terms of a run; and sample runs. *)

(** ** Escaping, in the spec's words *)

(** The escape rule in the spec's words, as one pass over the text: a
    backslash followed by a character of the class [P] is written with
    the backslash doubled; everything else is copied. *)
Fixpoint double_backslash (P : ascii -> bool) (s : string) : string :=
  match s with
  | EmptyString => EmptyString
  | String c s' =>
      if Ascii.eqb c backslash
      then match s' with
           | String p s'' =>
               if P p
               then String backslash (String backslash (String p (double_backslash P s'')))
               else String c (double_backslash P s')
           | EmptyString => String c EmptyString
           end
      else String c (double_backslash P s')
  end.

(** The nine punctuation characters [escape_copy] knows. *)
Definition obo_escape (c : ascii) : bool :=
  existsb (Ascii.eqb c) ["!"; ":"; ","; "("; ")"; "["; "]"; "{"; "}"]%char.

(** ** Version extraction: the first match *)

(** The text the first line matching [e] supplies. *)
Fixpoint first_match (e : regex) (header : list string) : option string :=
  match header with
  | [] => None
  | line :: header' =>
      match regex_match line e with
      | Some what => Some (sub_match what)
      | None => first_match e header'
      end
  end.


(** The first whitespace-delimited token behind "date: ", the field
    standing at the front of the line but for white space. *)
Definition date_token (line : string) : option string :=
  let s := skip_while isspace line in
  if starts_with "date: " s
  then let token := take_while non_space (drop_prefix "date: " s) in
       if string_empty token then None else Some token
  else None.

(** ** The process state *)

(** [m'] is [m] with, possibly, value-initialized elements added under
    keys that [m] does not have. *)
Definition extends_with {K V} `{Countable K} (dflt : V) (m m' : gmap K V) : Prop :=
  forall k, m' !! k = m !! k \/ (m !! k = None /\ m' !! k = Some dflt).

(** What a call may do to the variables once they are initialized. *)
Definition frame (st st' : State) : Prop :=
  initialized_ st' = initialized_ st /\
  cvids_ st' = cvids_ st /\
  extends_with CVTermInfo.default (infoMap_ st) (infoMap_ st') /\
  extends_with CV.default (cvMap_ st) (cvMap_ st').

(** The states a process can be in: it starts with the variables as
    static initialization leaves them and only the accessors touch them. *)
Inductive reachable (T : Tables.t) (ULONG_MAX : Z) : State -> Prop :=
| reach_start : reachable T ULONG_MAX start
| reach_cv prefix st :
    reachable T ULONG_MAX st -> reachable T ULONG_MAX (snd (cv T prefix st))
| reach_cvTermInfo cvid st :
    reachable T ULONG_MAX st -> reachable T ULONG_MAX (snd (cvTermInfo T cvid st))
| reach_cvTermInfo_id id st :
    reachable T ULONG_MAX st ->
    reachable T ULONG_MAX (snd (cvTermInfo_id T ULONG_MAX id st))
| reach_cvIsA depth child parent st b st' :
    reachable T ULONG_MAX st ->
    cvIsA T depth child parent st = Some (b, st') ->
    reachable T ULONG_MAX st'
| reach_cvids st :
    reachable T ULONG_MAX st -> reachable T ULONG_MAX (snd (cvids T st)).

(** The codes that occur as keys in the static tables. *)
Definition in_tables (T : Tables.t) (c : Z) : Prop :=
  In c (map TermInfo.cvid (Tables.termInfos_ T)) \/
  In c (map fst (Tables.relationsIsA_ T)) \/
  In c (map fst (Tables.relationsPartOf_ T)) \/
  In c (map fst (Tables.relationsExactSynonym_ T)).

(** ** The terms of a run *)

(** Every term of every ontology with the index of its ontology, in the
    order the generator's loops visit them. *)
Definition all_terms (obos : list OBO.t) : list (Z * OBO.t * Term.t) :=
  flat_map (fun io => map (fun term => (fst io, snd io, term)) (OBO.terms (snd io)))
           (with_index 0 obos).

Definition term_index (x : Z * OBO.t * Term.t) : Z := fst (fst x).
Definition term_obo (x : Z * OBO.t * Term.t) : OBO.t := snd (fst x).
Definition term_of (x : Z * OBO.t * Term.t) : Term.t := snd x.

(** A term's global code. *)
Definition global_code (x : Z * OBO.t * Term.t) : Z :=
  enumValue (term_of x) (term_index x).

Definition term_codes (obos : list OBO.t) : list Z :=
  map global_code (all_terms obos).

(** ** The is-a relation *)

(** The direct is-a parents of a code: the second components of the rows
    of [relationsIsA_] that have the code first, in table order. *)
Definition direct_parents (T : Tables.t) (c : Z) : list Z :=
  map snd (List.filter (fun r => (fst r =? c)%Z) (Tables.relationsIsA_ T)).

(** [parent] can be reached from [child] along direct is-a parents. *)
Inductive IsA (parents : Z -> list Z) : Z -> Z -> Prop :=
| IsA_refl x : IsA parents x x
| IsA_step child p parent :
    In p (parents child) -> IsA parents p parent -> IsA parents child parent.

(** The recursion of [cvIsA] on its own, over a given parent function:
    the calls and their order, without the maps. *)
Fixpoint any_parent_result (call : Z -> option bool) (parents : list Z) : option bool :=
  match parents with
  | [] => Some false
  | it :: parents' =>
      match call it with
      | Some true => Some true
      | Some false => any_parent_result call parents'
      | None => None
      end
  end.

Fixpoint cvIsA_result (parents : Z -> list Z) (depth : nat) (child parent : Z)
  : option bool :=
  match depth with
  | O => None
  | S depth' =>
      if (child =? parent)%Z then Some true
      else any_parent_result (fun it => cvIsA_result parents depth' it parent)
                             (parents child)
  end.

(** The element [operator[]] yields for a key. *)
Definition info_at (m : gmap Z CVTermInfo.t) (c : Z) : CVTermInfo.t :=
  match m !! c with
  | Some v => v
  | None => CVTermInfo.default
  end.

(** ** Sample runs *)

(** The header of the spec's scenario. *)
Definition header_scenario : list string :=
  ["format-version: 1.2"; "date: 01:01:2020 00:00"].

(** A term whose definition holds an escaped full stop, and one whose
    definition holds an escaped colon. *)
Definition dotted_term : Term.t :=
  Term.mk "MS" 1 "n" (bs ".") [] [] [].

Definition colon_term : Term.t :=
  Term.mk "MS" 1 "n" ("a" +:+ bs ":b") [] [] [].

(** Two ontologies: MS with an is-a loop at term 2, and UO. *)
Definition sample_obos : list OBO.t :=
  [ OBO.mk "psi-ms.obo" header_scenario "MS"
      [ Term.mk "MS" 1 "mass spectrum" "A plot." [] [] ["m-s"];
        Term.mk "MS" 2 "b" "B" [2] [] [];
        Term.mk "MS" 3 "c" "C" [] [] [];
        Term.mk "MS" 4 "a" "A" [2; 3] [1] [] ];
    OBO.mk "unit.obo" [] "UO"
      [ Term.mk "UO" 1 "second" "A time unit." [] [] ["s"] ] ].

(** The same without the loop: 6 is-a 5 is-a 3 in MS. *)
Definition chain_obos : list OBO.t :=
  [ OBO.mk "psi-ms.obo" header_scenario "MS"
      [ Term.mk "MS" 3 "c" "C" [] [] [];
        Term.mk "MS" 5 "b" "B" [3] [] [];
        Term.mk "MS" 6 "a" "A" [5] [] [] ] ].

(** Twenty-two ontologies, the last with a term whose global code,
    2150000000, does not fit [int]. *)
Definition wide_term : Term.t := Term.mk "W" 50000000 "w" "W" [] [] [].

Definition wide_obos : list OBO.t :=
  (List.repeat (OBO.mk "e.obo" [] "E" []) 21 ++ [OBO.mk "w.obo" [] "W" [wide_term]])%list.

(** The tables of a run, or empty tables when there is no artifact. *)
Definition tables_of (obos : list OBO.t) : Tables.t :=
  match link obos with
  | Some T => T
  | None => Tables.mk [] [] [] [] [] [] 0
  end.

Definition sample_tables : Tables.t := Eval vm_compute in tables_of sample_obos.
Definition chain_tables : Tables.t := Eval vm_compute in tables_of chain_obos.
Definition wide_tables : Tables.t := Eval vm_compute in tables_of wide_obos.

(** LP64: [unsigned long] has 64 bits. *)
Definition ULONG_MAX_64 : Z := 2 ^ 64 - 1.


(** A rank for the chain 6 is-a 5 is-a 3. *)
Definition chain_rank (c : Z) : nat :=
  if (c =? 6)%Z then 2 else if (c =? 5)%Z then 1 else 0.

(** ** Counting and testing characters *)

Fixpoint count_char (c : ascii) (s : string) : nat :=
  match s with
  | EmptyString => O
  | String d s' => (if Ascii.eqb d c then 1 else 0) + count_char c s'
  end.

Fixpoint all_chars (p : ascii -> bool) (s : string) : bool :=
  match s with
  | EmptyString => true
  | String c s' => p c && all_chars p s'
  end.

(** The characters of an identifier. *)
Definition identifier_char (c : ascii) : bool :=
  isalnum c || Ascii.eqb c "_".

Definition islower (c : ascii) : bool :=
  (97 <=? code c)%nat && (code c <=? 122)%nat.

(** ** Version extraction, in the spec's words *)







(** A record with a given id and nothing else. *)
Definition info_with_id (id : string) : CVTermInfo.t :=
  CVTermInfo.mk CVID_Unknown id EmptyString EmptyString [] [] [].

(** Every backslash of the text stands in front of one of the nine
    characters [escape_copy] knows. *)
Fixpoint well_escaped (s : string) : bool :=
  match s with
  | EmptyString => true
  | String c s' =>
      if Ascii.eqb c backslash
      then match s' with
           | String p s'' => obo_escape p && well_escaped s''
           | EmptyString => false
           end
      else well_escaped s'
  end.

(** ** Text that a string literal can hold *)

(** A character that stands for itself between the quotes of a string
    literal, whatever stands next to it: printable ASCII other than the
    double quote, the backslash and the question mark, which can begin a
    trigraph. *)
Definition literal_char (c : ascii) : bool :=
  (32 <=? code c)%nat && (code c <=? 126)%nat
  && negb (Ascii.eqb c dquote) && negb (Ascii.eqb c backslash)
  && negb (Ascii.eqb c "?").

(** The characters that make a simple escape sequence behind a backslash. *)
Definition simple_escape (e : ascii) : bool :=
  existsb (Ascii.eqb e)
    ["'"%char; dquote; "?"%char; backslash; "a"%char; "b"%char; "f"%char;
     "n"%char; "r"%char; "t"%char; "v"%char].

(** The text between the quotes of a string literal that is made of such
    characters and of simple escape sequences, and of nothing else.  For
    this text [literal] is the reading the language defines. *)
Fixpoint literal_body (text : string) : bool :=
  match text with
  | EmptyString => true
  | String c text' =>
      if Ascii.eqb c backslash
      then match text' with
           | String e text'' => simple_escape e && literal_body text''
           | EmptyString => false
           end
      else literal_char c && literal_body text'
  end.

(** The characters of ontology text that [escape_copy] carries into such
    a literal: the same, and the backslash. *)
Definition obo_char (c : ascii) : bool :=
  literal_char c || Ascii.eqb c backslash.

(** The shape of an identifier: letters, digits and underscores, the first
    of them no digit.  (Keywords have this shape too.) *)
Definition identifier (s : string) : bool :=
  match s with
  | EmptyString => false
  | String c _ => negb (isdigit c) && all_chars identifier_char s
  end.

(** Every initializer that names an enumerator names one declared before
    it; [seen] are the names declared so far. *)
Fixpoint scoped (seen : list string) (entries : list (string * initializer)) : Prop :=
  match entries with
  | [] => True
  | (enumerator, Num _) :: entries' => scoped (enumerator :: seen) entries'
  | (enumerator, Ref earlier) :: entries' =>
      In earlier seen /\ scoped (enumerator :: seen) entries'
  end.

(** ** What the maps hold after initialization *)

(** The part-of parents and the exact synonyms of a code, from the rows
    of the tables that have the code first, in table order. *)
Definition partOf_parents (T : Tables.t) (c : Z) : list Z :=
  map snd (List.filter (fun r => (fst r =? c)%Z) (Tables.relationsPartOf_ T)).

Definition synonyms_of (T : Tables.t) (c : Z) : list string :=
  map snd (List.filter (fun r => (fst r =? c)%Z) (Tables.relationsExactSynonym_ T)).

(** The element [operator[]] yields for a key of [cvMap_]. *)
Definition cv_at (m : gmap string CV.t) (prefix : string) : CV.t :=
  match m !! prefix with
  | Some v => v
  | None => CV.default
  end.

(** The record [initialize] builds for a row of [termInfos_]. *)
Definition record_of_row (T : Tables.t) (r : TermInfo.t) : CVTermInfo.t :=
  CVTermInfo.mk (TermInfo.cvid r) (TermInfo.id r) (TermInfo.name r) (TermInfo.def r)
    (direct_parents T (TermInfo.cvid r)) (partOf_parents T (TermInfo.cvid r))
    (synonyms_of T (TermInfo.cvid r)).

(** A field of a namespace descriptor. *)
Definition field_of (f : cv_field) (c : CV.t) : string :=
  match f with
  | FullName => CV.fullName c
  | URI => CV.URI c
  | Id => CV.id c
  | Version => CV.version c
  end.

(** * Properties *)

Lemma main_index_in_range (n : Z) : 0 <= n <= INT_MAX -> index_in_range n.
Proof.
  unfold index_in_range, INT_MAX, enumBlockSize_, SIZE_MOD. lia.
Qed.

Lemma enumValue_no_wrap (t : Term.t) (n : Z) :
  0 <= Term.id t < enumBlockSize_ -> index_in_range n ->
  enumValue t n = Term.id t + enumBlockSize_ * n.
Proof.
  intros Hid [Hn Hfit]. unfold enumValue, size_wrap.
  assert (Hb : 0 < enumBlockSize_) by (unfold enumBlockSize_; lia).
  rewrite (Z.mod_small (enumBlockSize_ * n)) by nia.
  apply Z.mod_small. nia.
Qed.

(** C1. For namespace indices [n] of a run and local ids below the block
    size, [enumValue] is injective on (index, id) pairs, and dividing the
    code by the block size gives back the index while the remainder gives
    back the id. *)
Theorem enumValue_injective_roundtrip (t1 t2 : Term.t) (n1 n2 : Z) :
  0 <= Term.id t1 < enumBlockSize_ -> 0 <= Term.id t2 < enumBlockSize_ ->
  index_in_range n1 -> index_in_range n2 ->
  deallocate (enumValue t1 n1) = (n1, Term.id t1) /\
  (enumValue t1 n1 = enumValue t2 n2 -> n1 = n2 /\ Term.id t1 = Term.id t2).
Proof.
  intros H1 H2 Hn1 Hn2.
  assert (Hb : 0 < enumBlockSize_) by (unfold enumBlockSize_; lia).
  assert (Hd : forall t n, 0 <= Term.id t < enumBlockSize_ -> index_in_range n ->
                deallocate (enumValue t n) = (n, Term.id t)).
  { intros t n Ht Hn. rewrite enumValue_no_wrap by assumption.
    unfold deallocate. f_equal.
    - rewrite Z.mul_comm, Z.div_add by lia. rewrite Z.div_small by lia. lia.
    - rewrite Z.mul_comm, Z.mod_add by lia. apply Z.mod_small. lia. }
  split; [apply Hd; assumption|].
  intros Heq.
  pose proof (Hd t1 n1 H1 Hn1) as E1. pose proof (Hd t2 n2 H2 Hn2) as E2.
  rewrite Heq in E1. rewrite E1 in E2. inversion E2. auto.
Qed.

Lemma enumValue_injective_roundtrip_witness :
  deallocate (enumValue colon_term 1) = (1, Term.id colon_term) /\
  (enumValue colon_term 1 = enumValue dotted_term 1 ->
   1 = 1 /\ Term.id colon_term = Term.id dotted_term).
Proof.
  apply (enumValue_injective_roundtrip colon_term dotted_term 1 1);
    unfold index_in_range, Generator.enumBlockSize_, SIZE_MOD; cbn; lia.
Defined.

(** ** Escaping *)

Lemma string_ind2 (P : string -> Prop) :
  P EmptyString ->
  (forall c, P (String c EmptyString)) ->
  (forall c1 c2 s, P s -> P (String c2 s) -> P (String c1 (String c2 s))) ->
  forall s, P s.
Proof.
  intros H0 H1 H2 s.
  assert (H : P s /\ forall c, P (String c s)).
  { induction s as [|c s [IH1 IH2]]; split; auto. }
  apply H.
Qed.

Lemma append_assoc (a b c : string) : (a +:+ b) +:+ c = a +:+ (b +:+ c).
Proof. induction a as [|x a IH]; cbn [String.append]; [reflexivity | now rewrite IH]. Qed.

Lemma append_nil_r (a : string) : a +:+ EmptyString = a.
Proof. induction a as [|x a IH]; cbn [String.append]; [reflexivity | now rewrite IH]. Qed.

Lemma contains_refl (s : string) : contains s s.
Proof. exists EmptyString, EmptyString. cbn [String.append]. now rewrite append_nil_r. Qed.

Lemma contains_append (s sub pre post : string) :
  contains s sub -> contains (pre +:+ s +:+ post) sub.
Proof.
  intros (a & b & ->). exists (pre +:+ a), (b +:+ post).
  now rewrite !append_assoc.
Qed.

Lemma double_backslash_single (P : ascii -> bool) (c : ascii) :
  double_backslash P (String c EmptyString) = String c EmptyString.
Proof. cbn [double_backslash]. destruct (Ascii.eqb c backslash); reflexivity. Qed.

Section DoubleBackslash.

Variable P : ascii -> bool.
Hypothesis P_backslash : P backslash = false.

Lemma double_backslash_escape (p : ascii) (s : string) :
  P p = true ->
  double_backslash P (String backslash (String p s))
  = String backslash (String backslash (String p (double_backslash P s))).
Proof. intros Hp. simpl. now rewrite Hp. Qed.

Lemma double_backslash_keep (p : ascii) (s : string) :
  P p = false ->
  double_backslash P (String backslash (String p s))
  = String backslash (double_backslash P (String p s)).
Proof. intros Hp. cbn [double_backslash]. rewrite Ascii.eqb_refl. now rewrite Hp. Qed.

Lemma double_backslash_other (c : ascii) (s : string) :
  c <> backslash ->
  double_backslash P (String c s) = String c (double_backslash P s).
Proof.
  intros Hc. cbn [double_backslash].
  destruct (Ascii.eqb_spec c backslash); [contradiction | reflexivity].
Qed.

(** The first character is always copied first. *)
Lemma double_backslash_head (c : ascii) (s : string) :
  exists t, double_backslash P (String c s) = String c t.
Proof.
  cbn [double_backslash]. destruct (Ascii.eqb_spec c backslash) as [->|]; eauto.
  destruct s as [|p s]; eauto. destruct (P p); eauto.
Qed.

(** A backslash splits the text: what precedes it is escaped on its own. *)
Lemma double_backslash_app (a y : string) :
  double_backslash P (a +:+ String backslash y)
  = double_backslash P a +:+ double_backslash P (String backslash y).
Proof.
  induction a as [| c | c1 c2 a IH1 IH2] using string_ind2.
  - reflexivity.
  - destruct (Ascii.eqb_spec c backslash) as [->|Hc].
    + change (String backslash EmptyString +:+ String backslash y)
        with (String backslash (String backslash y)).
      rewrite double_backslash_keep by assumption. reflexivity.
    + change (String c EmptyString +:+ String backslash y)
        with (String c (String backslash y)).
      rewrite (double_backslash_other c (String backslash y)) by assumption.
      rewrite (double_backslash_other c EmptyString) by assumption.
      reflexivity.
  - change (String c1 (String c2 a) +:+ String backslash y)
      with (String c1 (String c2 (a +:+ String backslash y))).
    destruct (Ascii.eqb_spec c1 backslash) as [->|Hc].
    + destruct (P c2) eqn:Hp.
      * rewrite (double_backslash_escape c2 (a +:+ String backslash y)) by assumption.
        rewrite (double_backslash_escape c2 a) by assumption.
        rewrite IH1. reflexivity.
      * rewrite (double_backslash_keep c2 (a +:+ String backslash y)) by assumption.
        rewrite (double_backslash_keep c2 a) by assumption.
        change (String c2 (a +:+ String backslash y))
          with (String c2 a +:+ String backslash y).
        rewrite IH2. reflexivity.
    + rewrite (double_backslash_other c1 (String c2 (a +:+ String backslash y)))
        by assumption.
      rewrite (double_backslash_other c1 (String c2 a)) by assumption.
      change (String c2 (a +:+ String backslash y))
        with (String c2 a +:+ String backslash y).
      rewrite IH2. reflexivity.
Qed.

End DoubleBackslash.

Section Pass.

Variable P : ascii -> bool.
Hypothesis P_backslash : P backslash = false.
(** One more character [q] handled by a further pass over the result. *)
Lemma double_backslash_pass (q : ascii) (s : string) :
  q <> backslash -> P q = false ->
  double_backslash (Ascii.eqb q) (double_backslash P s)
  = double_backslash (fun c => Ascii.eqb q c || P c) s.
Proof.
  intros Hq HPq.
  assert (Hqb : Ascii.eqb q backslash = false) by now apply Ascii.eqb_neq.
  induction s as [| c | c1 c2 s IH1 IH2] using string_ind2.
  - reflexivity.
  - now rewrite !double_backslash_single.
  - destruct (Ascii.eqb_spec c1 backslash) as [->|Hc].
    + destruct (P c2) eqn:Hp.
      * assert (Hqc : Ascii.eqb q c2 = false).
        { apply Ascii.eqb_neq. intros ->. congruence. }
        assert (Hc2 : c2 <> backslash) by (intros ->; congruence).
        rewrite (double_backslash_escape P c2 s Hp).
        rewrite (double_backslash_keep (Ascii.eqb q) backslash) by assumption.
        rewrite (double_backslash_keep (Ascii.eqb q) c2) by assumption.
        rewrite (double_backslash_other (Ascii.eqb q) c2) by assumption.
        rewrite IH1.
        rewrite (double_backslash_escape _ c2 s); [reflexivity|].
        now rewrite Hp, orb_true_r.
      * rewrite (double_backslash_keep P c2 s Hp).
        destruct (Ascii.eqb_spec q c2) as [<-|Hqc].
        -- rewrite (double_backslash_other P q s) by assumption.
           rewrite (double_backslash_escape (Ascii.eqb q) q) by apply Ascii.eqb_refl.
           rewrite IH1.
           rewrite (double_backslash_escape _ q s); [reflexivity|].
           now rewrite Ascii.eqb_refl.
        -- destruct (double_backslash_head P c2 s) as [t Ht].
           rewrite Ht.
           rewrite (double_backslash_keep (Ascii.eqb q) c2 t) by now apply Ascii.eqb_neq.
           rewrite <- Ht, IH2.
           rewrite (double_backslash_keep _ c2 s); [reflexivity|].
           apply Ascii.eqb_neq in Hqc. now rewrite Hqc, Hp.
    + rewrite (double_backslash_other P c1) by assumption.
      rewrite (double_backslash_other (Ascii.eqb q) c1) by assumption.
      rewrite (double_backslash_other _ c1 (String c2 s)) by assumption.
      f_equal. exact IH2.
Qed.
End Pass.


Lemma double_backslash_ext (P Q : ascii -> bool) (s : string) :
  (forall c, P c = Q c) -> double_backslash P s = double_backslash Q s.
Proof.
  intros H. induction s as [| c | c1 c2 s IH1 IH2] using string_ind2.
  - reflexivity.
  - reflexivity.
  - destruct (Ascii.eqb_spec c1 backslash) as [->|Hc].
    + destruct (Q c2) eqn:HQ.
      * rewrite (double_backslash_escape P c2 s) by now rewrite H.
        rewrite (double_backslash_escape Q c2 s) by assumption.
        now rewrite IH1.
      * rewrite (double_backslash_keep P c2 s) by now rewrite H.
        rewrite (double_backslash_keep Q c2 s) by assumption.
        now rewrite IH2.
    + rewrite (double_backslash_other P c1), (double_backslash_other Q c1) by assumption.
      now rewrite IH2.
Qed.

(** One [replace_all] of [escape_copy] is one pass for one character. *)
Lemma replace_all_double (p : ascii) (s : string) :
  replace_all s (bs (String p EmptyString)) (bs (bs (String p EmptyString)))
  = double_backslash (Ascii.eqb p) s.
Proof.
  unfold replace_all.
  induction s as [| c | c1 c2 s IH1 IH2] using string_ind2.
  - reflexivity.
  - rewrite double_backslash_single.
    cbn [replace_all_from starts_with bs andb].
    destruct (Ascii.eqb backslash c); reflexivity.
  - change (replace_all_from 0 (String c1 (String c2 s))
              (bs (String p EmptyString)) (bs (bs (String p EmptyString))))
      with (if Ascii.eqb backslash c1 && (Ascii.eqb p c2 && true)
            then bs (bs (String p EmptyString))
                 +:+ replace_all_from 1 (String c2 s)
                       (bs (String p EmptyString)) (bs (bs (String p EmptyString)))
            else String c1 (replace_all_from 0 (String c2 s)
                       (bs (String p EmptyString)) (bs (bs (String p EmptyString))))).
    change (replace_all_from 1 (String c2 s)
              (bs (String p EmptyString)) (bs (bs (String p EmptyString))))
      with (replace_all_from 0 s
              (bs (String p EmptyString)) (bs (bs (String p EmptyString)))).
    rewrite IH1, IH2, andb_true_r.
    destruct (Ascii.eqb_spec backslash c1) as [<-|Hc]; cbn [andb].
    + destruct (Ascii.eqb_spec p c2) as [<-|Hp].
      * rewrite double_backslash_escape by apply Ascii.eqb_refl. reflexivity.
      * rewrite double_backslash_keep by now apply Ascii.eqb_neq. reflexivity.
    + rewrite (double_backslash_other _ c1) by congruence. reflexivity.
Qed.

Lemma obo_escape_passes (c : ascii) :
  (Ascii.eqb "}" c || (Ascii.eqb "{" c || (Ascii.eqb "]" c || (Ascii.eqb "[" c ||
   (Ascii.eqb ")" c || (Ascii.eqb "(" c || (Ascii.eqb "," c || (Ascii.eqb ":" c ||
    Ascii.eqb "!" c))))))))%char = obo_escape c.
Proof. destruct c as [[] [] [] [] [] [] [] []]; reflexivity. Qed.

(** [escape_copy] doubles the backslash in front of each of the nine
    characters, and nothing else. *)
Lemma escape_copy_double (s : string) :
  escape_copy s = double_backslash obo_escape s.
Proof.
  unfold escape_copy. rewrite !replace_all_double.
  rewrite (double_backslash_pass _ eq_refl ":"%char s) by (reflexivity || discriminate).
  rewrite (double_backslash_pass _ eq_refl ","%char s) by (reflexivity || discriminate).
  rewrite (double_backslash_pass _ eq_refl "("%char s) by (reflexivity || discriminate).
  rewrite (double_backslash_pass _ eq_refl ")"%char s) by (reflexivity || discriminate).
  rewrite (double_backslash_pass _ eq_refl "["%char s) by (reflexivity || discriminate).
  rewrite (double_backslash_pass _ eq_refl "]"%char s) by (reflexivity || discriminate).
  rewrite (double_backslash_pass _ eq_refl "{"%char s) by (reflexivity || discriminate).
  rewrite (double_backslash_pass _ eq_refl "}"%char s) by (reflexivity || discriminate).
  apply double_backslash_ext. intros c. apply obo_escape_passes.
Qed.

Lemma starts_with_append (sub after : string) : starts_with sub (sub +:+ after) = true.
Proof.
  induction sub as [|c sub IH]; cbn [starts_with String.append]; [reflexivity|].
  now rewrite Ascii.eqb_refl, IH.
Qed.

Lemma starts_with_split (sub s : string) :
  starts_with sub s = true -> exists after, s = sub +:+ after.
Proof.
  revert s. induction sub as [|c sub IH]; intros s H.
  - now exists s.
  - destruct s as [|d s]; [discriminate|]. cbn [starts_with] in H.
    apply andb_true_iff in H as [Hc Hs]. apply Ascii.eqb_eq in Hc. subst d.
    destruct (IH s Hs) as [after ->]. now exists after.
Qed.

Lemma contains_occurs (s sub : string) : contains s sub <-> occurs sub s = true.
Proof.
  split.
  - intros (before & after & ->). induction before as [|c before IH].
    + cbn [String.append]. destruct (sub +:+ after) eqn:E; cbn [occurs];
        rewrite <- E, starts_with_append; reflexivity.
    + cbn [String.append occurs]. rewrite IH. apply orb_true_r.
  - induction s as [|c s IH]; cbn [occurs]; intros H.
    + rewrite orb_false_r in H. destruct (starts_with_split _ _ H) as [after E].
      exists EmptyString, after. exact E.
    + apply orb_true_iff in H as [H|H].
      * destruct (starts_with_split _ _ H) as [after E].
        exists EmptyString, after. exact E.
      * destruct (IH H) as (before & after & ->).
        now exists (String c before), after.
Qed.

Lemma contains_app_r (s sub pre : string) :
  contains s sub -> contains (pre +:+ s) sub.
Proof.
  intros H. rewrite <- (append_nil_r s).
  now apply (contains_append s sub pre EmptyString).
Qed.

Lemma contains_app_l (s sub post : string) :
  contains s sub -> contains (s +:+ post) sub.
Proof. intros H. now apply (contains_append s sub EmptyString post). Qed.

Lemma contains_row_def (r : TermInfoRow) (sub : string) :
  contains (row_def r) sub -> contains (row_line r) sub.
Proof.
  intros H. unfold row_line, quoted.
  do 7 apply contains_app_r. apply contains_app_l.
  apply (contains_app_r _ _ (String dquote EmptyString)).
  now apply contains_app_l.
Qed.

Lemma contains_row_name (r : TermInfoRow) (sub : string) :
  contains (row_name r) sub -> contains (row_line r) sub.
Proof.
  intros H. unfold row_line, quoted.
  do 5 apply contains_app_r. apply contains_app_l.
  apply (contains_app_r _ _ (String dquote EmptyString)).
  now apply contains_app_l.
Qed.

(** An escaped character of the nine keeps its place and gains a
    backslash. *)
Lemma escape_copy_contains (s : string) (p : ascii) :
  obo_escape p = true ->
  contains s (bs (String p EmptyString)) ->
  contains (escape_copy s) (bs (bs (String p EmptyString))).
Proof.
  intros Hp (before & after & ->). rewrite escape_copy_double.
  unfold bs. cbn [String.append].
  rewrite double_backslash_app by reflexivity.
  rewrite double_backslash_escape by assumption.
  exists (double_backslash obo_escape before), (double_backslash obo_escape after).
  reflexivity.
Qed.

(** C10, as the claim states it, fails: a full stop is punctuation, and
    the backslash in front of it is written as it is; the doubled form
    occurs nowhere in the emitted line. *)
Lemma escape_copy_leaves_full_stop :
  ispunct "." = true /\
  contains (Term.def dotted_term) (bs ".") /\
  row_def (term_row dotted_term) = bs "." /\
  ~ contains (row_line (term_row dotted_term)) (bs (bs ".")).
Proof.
  split; [reflexivity|]. split; [apply contains_refl|]. split; [reflexivity|].
  intros H. apply contains_occurs in H. vm_compute in H. discriminate.
Qed.

(** C10, amended. The name and definition literals of a [termInfos_] row
    are the term's name and definition with the backslash doubled in front
    of each of [! : , ( ) [ ] { }] and copied otherwise; so an escaped
    character of these nine, the colon among them, appears in the emitted
    line behind two backslashes. *)
Theorem escape_copy_doubles_obo_escapes (term : Term.t) :
  row_name (term_row term) = double_backslash obo_escape (Term.name term) /\
  row_def (term_row term) = double_backslash obo_escape (Term.def term) /\
  (forall p, obo_escape p = true ->
     (contains (Term.name term) (bs (String p EmptyString)) ->
      contains (row_line (term_row term)) (bs (bs (String p EmptyString)))) /\
     (contains (Term.def term) (bs (String p EmptyString)) ->
      contains (row_line (term_row term)) (bs (bs (String p EmptyString))))) /\
  (contains (Term.def term) (bs ":") ->
   contains (row_line (term_row term)) (bs (bs ":"))).
Proof.
  split; [apply escape_copy_double|]. split; [apply escape_copy_double|].
  assert (H : forall p, obo_escape p = true ->
     (contains (Term.name term) (bs (String p EmptyString)) ->
      contains (row_line (term_row term)) (bs (bs (String p EmptyString)))) /\
     (contains (Term.def term) (bs (String p EmptyString)) ->
      contains (row_line (term_row term)) (bs (bs (String p EmptyString))))).
  { intros p Hp. split; intros H.
    - apply contains_row_name. now apply escape_copy_contains.
    - apply contains_row_def. now apply escape_copy_contains. }
  split; [exact H|]. apply (H ":"%char). reflexivity.
Qed.

Lemma escape_copy_doubles_obo_escapes_witness :
  contains (Term.def colon_term) (bs ":") /\
  contains (row_line (term_row colon_term)) (bs (bs ":")).
Proof.
  assert (H : contains (Term.def colon_term) (bs ":")).
  { exists "a", "b". reflexivity. }
  split; [exact H|].
  exact (proj2 (proj2 (proj2 (escape_copy_doubles_obo_escapes colon_term))) H).
Defined.

(** ** Version extraction *)

Lemma all_chars_append (p : ascii -> bool) (a b : string) :
  all_chars p (a +:+ b) = all_chars p a && all_chars p b.
Proof.
  induction a as [|c a IH]; cbn [String.append all_chars]; [reflexivity|].
  now rewrite IH, andb_assoc.
Qed.

Lemma find_map_list {A B} (p : B -> bool) (f : A -> B) (l : list A) :
  List.find p (map f l) = f <$> List.find (fun x => p (f x)) l.
Proof.
  induction l as [|x l IH]; cbn [map List.find]; [reflexivity|].
  destruct (p (f x)); [reflexivity | exact IH].
Qed.

Lemma flat_map_map_list {A B C} (f : B -> list C) (h : A -> B) (l : list A) :
  flat_map f (map h l) = flat_map (fun x => f (h x)) l.
Proof. induction l as [|x l IH]; cbn [map flat_map]; [reflexivity | now rewrite IH]. Qed.

Lemma spans_greedy_first (p : ascii -> bool) (s : string) :
  exists others, spans_greedy p s = (take_while p s, skip_while p s) :: others.
Proof.
  induction s as [|c s [others IH]]; cbn [spans_greedy take_while skip_while].
  - now exists [].
  - destruct (p c).
    + rewrite IH. cbn [map app fst snd]. eauto.
    + now exists [].
Qed.

Lemma take_while_all (s : string) : take_while any_char s = s.
Proof. induction s as [|c s IH]; cbn [take_while any_char]; [reflexivity | now rewrite IH]. Qed.

Lemma skip_while_all (s : string) : skip_while any_char s = EmptyString.
Proof. induction s as [|c s IH]; cbn [skip_while any_char]; [reflexivity | exact IH]. Qed.

(** The shorter runs of white space lead nowhere when what follows cannot
    begin with white space: only the longest run is left. *)
Lemma flat_map_spans_isspace {B} (F : string * string -> list B) (s : string) :
  (forall a c b, isspace c = true -> F (a, String c b) = []) ->
  flat_map F (spans_greedy isspace s) = F (take_while isspace s, skip_while isspace s).
Proof.
  revert F. induction s as [|c s IH]; intros F HF;
    cbn [spans_greedy take_while skip_while flat_map].
  - apply app_nil_r.
  - destruct (isspace c) eqn:Hc; cbn [flat_map].
    + rewrite flat_map_app, flat_map_map_list. cbn [flat_map].
      rewrite (HF _ _ _ Hc), !app_nil_r.
      rewrite IH; [reflexivity|]. intros a d b Hd. cbn [fst snd]. now apply HF.
    + apply app_nil_r.
Qed.

Lemma spans_Star (p : ascii -> bool) (s : string) :
  spans p Star s = spans_greedy p s.
Proof. destruct s; reflexivity. Qed.

Lemma run_Seq (r1 r2 : regex) (s : string) (g : option string) :
  run (Seq r1 r2) s g =
  flat_map (fun m1 =>
    map (fun m2 => mkPartial (consumed m1 +:+ consumed m2) (rest m2) (what1 m2))
        (run r2 (rest m1) (what1 m1)))
    (run r1 s g).
Proof. reflexivity. Qed.

Lemma run_Seq_Lit (l : string) (r : regex) (s : string) (g : option string) :
  run (Seq (Lit l) r) s g =
  if starts_with l s
  then map (fun m2 => mkPartial (l +:+ consumed m2) (rest m2) (what1 m2))
           (run r (drop_prefix l s) g)
  else [].
Proof.
  rewrite run_Seq. cbn [run]. destruct (starts_with l s); [|reflexivity].
  cbn [flat_map consumed rest what1]. apply app_nil_r.
Qed.

Lemma run_Seq_isspace_star (r : regex) (s : string) (g : option string) :
  (forall c b, isspace c = true -> run r (String c b) g = []) ->
  run (Seq (Class isspace Star) r) s g =
  map (fun m2 => mkPartial (take_while isspace s +:+ consumed m2) (rest m2) (what1 m2))
      (run r (skip_while isspace s) g).
Proof.
  intros Hr. rewrite run_Seq.
  change (run (Class isspace Star) s g)
    with (map (fun ab => mkPartial (fst ab) (snd ab) g) (spans isspace Star s)).
  rewrite spans_Star.
  rewrite flat_map_map_list. cbn [consumed rest what1 fst snd].
  rewrite (flat_map_spans_isspace
             (fun x => map (fun m2 => mkPartial (fst x +:+ consumed m2) (rest m2) (what1 m2))
                           (run r (snd x) g))).
  - reflexivity.
  - intros a c b Hc. cbn [fst snd]. now rewrite Hr.
Qed.

(** What the tail of the date pattern, ["(\\S+).*"], makes of a text. *)
Lemma find_token_tail (s : string) (g : option string) :
  List.find (fun m => string_empty (rest m))
    (run (Seq (Group (Class non_space Plus)) (Class any_char Star)) s g)
  = if string_empty (take_while non_space s) then None
    else Some (mkPartial s EmptyString (Some (take_while non_space s))).
Proof.
  rewrite run_Seq.
  change (run (Group (Class non_space Plus)) s g)
    with (map (fun m => mkPartial (consumed m) (rest m) (Some (consumed m)))
              (map (fun ab => mkPartial (fst ab) (snd ab) g) (spans non_space Plus s))).
  rewrite map_map, flat_map_map_list. cbn [consumed rest what1].
  destruct s as [|c s]; [reflexivity|].
  cbn [spans take_while]. destruct (non_space c) eqn:Hc; [|reflexivity].
  destruct (spans_greedy_first non_space s) as [others ->].
  cbn [map flat_map fst snd string_empty run].
  rewrite spans_Star.
  destruct (spans_greedy_first any_char (skip_while non_space s)) as [others' ->].
  cbn [map app List.find fst snd consumed rest what1 spans].
  rewrite skip_while_all, take_while_all. cbn [string_empty].
  do 2 f_equal. cbn [String.append]. f_equal.
  clear. induction s as [|d s IH]; cbn [take_while skip_while]; [reflexivity|].
  destruct (non_space d); cbn [String.append]; [now rewrite IH | reflexivity].
Qed.

(** The date pattern, read as a function of the line. *)
Lemma date_regex_token (line : string) :
  regex_match line date_regex = Some <$> date_token line.
Proof.
  unfold regex_match, date_regex, date_token.
  rewrite run_Seq_isspace_star.
  2:{ intros c b Hc. rewrite run_Seq_Lit. cbn [starts_with].
      destruct (Ascii.eqb_spec "d" c) as [<-|]; [discriminate Hc | reflexivity]. }
  rewrite run_Seq_Lit.
  set (s := skip_while isspace line).
  destruct (starts_with "date: " s) eqn:Hs; [|reflexivity].
  rewrite map_map. cbn [consumed rest what1].
  rewrite (find_map_list (fun m => string_empty (rest m))). cbn [rest].
  rewrite find_token_tail.
  destruct (string_empty (take_while non_space (drop_prefix "date: " s))); reflexivity.
Qed.

Lemma date_token_nonempty (line token : string) :
  date_token line = Some token -> string_empty token = false.
Proof.
  unfold date_token. destruct (starts_with _ _); [|discriminate].
  destruct (string_empty (take_while _ _)) eqn:E; [discriminate|].
  intros [= <-]. exact E.
Qed.

Lemma regex_match_found (line : string) (e : regex) (w : option string) :
  regex_match line e = Some w ->
  exists m, In m (run e line None) /\ what1 m = w.
Proof.
  unfold regex_match. destruct (List.find _ _) as [m|] eqn:E; [|discriminate].
  intros [= <-]. apply find_some in E. exists m. tauto.
Qed.

(** Group 1 of the version pattern is never empty. *)
Lemma version_regex_nonempty (line : string) (w : option string) :
  regex_match line version_regex = Some w -> string_empty (sub_match w) = false.
Proof.
  intros H. apply regex_match_found in H as (m & Hm & <-).
  unfold version_regex in Hm. cbn [run] in Hm.
  apply in_flat_map in Hm as (m1 & _ & Hm).
  apply in_map_iff in Hm as (m2 & <- & Hm). cbn [what1].
  apply in_flat_map in Hm as (m3 & _ & Hm).
  apply in_map_iff in Hm as (m4 & <- & Hm). cbn [what1].
  destruct (starts_with _ _); [|destruct Hm].
  cbn [flat_map] in Hm. rewrite app_nil_r in Hm.
  apply in_map_iff in Hm as (m5 & <- & Hm). cbn [what1].
  apply in_map_iff in Hm as (m6 & <- & Hm). cbn [what1].
  apply in_map_iff in Hm as (ab & <- & Hm). cbn [consumed sub_match].
  cbn [rest] in Hm. destruct (drop_prefix _ _) as [|c s]; [destruct Hm|].
  cbn [spans] in Hm. destruct (non_space c); [|destruct Hm].
  apply in_map_iff in Hm as (ab' & <- & _). reflexivity.
Qed.

Lemma date_regex_nonempty (line : string) (w : option string) :
  regex_match line date_regex = Some w -> string_empty (sub_match w) = false.
Proof.
  rewrite date_regex_token. destruct (date_token line) as [token|] eqn:E; [|discriminate].
  intros [= <-]. exact (date_token_nonempty _ _ E).
Qed.

Lemma first_match_nonempty (e : regex) (header : list string) (v : string) :
  (forall line w, regex_match line e = Some w -> string_empty (sub_match w) = false) ->
  first_match e header = Some v -> string_empty v = false.
Proof.
  intros He. induction header as [|line header IH]; cbn [first_match]; [discriminate|].
  destruct (regex_match line e) as [w|] eqn:E; [|exact IH].
  intros [= <-]. exact (He _ _ E).
Qed.

(** The loop, started with any [version] already found. *)
Lemma version_loop_spec (header : list string) (version : string) :
  version_loop header version =
  match first_match version_regex header with
  | Some v => v
  | None =>
      if string_empty version
      then match first_match date_regex header with
           | Some d => d
           | None => EmptyString
           end
      else version
  end.
Proof.
  revert version. induction header as [|line header IH]; intros version;
    cbn [version_loop first_match].
  - destruct version; reflexivity.
  - destruct (regex_match line version_regex) as [w|]; [reflexivity|].
    rewrite IH. destruct (first_match version_regex header); [reflexivity|].
    destruct (string_empty version) eqn:Ev.
    + destruct (regex_match line date_regex) as [w|] eqn:Ed.
      * now rewrite (date_regex_nonempty _ _ Ed).
      * rewrite Ev. reflexivity.
    + rewrite Ev. reflexivity.
Qed.



















(** ** The process-wide maps *)

Section Maps.

Context {K V : Type} `{Countable K}.
Variable dflt : V.

Lemma extends_with_refl (m : gmap K V) : extends_with dflt m m.
Proof. intros k. now left. Qed.

Lemma extends_with_trans (m1 m2 m3 : gmap K V) :
  extends_with dflt m1 m2 -> extends_with dflt m2 m3 -> extends_with dflt m1 m3.
Proof.
  intros H12 H23 k. destruct (H12 k) as [E12|[N1 E2]], (H23 k) as [E23|[N2 E3]].
  - left. congruence.
  - right. split; congruence.
  - right. split; congruence.
  - congruence.
Qed.

Lemma subscript_snd (m : gmap K V) (k : K) :
  snd (subscript dflt m k)
  = match m !! k with Some _ => m | None => <[k := dflt]> m end.
Proof. unfold subscript. destruct (m !! k); reflexivity. Qed.

Lemma subscript_fst (m : gmap K V) (k : K) :
  fst (subscript dflt m k) = match m !! k with Some v => v | None => dflt end.
Proof. unfold subscript. destruct (m !! k); reflexivity. Qed.

Lemma subscript_extends (m : gmap K V) (k : K) :
  extends_with dflt m (snd (subscript dflt m k)).
Proof.
  rewrite subscript_snd. destruct (m !! k) eqn:E; [apply extends_with_refl|].
  intros j. destruct (decide (k = j)) as [<-|Hne].
  - right. split; [exact E | apply lookup_insert_eq].
  - left. now apply lookup_insert_ne.
Qed.

End Maps.

Lemma frame_refl (st : State) : frame st st.
Proof. repeat split; apply extends_with_refl. Qed.

Lemma frame_trans (st1 st2 st3 : State) : frame st1 st2 -> frame st2 st3 -> frame st1 st3.
Proof.
  intros (I1 & C1 & M1 & V1) (I2 & C2 & M2 & V2). repeat split; try congruence.
  - exact (extends_with_trans _ _ _ _ M1 M2).
  - exact (extends_with_trans _ _ _ _ V1 V2).
Qed.

Section Frame.

Variable T : Tables.t.
Variable ULONG_MAX : Z.

Lemma ensure_initialized_true (st : State) :
  initialized_ (ensure_initialized T st) = true.
Proof. unfold ensure_initialized. destruct (initialized_ st) eqn:E; [exact E | reflexivity]. Qed.

Lemma ensure_initialized_id (st : State) :
  initialized_ st = true -> ensure_initialized T st = st.
Proof. unfold ensure_initialized. now intros ->. Qed.

Lemma cv_state (prefix : string) (st : State) :
  let st0 := ensure_initialized T st in
  snd (cv T prefix st)
  = mkState (initialized_ st0) (infoMap_ st0)
      (match cvMap_ st0 !! prefix with
       | Some _ => cvMap_ st0
       | None => <[prefix := CV.default]> (cvMap_ st0)
       end) (cvids_ st0).
Proof.
  cbv zeta. unfold cv.
  rewrite <- (subscript_snd CV.default).
  destruct (subscript CV.default _ prefix); reflexivity.
Qed.

Lemma cvTermInfo_state (c : Z) (st : State) :
  let st0 := ensure_initialized T st in
  snd (cvTermInfo T c st)
  = mkState (initialized_ st0)
      (match infoMap_ st0 !! c with
       | Some _ => infoMap_ st0
       | None => <[c := CVTermInfo.default]> (infoMap_ st0)
       end) (cvMap_ st0) (cvids_ st0).
Proof.
  cbv zeta. unfold cvTermInfo.
  rewrite <- (subscript_snd CVTermInfo.default).
  destruct (subscript CVTermInfo.default _ c); reflexivity.
Qed.

Lemma cvTermInfo_result (c : Z) (st : State) :
  fst (cvTermInfo T c st)
  = match infoMap_ (ensure_initialized T st) !! c with
    | Some v => v
    | None => CVTermInfo.default
    end.
Proof.
  unfold cvTermInfo. rewrite <- (subscript_fst CVTermInfo.default).
  destruct (subscript CVTermInfo.default _ c); reflexivity.
Qed.

Lemma cv_frame (prefix : string) (st : State) :
  frame (ensure_initialized T st) (snd (cv T prefix st)).
Proof.
  rewrite cv_state. cbv zeta. repeat split; cbn; try apply extends_with_refl.
  rewrite <- subscript_snd. apply subscript_extends.
Qed.

Lemma cvTermInfo_frame (c : Z) (st : State) :
  frame (ensure_initialized T st) (snd (cvTermInfo T c st)).
Proof.
  rewrite cvTermInfo_state. cbv zeta. repeat split; cbn; try apply extends_with_refl.
  rewrite <- subscript_snd. apply subscript_extends.
Qed.

Lemma cvTermInfo_id_frame (id : string) (st : State) :
  frame (ensure_initialized T st) (snd (cvTermInfo_id T ULONG_MAX id st)).
Proof.
  unfold cvTermInfo_id.
  set (st0 := ensure_initialized T st).
  destruct (split id) as [|prefix [|cvidStr [|? ?]]]; try apply frame_refl.
  assert (Hsub : forall c,
    frame st0 (snd (let (r, infoMap) := subscript CVTermInfo.default (infoMap_ st0) c in
                 (Return r, mkState (initialized_ st0) infoMap (cvMap_ st0) (cvids_ st0))))).
  { intros c. pose proof (subscript_extends CVTermInfo.default (infoMap_ st0) c) as E.
    destruct (subscript CVTermInfo.default (infoMap_ st0) c).
    repeat split; cbn; try apply extends_with_refl. exact E. }
  destruct (find_prefix _ _ _).
  - destruct (stringToCVID _ _); [apply Hsub | apply frame_refl].
  - apply Hsub.
Qed.

Lemma cvids_state (st : State) : snd (cvids T st) = ensure_initialized T st.
Proof. reflexivity. Qed.

Lemma any_parent_frame (call : Z -> State -> option (bool * State)) :
  (forall it st b st', initialized_ st = true ->
     call it st = Some (b, st') -> frame st st') ->
  forall parents st b st', initialized_ st = true ->
    any_parent call parents st = Some (b, st') -> frame st st'.
Proof.
  intros Hcall parents. induction parents as [|it parents IH]; intros st b st' Hi;
    cbn [any_parent].
  - intros [= <- <-]. apply frame_refl.
  - destruct (call it st) as [[[] st1]|] eqn:E; [| |discriminate].
    + intros [= <- <-]. exact (Hcall _ _ _ _ Hi E).
    + intros Hrest. pose proof (Hcall _ _ _ _ Hi E) as F1.
      apply (frame_trans _ st1); [exact F1|].
      apply (IH _ _ _) in Hrest; [exact Hrest|].
      destruct F1 as (-> & _). exact Hi.
Qed.

Lemma cvIsA_frame (depth : nat) (child parent : Z) (st : State) (b : bool) (st' : State) :
  initialized_ st = true ->
  cvIsA T depth child parent st = Some (b, st') -> frame st st'.
Proof.
  revert child st b st'. induction depth as [|depth IH]; intros child st b st' Hi;
    cbn [cvIsA]; [discriminate|].
  destruct (child =? parent)%Z.
  - intros [= <- <-]. apply frame_refl.
  - pose proof (cvTermInfo_frame child st) as F. rewrite ensure_initialized_id in F by exact Hi.
    destruct (cvTermInfo T child st) as [info st1]. cbn [snd] in F.
    intros Hany. apply (frame_trans _ st1); [exact F|].
    apply any_parent_frame in Hany; [exact Hany| |].
    + intros it s b' s' Hs. apply IH. exact Hs.
    + destruct F as (-> & _). exact Hi.
Qed.

(** A call leaves the state alone or initializes it and then adds at most
    value-initialized elements. *)
Lemma cvIsA_ensure (depth : nat) (child parent : Z) (st : State) (b : bool) (st' : State) :
  cvIsA T depth child parent st = Some (b, st') ->
  st' = st \/ frame (ensure_initialized T st) st'.
Proof.
  destruct depth as [|depth]; cbn [cvIsA]; [discriminate|].
  destruct (child =? parent)%Z.
  - intros [= <- <-]. now left.
  - pose proof (cvTermInfo_frame child st) as F.
    destruct (cvTermInfo T child st) as [info st1]. cbn [snd] in F.
    intros Hany. right. apply (frame_trans _ st1); [exact F|].
    apply any_parent_frame in Hany; [exact Hany| |].
    + intros it s b' s' Hs. now apply cvIsA_frame.
    + destruct F as (-> & _). apply ensure_initialized_true.
Qed.

(** Every state of a process is the start state or the initialized state
    with value-initialized elements added. *)
Lemma reachable_frame (st : State) :
  reachable T ULONG_MAX st -> st = start \/ frame (initialize T start) st.
Proof.
  assert (Hens : forall s, s = start \/ frame (initialize T start) s ->
                   frame (initialize T start) (ensure_initialized T s)).
  { intros s [->|F]; [apply frame_refl|].
    rewrite ensure_initialized_id; [exact F|]. now destruct F as (-> & _). }
  induction 1 as [|prefix st _ IH|c st _ IH|id st _ IH|depth child parent st b st' _ IH E|st _ IH].
  - now left.
  - right. exact (frame_trans _ _ _ (Hens _ IH) (cv_frame _ _)).
  - right. exact (frame_trans _ _ _ (Hens _ IH) (cvTermInfo_frame _ _)).
  - right. exact (frame_trans _ _ _ (Hens _ IH) (cvTermInfo_id_frame _ _)).
  - apply cvIsA_ensure in E as [->|F]; [exact IH|].
    right. exact (frame_trans _ _ _ (Hens _ IH) F).
  - right. rewrite cvids_state. exact (Hens _ IH).
Qed.

Lemma reachable_ensure (st : State) :
  reachable T ULONG_MAX st -> frame (initialize T start) (ensure_initialized T st).
Proof.
  intros H. apply reachable_frame in H as [->|F]; [apply frame_refl|].
  rewrite ensure_initialized_id; [exact F|]. now destruct F as (-> & _).
Qed.

End Frame.

(** ** Initialization and what the accessors change *)

Lemma sample_tables_linked : link sample_obos = Some sample_tables.
Proof. vm_compute. reflexivity. Qed.

Lemma chain_tables_linked : link chain_obos = Some chain_tables.
Proof. vm_compute. reflexivity. Qed.





(** ** Lookups that do not resolve *)

Section Update.

Context {K V : Type} `{Countable K}.
Variable dflt : V.

Lemma update_lookup_ne (f : V -> V) (m : gmap K V) (k c : K) :
  k <> c -> update dflt f m k !! c = m !! c.
Proof.
  intros Hne. unfold update, subscript.
  destruct (m !! k); rewrite !lookup_insert_ne by exact Hne; reflexivity.
Qed.

Lemma update_lookup_eq (f : V -> V) (m : gmap K V) (k : K) :
  update dflt f m k !! k
  = Some (f (match m !! k with Some v => v | None => dflt end)).
Proof.
  unfold update, subscript. destruct (m !! k); apply lookup_insert_eq.
Qed.

Lemma fold_update_lookup_other {A} (key : A -> K) (f : A -> V -> V)
  (l : list A) (m : gmap K V) (c : K) :
  ~ In c (map key l) ->
  fold_left (fun m it => update dflt (f it) m (key it)) l m !! c = m !! c.
Proof.
  revert m. induction l as [|it l IH]; intros m Hc; cbn [fold_left]; [reflexivity|].
  cbn [map In] in Hc. rewrite IH by tauto. apply update_lookup_ne. tauto.
Qed.

End Update.

Section Unresolved.

Variable T : Tables.t.
Variable ULONG_MAX : Z.

Lemma load_termInfos_lookup_other (rows : list TermInfo.t) (st : State) (c : Z) :
  ~ In c (map TermInfo.cvid rows) ->
  infoMap_ (load_termInfos rows st) !! c = infoMap_ st !! c.
Proof.
  unfold load_termInfos. revert st.
  induction rows as [|it rows IH]; intros st Hc; cbn [fold_left]; [reflexivity|].
  cbn [map In] in Hc. rewrite IH by tauto. cbn [infoMap_ CVTermInfo.cvid].
  apply lookup_insert_ne. tauto.
Qed.

Lemma load_termInfos_cvids (rows : list TermInfo.t) (st : State) :
  cvids_ (load_termInfos rows st) = (cvids_ st ++ map TermInfo.cvid rows)%list.
Proof.
  unfold load_termInfos. revert st.
  induction rows as [|it rows IH]; intros st; cbn [fold_left map].
  - now rewrite app_nil_r.
  - rewrite IH. cbn [cvids_]. now rewrite <- app_assoc.
Qed.

Lemma initialize_cvids (st : State) :
  cvids_ (initialize T st) = (cvids_ st ++ map TermInfo.cvid (Tables.termInfos_ T))%list.
Proof. exact (load_termInfos_cvids (Tables.termInfos_ T) st). Qed.

(** A code that is no key of a static table is no key of [infoMap_]
    after initialization. *)
Lemma initialize_lookup_other (c : Z) :
  ~ in_tables T c -> infoMap_ (initialize T start) !! c = None.
Proof.
  intros Hc. unfold in_tables in Hc. unfold initialize. cbn [infoMap_].
  rewrite !(fold_update_lookup_other CVTermInfo.default fst) by tauto.
  rewrite load_termInfos_lookup_other by tauto. reflexivity.
Qed.

Lemma cvTermInfo_id_unknown_prefix (id prefix cvidStr : string) (st : State) :
  split id = [prefix; cvidStr] ->
  find_prefix (c_str prefix) (Tables.oboPrefixes_ T) 0 = None ->
  fst (cvTermInfo_id T ULONG_MAX id st) = Return (fst (cvTermInfo T CVID_Unknown st)).
Proof.
  intros Hs Hp. unfold cvTermInfo_id, cvTermInfo. rewrite Hs, Hp.
  destruct (subscript _ _ _); reflexivity.
Qed.

Lemma cvTermInfo_id_throws (id prefix cvidStr : string) (i : Z) (e : exception) (st : State) :
  split id = [prefix; cvidStr] ->
  find_prefix (c_str prefix) (Tables.oboPrefixes_ T) 0 = Some i ->
  stringToCVID ULONG_MAX cvidStr = Throw e ->
  fst (cvTermInfo_id T ULONG_MAX id st) = Throw e.
Proof.
  intros Hs Hp He. unfold cvTermInfo_id. now rewrite Hs, Hp, He.
Qed.

End Unresolved.

(** C3, as the claim states it, fails: for a code that is in no table,
    [cvTermInfo] returns a value-initialized record, whose strings are
    empty, not the record of [CVID_Unknown]. *)
Lemma unrecognized_code_is_not_sentinel :
  ~ in_tables sample_tables 5 /\
  fst (cvTermInfo sample_tables 5 start)
  = CVTermInfo.mk CVID_Unknown EmptyString EmptyString EmptyString [] [] [] /\
  fst (cvTermInfo sample_tables CVID_Unknown start)
  = CVTermInfo.mk CVID_Unknown "??:0000000" "CVID_Unknown" "CVID_Unknown" [] [] ["Unknown"] /\
  fst (cvTermInfo sample_tables 5 start) <> fst (cvTermInfo sample_tables CVID_Unknown start).
Proof.
  split.
  - unfold in_tables. cbn. intuition discriminate.
  - split; [vm_compute; reflexivity|]. split; [vm_compute; reflexivity|].
    vm_compute. discriminate.
Qed.

(** C3, amended. In every state of a process, [cvTermInfo(code)] with a
    code that is no key of the static tables returns a value-initialized
    record: its [cvid] is [CVID_Unknown] and its strings and lists are
    empty.  [cvTermInfo(idString)] with a string of two
    colon-separated tokens whose prefix matches no entry of [oboPrefixes_]
    returns the record [cvTermInfo(CVID_Unknown)] returns. *)
Theorem unresolved_lookups (T : Tables.t) (ULONG_MAX : Z) (st : State) :
  reachable T ULONG_MAX st ->
  (forall c, ~ in_tables T c -> fst (cvTermInfo T c st) = CVTermInfo.default) /\
  (forall id prefix cvidStr,
     split id = [prefix; cvidStr] ->
     find_prefix (c_str prefix) (Tables.oboPrefixes_ T) 0 = None ->
     fst (cvTermInfo_id T ULONG_MAX id st) = Return (fst (cvTermInfo T CVID_Unknown st))).
Proof.
  intros Hr. split.
  - intros c Hc. rewrite cvTermInfo_result.
    destruct (reachable_ensure T ULONG_MAX st Hr) as (_ & _ & M & _).
    destruct (M c) as [->|[_ ->]]; [|reflexivity].
    now rewrite (initialize_lookup_other T c Hc).
  - intros id prefix cvidStr. apply cvTermInfo_id_unknown_prefix.
Qed.

Lemma unresolved_lookups_witness :
  reachable sample_tables ULONG_MAX_64 start /\
  fst (cvTermInfo sample_tables 5 start) = CVTermInfo.default /\
  fst (cvTermInfo_id sample_tables ULONG_MAX_64 "BADPREFIX:0000001" start)
  = Return (fst (cvTermInfo sample_tables CVID_Unknown start)).
Proof.
  assert (Hr : reachable sample_tables ULONG_MAX_64 start) by constructor.
  destruct (unresolved_lookups sample_tables ULONG_MAX_64 start Hr) as [H1 H2].
  split; [exact Hr|]. split.
  - apply H1. unfold in_tables. cbn. intuition discriminate.
  - apply (H2 _ "BADPREFIX" "0000001"); reflexivity.
Defined.

(** ** Malformed accessions *)

(** C4, as the claim states it, fails: the digits in front are converted
    and the text behind them is ignored. *)
Lemma trailing_text_is_ignored :
  find_prefix (c_str "MS") (Tables.oboPrefixes_ sample_tables) 0 = Some 0 /\
  fst (cvTermInfo_id sample_tables ULONG_MAX_64 "MS:1abc" start)
  = Return (fst (cvTermInfo sample_tables 1 start)) /\
  CVTermInfo.id (fst (cvTermInfo sample_tables 1 start)) = "MS:0000001".
Proof. repeat split; vm_compute; reflexivity. Qed.

(** C4, amended. The string-accession lookup throws the splitting error
    for every string that does not split at its colons into exactly two
    tokens, and throws [bad_lexical_cast] for every string of two tokens
    whose prefix is in [oboPrefixes_] and whose second token has no digit
    where [strtoul] looks for the number (behind optional white space and
    sign), as in "MS:notanumber". *)
Theorem malformed_accessions (T : Tables.t) (ULONG_MAX : Z) (st : State) :
  (forall id, length (split id) <> 2%nat ->
     fst (cvTermInfo_id T ULONG_MAX id st) = Throw (splitting_error id)) /\
  (forall id prefix cvidStr i,
     split id = [prefix; cvidStr] ->
     find_prefix (c_str prefix) (Tables.oboPrefixes_ T) 0 = Some i ->
     snd (subject (c_str cvidStr)) = EmptyString ->
     fst (cvTermInfo_id T ULONG_MAX id st) = Throw bad_lexical_cast) /\
  (forall i,
     find_prefix "MS" (Tables.oboPrefixes_ T) 0 = Some i ->
     fst (cvTermInfo_id T ULONG_MAX "MS:notanumber" st) = Throw bad_lexical_cast).
Proof.
  assert (H2 : forall id prefix cvidStr i,
     split id = [prefix; cvidStr] ->
     find_prefix (c_str prefix) (Tables.oboPrefixes_ T) 0 = Some i ->
     snd (subject (c_str cvidStr)) = EmptyString ->
     fst (cvTermInfo_id T ULONG_MAX id st) = Throw bad_lexical_cast).
  { intros id prefix cvidStr i Hs Hp Hd.
    apply (cvTermInfo_id_throws T ULONG_MAX id prefix cvidStr i _ st Hs Hp).
    unfold stringToCVID, strtoul. destruct (subject (c_str cvidStr)) as [negative digits].
    cbn [snd] in Hd. subst digits. reflexivity. }
  split; [|split; [exact H2|]].
  - intros id Hlen. unfold cvTermInfo_id.
    destruct (split id) as [|prefix [|cvidStr [|? ?]]]; try reflexivity.
    now contradiction Hlen.
  - intros i Hi. apply (H2 _ "MS" "notanumber" i); [reflexivity | exact Hi | reflexivity].
Qed.

Lemma malformed_accessions_witness :
  length (split "MS") <> 2%nat /\
  fst (cvTermInfo_id sample_tables ULONG_MAX_64 "MS" start) = Throw (splitting_error "MS") /\
  fst (cvTermInfo_id sample_tables ULONG_MAX_64 "MS:notanumber" start) = Throw bad_lexical_cast.
Proof.
  destruct (malformed_accessions sample_tables ULONG_MAX_64 start) as (H1 & _ & H3).
  assert (Hlen : length (split "MS") <> 2%nat) by (cbn; lia).
  split; [exact Hlen|]. split; [exact (H1 "MS" Hlen)|].
  apply (H3 0). reflexivity.
Defined.

(** C5, as the claim states it, fails: a number beyond the range of
    [unsigned long], behind a loaded prefix, makes the lookup throw. *)
Lemma overflow_throws :
  find_prefix (c_str "MS") (Tables.oboPrefixes_ sample_tables) 0 = Some 0 /\
  fst (cvTermInfo_id sample_tables ULONG_MAX_64 "MS:99999999999999999999999" start)
  = Throw bad_lexical_cast /\
  fst (cvTermInfo_id sample_tables (2 ^ 32 - 1) "MS:99999999999999999999999" start)
  = Throw bad_lexical_cast.
Proof. repeat split; vm_compute; reflexivity. Qed.

(** C5, amended. For a string accession whose prefix is in
    [oboPrefixes_] and whose number exceeds the range of [unsigned long],
    the string-accession lookup throws [bad_lexical_cast]; it does not
    return a record. *)
Theorem overflow_is_a_conversion_error (T : Tables.t) (ULONG_MAX : Z) (st : State)
  (id prefix cvidStr : string) (i : Z) :
  split id = [prefix; cvidStr] ->
  find_prefix (c_str prefix) (Tables.oboPrefixes_ T) 0 = Some i ->
  snd (subject (c_str cvidStr)) <> EmptyString ->
  ULONG_MAX < digits_value 0 (snd (subject (c_str cvidStr))) ->
  fst (cvTermInfo_id T ULONG_MAX id st) = Throw bad_lexical_cast.
Proof.
  intros Hs Hp Hd Hov.
  apply (cvTermInfo_id_throws T ULONG_MAX id prefix cvidStr i _ st Hs Hp).
  unfold stringToCVID, strtoul. destruct (subject (c_str cvidStr)) as [negative digits].
  cbn [snd] in Hd, Hov. destruct digits as [|d digits]; [contradiction|].
  cbn [string_empty]. apply Z.ltb_lt in Hov. rewrite Hov.
  cbn [result converted range_error negb]. rewrite andb_false_r. reflexivity.
Qed.

Lemma overflow_is_a_conversion_error_witness :
  fst (cvTermInfo_id sample_tables ULONG_MAX_64 "UO:18446744073709551616" start)
  = Throw bad_lexical_cast.
Proof.
  apply (overflow_is_a_conversion_error sample_tables ULONG_MAX_64 start
           "UO:18446744073709551616" "UO" "18446744073709551616" 1).
  - reflexivity.
  - reflexivity.
  - vm_compute. discriminate.
  - vm_compute. reflexivity.
Defined.

(** ** From the artifacts to the tables *)

Lemma with_index_flat_map {B C} (F : Term.t -> B) (G : Z * OBO.t * Term.t -> C)
  (obos : list OBO.t) (k : Z) :
  (forall i obo term, G (i, obo, term) = G (0, obo, term)) ->
  flat_map (fun obo => map (fun term => G (0, obo, term)) (OBO.terms obo)) obos
  = map G (flat_map (fun io => map (fun term => (fst io, snd io, term)) (OBO.terms (snd io)))
                    (with_index k obos)).
Proof.
  intros HG. revert k. induction obos as [|obo obos IH]; intros k;
    cbn [with_index flat_map]; [reflexivity|].
  rewrite map_app, map_map, <- (IH (k + 1)). f_equal.
  apply map_ext. intros term. cbn [fst snd]. symmetry. apply HG.
Qed.

(** The rows of [termInfos_] behind the sentinel: one per term. *)
Lemma termInfos_rows_all_terms (obos : list OBO.t) :
  termInfos_rows obos = unknown_row :: map (fun x => term_row (term_of x)) (all_terms obos).
Proof.
  unfold termInfos_rows, all_terms. f_equal.
  exact (with_index_flat_map (fun t => t) (fun x => term_row (term_of x)) obos 0
           (fun _ _ _ => eq_refl)).
Qed.

(** The rows of [relationsExactSynonym_] behind the sentinel: one per
    synonym of each term, whatever the ontology. *)
Lemma relationsExactSynonym_rows_all_terms (obos : list OBO.t) :
  relationsExactSynonym_rows obos
  = ("CVID_Unknown", "Unknown")
    :: flat_map (fun x => map (fun jt => (enumName (term_of x), jt))
                              (Term.exactSynonyms (term_of x)))
                (all_terms obos).
Proof.
  unfold relationsExactSynonym_rows, all_terms. f_equal.
  generalize 0. induction obos as [|obo obos IH]; intros k;
    cbn [with_index flat_map]; [reflexivity|].
  rewrite flat_map_app, <- (IH (k + 1)). f_equal.
  cbn [fst snd]. generalize (OBO.terms obo). intros ts.
  induction ts as [|t ts IHt]; cbn [map flat_map]; [reflexivity|].
  now rewrite IHt.
Qed.

Lemma all_terms_enum_entry (obos : list OBO.t) (x : Z * OBO.t * Term.t) :
  In x (all_terms obos) ->
  In (enumName (term_of x), Num (global_code x)) (enum_entries obos).
Proof.
  unfold all_terms, enum_entries. intros Hx. right.
  apply in_flat_map in Hx as (io & Hio & Hx).
  apply in_map_iff in Hx as (term & <- & Ht).
  apply in_flat_map. exists io. split; [exact Hio|].
  apply in_flat_map. exists term. split; [exact Ht|]. now left.
Qed.

(** The enumerators that alias another one: the exact synonyms of the
    terms of an ontology whose prefix is "MS", and no others. *)
Lemma enum_entries_aliases (obos : list OBO.t) (enumerator aliased : string) :
  In (enumerator, Ref aliased) (enum_entries obos) <->
  exists x syn,
    In x (all_terms obos) /\ OBO.prefix (term_obo x) = "MS" /\
    In syn (Term.exactSynonyms (term_of x)) /\
    enumerator = enumName2 (Term.prefix (term_of x)) syn /\
    aliased = enumName (term_of x).
Proof.
  unfold enum_entries, all_terms. split.
  - intros [H|H]; [discriminate|].
    apply in_flat_map in H as (io & Hio & H).
    apply in_flat_map in H as (term & Ht & H).
    destruct H as [H|H]; [discriminate|].
    destruct (String.eqb_spec (OBO.prefix (snd io)) "MS") as [E|]; [|destruct H].
    apply in_map_iff in H as (syn & [= <- <-] & Hs).
    exists (fst io, snd io, term), syn. repeat split; try assumption.
    apply in_flat_map. exists io. split; [exact Hio|].
    apply in_map_iff. now exists term.
  - intros (x & syn & Hx & Hp & Hs & -> & ->).
    apply in_flat_map in Hx as (io & Hio & Hx).
    apply in_map_iff in Hx as (term & <- & Ht).
    cbn [term_obo term_of fst snd] in *.
    right. apply in_flat_map. exists io. split; [exact Hio|].
    apply in_flat_map. exists term. split; [exact Ht|].
    right. rewrite Hp. cbn [String.eqb]. apply in_map_iff. now exists syn.
Qed.

(** What a declarations artifact that compiles binds its names to. *)
Lemma compile_enum_spec (entries : list (string * initializer)) (env0 env : gmap string Z) :
  compile_enum entries env0 = Some env ->
  (forall n z, env0 !! n = Some z -> env !! n = Some z) /\
  (forall n z, In (n, Num z) entries -> env !! n = Some z) /\
  (forall n m, In (n, Ref m) entries ->
     exists z, env !! n = Some z /\ env !! m = Some z).
Proof.
  revert env0. induction entries as [|[n0 init] entries IH]; intros env0;
    cbn [compile_enum].
  - intros [= <-]. split; [auto|]. split; intros ? ? [].
  - destruct (env0 !! n0) eqn:Hn0; [discriminate|].
    assert (Hext : forall z0 n z, env0 !! n = Some z -> <[n0 := z0]> env0 !! n = Some z).
    { intros z0 n z Hn. rewrite lookup_insert_ne; [exact Hn|]. intros <-. congruence. }
    destruct init as [z0|m0].
    + intros Hc. destruct (IH _ Hc) as (Ha & Hb & Hr). split; [|split].
      * intros n z Hn. apply Ha. now apply Hext.
      * intros n z [[= <- <-]|Hin]; [|now apply Hb].
        apply Ha. apply lookup_insert_eq.
      * intros n m [Hin|Hin]; [discriminate | now apply Hr].
    + destruct (env0 !! m0) as [z0|] eqn:Hm0; [|discriminate].
      intros Hc. destruct (IH _ Hc) as (Ha & Hb & Hr). split; [|split].
      * intros n z Hn. apply Ha. now apply Hext.
      * intros n z [Hin|Hin]; [discriminate | now apply Hb].
      * intros n m [[= <- <-]|Hin]; [|now apply Hr].
        exists z0. split; apply Ha; [apply lookup_insert_eq | now apply Hext].
Qed.

Lemma all_some_map {A B C} (f : A -> option B) (g : B -> C) (h : A -> C)
  (l : list A) (l' : list B) :
  all_some (map f l) = Some l' ->
  (forall x y, In x l -> f x = Some y -> g y = h x) ->
  map g l' = map h l.
Proof.
  revert l'. induction l as [|x l IH]; intros l'; cbn [map all_some].
  - now intros [= <-].
  - destruct (f x) as [y|] eqn:Hy; [|discriminate].
    destruct (all_some (map f l)) as [ys|]; [|discriminate].
    intros [= <-] Hgh. cbn [map]. f_equal.
    + apply Hgh; [now left | exact Hy].
    + apply IH; [reflexivity|]. intros x' y' Hx'. apply Hgh. now right.
Qed.

Lemma all_some_In {A} (l : list (option A)) (l' : list A) (x : A) :
  all_some l = Some l' -> In (Some x) l -> In x l'.
Proof.
  revert l'. induction l as [|[y|] l IH]; intros l'; cbn [all_some]; [intros _ []| |discriminate].
  destruct (all_some l) as [ys|]; [|discriminate].
  intros [= <-] [[= ->]|Hin]; [now left|]. right. now apply IH.
Qed.

Section Linked.

Variable obos : list OBO.t.
Variable T : Tables.t.
Hypothesis linked : link obos = Some T.

Lemma linked_env :
  exists env,
    compile_enum (enum_entries obos) ∅ = Some env /\
    all_some (map (link_termInfo env) (termInfos_rows obos)) = Some (Tables.termInfos_ T) /\
    all_some (map (link_synonym env) (relationsExactSynonym_rows obos))
    = Some (Tables.relationsExactSynonym_ T).
Proof.
  unfold link in linked.
  destruct (compile_enum _ _) as [env|]; [|discriminate]. exists env.
  destruct (relationsIsA_rows obos); [|discriminate].
  destruct (relationsPartOf_rows obos); [|discriminate].
  destruct (all_some (map (link_termInfo env) _)); [|discriminate].
  destruct (all_some (map (link_pair env) _)); [|discriminate].
  destruct (all_some (map (link_pair env) _)); [|discriminate].
  destruct (all_some (map (link_synonym env) _)); [|discriminate].
  injection linked as <-. auto.
Qed.

(** The codes in [termInfos_]: the sentinel, then every term's global
    code in the order of generation. *)
Lemma linked_termInfos_codes :
  map TermInfo.cvid (Tables.termInfos_ T) = CVID_Unknown :: term_codes obos.
Proof.
  destruct linked_env as (env & Henv & Hinfos & _).
  destruct (compile_enum_spec _ _ _ Henv) as (_ & Hnum & _).
  rewrite termInfos_rows_all_terms in Hinfos. cbn [map all_some] in Hinfos.
  unfold link_termInfo at 1 in Hinfos. cbn [unknown_row row_cvid] in Hinfos.
  rewrite (Hnum "CVID_Unknown" (-1)) in Hinfos by now left.
  rewrite map_map in Hinfos.
  destruct (all_some _) as [infos|] eqn:Hrest; [|discriminate].
  injection Hinfos as <-. cbn [map TermInfo.cvid]. f_equal.
  apply (all_some_map _ _ _ _ _ Hrest).
  intros x y Hx. unfold link_termInfo. cbn [term_row row_cvid].
  rewrite (Hnum _ _ (all_terms_enum_entry obos x Hx)). now intros [= <-].
Qed.

(** Every exact synonym of every term is a row of
    [relationsExactSynonym_] under the term's global code. *)
Lemma linked_synonym_rows (x : Z * OBO.t * Term.t) (syn : string) :
  In x (all_terms obos) -> In syn (Term.exactSynonyms (term_of x)) ->
  In (global_code x, c_literal syn) (Tables.relationsExactSynonym_ T).
Proof.
  intros Hx Hs. destruct linked_env as (env & Henv & _ & Hsyn).
  destruct (compile_enum_spec _ _ _ Henv) as (_ & Hnum & _).
  apply (all_some_In _ _ _ Hsyn). apply in_map_iff.
  exists (enumName (term_of x), syn). split.
  - unfold link_synonym. cbn [fst snd].
    now rewrite (Hnum _ _ (all_terms_enum_entry obos x Hx)).
  - rewrite relationsExactSynonym_rows_all_terms. right.
    apply in_flat_map. exists x. split; [exact Hx|]. apply in_map_iff. now exists syn.
Qed.

End Linked.
(** ** The code list *)

(** C6, as the claim states it, fails: the list starts with the sentinel
    [CVID_Unknown], which is no term's code. *)
Lemma cvids_starts_with_sentinel :
  fst (cvids sample_tables start) = [-1; 1; 2; 3; 4; 100000001] /\
  term_codes sample_obos = [1; 2; 3; 4; 100000001] /\
  fst (cvids sample_tables start) <> term_codes sample_obos.
Proof.
  split; [vm_compute; reflexivity|]. split; [vm_compute; reflexivity|].
  vm_compute. discriminate.
Qed.

(** C6, amended. In every state of a process, the sequence [cvids]
    returns is the sentinel [CVID_Unknown] followed by the global code of
    every term, one entry per term, in the order of generation; synonym
    aliases have no entry. *)
Theorem cvids_sentinel_then_terms (obos : list OBO.t) (T : Tables.t)
  (ULONG_MAX : Z) (st : State) :
  link obos = Some T ->
  reachable T ULONG_MAX st ->
  fst (cvids T st) = CVID_Unknown :: term_codes obos /\
  length (fst (cvids T st)) = S (length (all_terms obos)).
Proof.
  intros Hl Hr.
  assert (E : fst (cvids T st) = CVID_Unknown :: term_codes obos).
  { cbn [cvids fst].
    destruct (reachable_ensure T ULONG_MAX st Hr) as (_ & -> & _).
    rewrite initialize_cvids. cbn [start cvids_ app].
    exact (linked_termInfos_codes obos T Hl). }
  split; [exact E|]. rewrite E. unfold term_codes. cbn [length].
  now rewrite length_map.
Qed.

Lemma cvids_sentinel_then_terms_witness :
  fst (cvids sample_tables start) = CVID_Unknown :: term_codes sample_obos /\
  length (fst (cvids sample_tables start)) = S (length (all_terms sample_obos)).
Proof.
  apply (cvids_sentinel_then_terms sample_obos sample_tables ULONG_MAX_64 start).
  - exact sample_tables_linked.
  - constructor.
Defined.

(** ** Synonyms *)

(** C7, as the claim states it, fails: the synonym table has a row for
    the synonym of a term of the UO ontology. *)
Lemma synonym_table_covers_all_vocabularies :
  In (1, OBO.mk "unit.obo" [] "UO" [Term.mk "UO" 1 "second" "A time unit." [] [] ["s"]],
      Term.mk "UO" 1 "second" "A time unit." [] [] ["s"]) (all_terms sample_obos) /\
  In ("UO_second", "s") (relationsExactSynonym_rows sample_obos) /\
  In (100000001, "s") (Tables.relationsExactSynonym_ sample_tables).
Proof. repeat split; vm_compute; tauto. Qed.

(** C7, amended. The extra enumerators, one per exact synonym and each
    bound to the code of its term, are written for the terms of an
    ontology whose prefix is "MS" and for no others.  The synonym table is
    written for every vocabulary: behind its sentinel row it has a row for
    each exact synonym of each term of each loaded ontology. *)
Theorem synonyms_by_artifact (obos : list OBO.t) :
  (forall enumerator aliased,
     In (enumerator, Ref aliased) (enum_entries obos) <->
     exists x syn,
       In x (all_terms obos) /\ OBO.prefix (term_obo x) = "MS" /\
       In syn (Term.exactSynonyms (term_of x)) /\
       enumerator = enumName2 (Term.prefix (term_of x)) syn /\
       aliased = enumName (term_of x)) /\
  (forall env x syn,
     compile_enum (enum_entries obos) ∅ = Some env ->
     In x (all_terms obos) -> OBO.prefix (term_obo x) = "MS" ->
     In syn (Term.exactSynonyms (term_of x)) ->
     env !! enumName2 (Term.prefix (term_of x)) syn = Some (global_code x)) /\
  relationsExactSynonym_rows obos
  = ("CVID_Unknown", "Unknown")
    :: flat_map (fun x => map (fun jt => (enumName (term_of x), jt))
                              (Term.exactSynonyms (term_of x)))
                (all_terms obos) /\
  (forall T x syn,
     link obos = Some T ->
     In x (all_terms obos) -> In syn (Term.exactSynonyms (term_of x)) ->
     In (global_code x, c_literal syn) (Tables.relationsExactSynonym_ T)).
Proof.
  split; [exact (enum_entries_aliases obos)|].
  split; [|split; [exact (relationsExactSynonym_rows_all_terms obos)|]].
  - intros env x syn Henv Hx Hp Hs.
    destruct (compile_enum_spec _ _ _ Henv) as (_ & Hnum & Href).
    destruct (Href (enumName2 (Term.prefix (term_of x)) syn) (enumName (term_of x)))
      as (z & Hn & Hm).
    { apply enum_entries_aliases. now exists x, syn. }
    rewrite Hn, <- Hm. exact (Hnum _ _ (all_terms_enum_entry obos x Hx)).
  - intros T x syn Hl. exact (linked_synonym_rows obos T Hl x syn).
Qed.

Lemma synonyms_by_artifact_witness :
  In (1, OBO.mk "unit.obo" [] "UO" [Term.mk "UO" 1 "second" "A time unit." [] [] ["s"]],
      Term.mk "UO" 1 "second" "A time unit." [] [] ["s"]) (all_terms sample_obos) /\
  In (100000001, "s") (Tables.relationsExactSynonym_ sample_tables).
Proof.
  assert (Hx : In (1, OBO.mk "unit.obo" [] "UO"
                        [Term.mk "UO" 1 "second" "A time unit." [] [] ["s"]],
                   Term.mk "UO" 1 "second" "A time unit." [] [] ["s"])
                  (all_terms sample_obos)) by (vm_compute; tauto).
  split; [exact Hx|].
  destruct (synonyms_by_artifact sample_obos) as (_ & _ & _ & H).
  apply (H sample_tables _ "s" sample_tables_linked Hx). now left.
Defined.

(** ** The is-a test *)

Section Recursion.

Variable parents : Z -> list Z.

Lemma any_parent_result_true (call : Z -> option bool) (ps : list Z) :
  any_parent_result call ps = Some true ->
  exists p, In p ps /\ call p = Some true.
Proof.
  induction ps as [|it ps IH]; cbn [any_parent_result]; [discriminate|].
  destruct (call it) as [[]|] eqn:E; [| |discriminate].
  - intros _. exists it. split; [now left | exact E].
  - intros H. destruct (IH H) as (p & Hp & Hc). exists p. split; [now right | exact Hc].
Qed.

Lemma any_parent_result_false (call : Z -> option bool) (ps : list Z) :
  any_parent_result call ps = Some false ->
  forall p, In p ps -> call p = Some false.
Proof.
  induction ps as [|it ps IH]; cbn [any_parent_result]; [intros _ ? []|].
  destruct (call it) as [[]|] eqn:E; [discriminate| |discriminate].
  intros H p [<-|Hp]; [exact E | now apply IH].
Qed.

Lemma any_parent_result_some (call : Z -> option bool) (ps : list Z) :
  (forall p, In p ps -> exists b, call p = Some b) ->
  exists b, any_parent_result call ps = Some b.
Proof.
  induction ps as [|it ps IH]; intros H; cbn [any_parent_result]; [eauto|].
  destruct (H it) as [[] ->]; [now left | eauto |].
  apply IH. intros p Hp. apply H. now right.
Qed.

(** A call that returns [true] has found a path. *)
Lemma cvIsA_result_true (depth : nat) (child parent : Z) :
  cvIsA_result parents depth child parent = Some true -> IsA parents child parent.
Proof.
  revert child. induction depth as [|depth IH]; intros child;
    cbn [cvIsA_result]; [discriminate|].
  destruct (Z.eqb_spec child parent) as [->|Hne]; [intros _; apply IsA_refl|].
  intros H. apply any_parent_result_true in H as (p & Hp & Hc).
  exact (IsA_step _ _ p _ Hp (IH _ Hc)).
Qed.

(** A call that returns [false] has exhausted the paths. *)
Lemma cvIsA_result_false (depth : nat) (child parent : Z) :
  cvIsA_result parents depth child parent = Some false -> ~ IsA parents child parent.
Proof.
  revert child. induction depth as [|depth IH]; intros child;
    cbn [cvIsA_result]; [discriminate|].
  destruct (Z.eqb_spec child parent) as [->|Hne]; [discriminate|].
  intros H HA. inversion HA as [x|c p a Hp Hpa]; subst; [now apply Hne|].
  exact (IH p (any_parent_result_false _ _ H p Hp) Hpa).
Qed.

(** On parents that descend in a rank the recursion returns. *)
Lemma cvIsA_result_returns (rank : Z -> nat) (depth : nat) (child parent : Z) :
  (forall c p, In p (parents c) -> (rank p < rank c)%nat) ->
  (rank child < depth)%nat ->
  exists b, cvIsA_result parents depth child parent = Some b.
Proof.
  intros Hrank. revert child. induction depth as [|depth IH]; intros child Hd; [lia|].
  cbn [cvIsA_result]. destruct (child =? parent)%Z; [eauto|].
  apply any_parent_result_some. intros p Hp. apply IH.
  specialize (Hrank child p Hp). lia.
Qed.

(** A loop over the parents does not return when the call on one of them
    does not return and no call in front of it returns [true]. *)
Lemma any_parent_result_lost (call : Z -> option bool) (before : list Z) (p : Z)
  (after : list Z) :
  (forall q, In q before -> call q <> Some true) -> call p = None ->
  any_parent_result call (before ++ p :: after)%list = None.
Proof.
  intros Hq Hp. induction before as [|q before IH]; cbn [app any_parent_result].
  - now rewrite Hp.
  - destruct (call q) as [[]|] eqn:E; [|apply IH|reflexivity].
    + now destruct (Hq q (or_introl eq_refl)).
    + intros q' Hq'. apply Hq. now right.
Qed.

(** Codes among which the search stays: each of them has, in front of
    every direct parent that leads to [parent], a direct parent that is one
    of them again.  No call on such a code returns, whatever the depth. *)
Lemma cvIsA_result_lost (lost : Z -> Prop) (parent : Z) :
  (forall c, lost c ->
     c <> parent /\
     exists before p after,
       parents c = (before ++ p :: after)%list /\ lost p /\
       forall q, In q before -> ~ IsA parents q parent) ->
  forall depth c, lost c -> cvIsA_result parents depth c parent = None.
Proof.
  intros Hlost. induction depth as [|depth IH]; intros c Hc; [reflexivity|].
  destruct (Hlost c Hc) as (Hne & before & p & after & Hps & Hp & Hq).
  cbn [cvIsA_result]. destruct (Z.eqb_spec c parent); [contradiction|].
  rewrite Hps. apply any_parent_result_lost; [|exact (IH p Hp)].
  intros q Hin E. exact (Hq q Hin (cvIsA_result_true _ _ _ E)).
Qed.

End Recursion.

Lemma any_parent_result_ext (f g : Z -> option bool) (ps : list Z) :
  (forall p, f p = g p) -> any_parent_result f ps = any_parent_result g ps.
Proof.
  intros H. induction ps as [|it ps IH]; cbn [any_parent_result]; [reflexivity|].
  rewrite H, IH. reflexivity.
Qed.

Lemma cvIsA_result_ext (P Q : Z -> list Z) (depth : nat) (child parent : Z) :
  (forall c, P c = Q c) -> cvIsA_result P depth child parent = cvIsA_result Q depth child parent.
Proof.
  intros H. revert child. induction depth as [|depth IH]; intros child;
    cbn [cvIsA_result]; [reflexivity|].
  rewrite H. destruct (child =? parent)%Z; [reflexivity|].
  apply any_parent_result_ext. intros p. apply IH.
Qed.

Section IsATest.

Variable T : Tables.t.
Variable ULONG_MAX : Z.

(** The parents [cvIsA] iterates over in a state. *)
Lemma cvTermInfo_parents (c : Z) (st : State) :
  CVTermInfo.parentsIsA (fst (cvTermInfo T c st))
  = CVTermInfo.parentsIsA (info_at (infoMap_ (ensure_initialized T st)) c).
Proof. now rewrite cvTermInfo_result. Qed.

Lemma info_at_parents_frame (st st' : State) (c : Z) :
  frame st st' ->
  CVTermInfo.parentsIsA (info_at (infoMap_ st') c)
  = CVTermInfo.parentsIsA (info_at (infoMap_ st) c).
Proof.
  intros (_ & _ & M & _). unfold info_at.
  destruct (M c) as [->|[-> ->]]; reflexivity.
Qed.

(** With the state left out, [cvIsA] is its recursion over the parents
    the maps hold. *)
Lemma cvIsA_result_of_state (depth : nat) (child parent : Z) (st : State) :
  initialized_ st = true ->
  fst <$> cvIsA T depth child parent st
  = cvIsA_result (fun c => CVTermInfo.parentsIsA (info_at (infoMap_ st) c))
                 depth child parent.
Proof.
  revert child st. induction depth as [|depth IH]; intros child st Hi;
    cbn [cvIsA cvIsA_result]; [reflexivity|].
  destruct (child =? parent)%Z; [reflexivity|].
  pose proof (cvTermInfo_frame T child st) as F.
  pose proof (cvTermInfo_parents child st) as P.
  rewrite (ensure_initialized_id T st Hi) in F, P.
  destruct (cvTermInfo T child st) as [info st1]. cbn [fst snd] in F, P.
  rewrite <- P. clear P.
  assert (Hi1 : initialized_ st1 = true) by now destruct F as (-> & _).
  revert st1 F Hi1.
  induction (CVTermInfo.parentsIsA info) as [|it ps IHp]; intros st1 F Hi1;
    cbn [any_parent any_parent_result]; [reflexivity|].
  pose proof (IH it st1 Hi1) as E.
  rewrite (cvIsA_result_ext _ (fun c => CVTermInfo.parentsIsA (info_at (infoMap_ st) c)))
    in E by (intros c; now apply info_at_parents_frame).
  rewrite <- E.
  destruct (cvIsA T depth it parent st1) as [[[] st2]|] eqn:E2; cbn; try reflexivity.
  pose proof (cvIsA_frame T _ _ _ _ _ _ Hi1 E2) as F2.
  apply IHp; [exact (frame_trans _ _ _ F F2)|].
  now destruct F2 as (-> & _).
Qed.

(** The first call of a process initializes on the way. *)
Lemma cvIsA_ensure_initialized (depth : nat) (child parent : Z) (st : State) :
  fst <$> cvIsA T depth child parent st
  = fst <$> cvIsA T depth child parent (ensure_initialized T st).
Proof.
  destruct depth as [|depth]; cbn [cvIsA]; [reflexivity|].
  destruct (child =? parent)%Z; [reflexivity|].
  unfold cvTermInfo.
  now rewrite (ensure_initialized_id T (ensure_initialized T st))
    by apply ensure_initialized_true.
Qed.

Lemma push_lookup {A} (f : A -> CVTermInfo.t -> CVTermInfo.t) (g : A -> list Z)
  (l : list (Z * A)) (m : gmap Z CVTermInfo.t) (c : Z) :
  (forall a v, CVTermInfo.parentsIsA (f a v) = (CVTermInfo.parentsIsA v ++ g a)%list) ->
  CVTermInfo.parentsIsA
    (info_at (fold_left (fun m it => update CVTermInfo.default (f (snd it)) m (fst it)) l m) c)
  = (CVTermInfo.parentsIsA (info_at m c)
     ++ flat_map (fun r => g (snd r)) (List.filter (fun r => (fst r =? c)%Z) l))%list.
Proof.
  intros Hf. revert m. induction l as [|[k a] l IH]; intros m; cbn [fold_left List.filter].
  - cbn [flat_map]. now rewrite app_nil_r.
  - rewrite IH. cbn [fst snd]. unfold info_at.
    destruct (Z.eqb_spec k c) as [->|Hne].
    + rewrite update_lookup_eq, Hf. cbn [flat_map snd].
      now rewrite <- app_assoc.
    + rewrite update_lookup_ne by exact Hne. reflexivity.
Qed.

Lemma load_termInfos_parents (rows : list TermInfo.t) (st : State) :
  (forall c, CVTermInfo.parentsIsA (info_at (infoMap_ st) c) = []) ->
  forall c, CVTermInfo.parentsIsA (info_at (infoMap_ (load_termInfos rows st)) c) = [].
Proof.
  unfold load_termInfos. revert st.
  induction rows as [|it rows IH]; intros st Hst; cbn [fold_left]; [exact Hst|].
  apply IH. intros c. cbn [infoMap_ CVTermInfo.cvid]. unfold info_at.
  destruct (decide (TermInfo.cvid it = c)) as [->|Hne].
  - now rewrite lookup_insert_eq.
  - rewrite lookup_insert_ne by exact Hne. apply Hst.
Qed.

(** After initialization a code's [parentsIsA] are its direct parents. *)
Lemma initialize_parents (c : Z) :
  CVTermInfo.parentsIsA (info_at (infoMap_ (initialize T start)) c) = direct_parents T c.
Proof.
  unfold initialize. cbn [infoMap_].
  rewrite (push_lookup push_exactSynonyms (fun _ => [])) by (intros; cbn; now rewrite app_nil_r).
  rewrite (push_lookup push_parentsPartOf (fun _ => [])) by (intros; cbn; now rewrite app_nil_r).
  rewrite (push_lookup push_parentsIsA (fun second => [second])) by reflexivity.
  rewrite load_termInfos_parents by reflexivity.
  unfold direct_parents. cbn [app].
  assert (Hnil : forall (A : Type) (l : list (Z * A)),
            flat_map (fun _ : Z * A => @nil Z) l = []).
  { intros A l. induction l as [|x l IHl]; [reflexivity | exact IHl]. }
  rewrite !Hnil, !app_nil_r.
  induction (List.filter _ _) as [|r l IHl]; cbn [flat_map map app]; [reflexivity | now rewrite IHl].
Qed.

(** In every state of a process, [cvIsA] is its recursion over the
    direct parents. *)
Lemma cvIsA_result_reachable (depth : nat) (child parent : Z) (st : State) :
  reachable T ULONG_MAX st ->
  fst <$> cvIsA T depth child parent st
  = cvIsA_result (direct_parents T) depth child parent.
Proof.
  intros Hr. rewrite cvIsA_ensure_initialized.
  rewrite cvIsA_result_of_state by apply ensure_initialized_true.
  apply cvIsA_result_ext. intros c.
  rewrite (info_at_parents_frame _ _ c (reachable_ensure T ULONG_MAX st Hr)).
  apply initialize_parents.
Qed.

Lemma cvIsA_returns_iff (depth : nat) (child parent : Z) (st : State) (b : bool) :
  reachable T ULONG_MAX st ->
  (exists st', cvIsA T depth child parent st = Some (b, st')) <->
  cvIsA_result (direct_parents T) depth child parent = Some b.
Proof.
  intros Hr. rewrite <- (cvIsA_result_reachable depth child parent st Hr).
  destruct (cvIsA T depth child parent st) as [[b' st']|]; cbn; split.
  - now intros (st'' & [= -> _]).
  - intros [= ->]. eauto.
  - now intros (st'' & [=]).
  - discriminate.
Qed.

End IsATest.
Lemma sample_loop_never_returns (depth : nat) :
  cvIsA_result (direct_parents sample_tables) depth 2 3 = None.
Proof.
  induction depth as [|depth IH]; [reflexivity|].
  cbn [cvIsA_result]. change (direct_parents sample_tables 2) with [2].
  cbn [Z.eqb Pos.eqb any_parent_result]. now rewrite IH.
Qed.

(** C2, as the claim states it, fails: 3 is a direct is-a parent of 4, yet
    [cvIsA(4, 3)] does not return [true] however deep the recursion may
    go.  The parent examined first, 2, is its own parent, and the call on
    it never returns. *)
Lemma cvIsA_is_lost_in_a_cycle :
  In (4, 3) (Tables.relationsIsA_ sample_tables) /\
  direct_parents sample_tables 4 = [2; 3] /\
  direct_parents sample_tables 2 = [2] /\
  forall depth, cvIsA sample_tables depth 4 3 start = None.
Proof.
  split; [vm_compute; tauto|]. split; [reflexivity|]. split; [reflexivity|].
  intros depth.
  assert (E : fst <$> cvIsA sample_tables depth 4 3 start = None).
  { rewrite (cvIsA_result_reachable sample_tables ULONG_MAX_64) by constructor.
    destruct depth as [|depth]; [reflexivity|].
    cbn [cvIsA_result]. change (direct_parents sample_tables 4) with [2; 3].
    cbn [Z.eqb Pos.eqb any_parent_result]. now rewrite sample_loop_never_returns. }
  destruct (cvIsA sample_tables depth 4 3 start); [discriminate | reflexivity].
Qed.

(** C2, amended. In every state of a process: [cvIsA(x, x)] returns
    [true]; for [child <> parent], a call that returns has returned [true]
    exactly when [cvIsA(p, parent)] returns [true] for some direct is-a
    parent [p] of [child], which is exactly when [parent] can be reached
    from [child] along direct parents; and when the direct parents descend
    in some rank (the is-a table has no cycle), every call returns, so
    that [cvIsA(A, B)] is [true] for a direct parent [B] of [A] and
    [cvIsA(A, C)] is [true] through a chain of two.  The recursion has no
    cycle guard: a call on a code of a set [lost] does not return, however
    deep the recursion may go, when no code of the set is [parent] and
    every code of the set has among its direct parents a code of the set
    again that stands in front of every direct parent from which [parent]
    can be reached; the search then goes round among these codes before it
    tries a parent that leads to [parent].  The least such set is a code
    that is its own first direct parent. *)
Theorem cvIsA_recursion (T : Tables.t) (ULONG_MAX : Z) (st : State) :
  reachable T ULONG_MAX st ->
  (forall depth x, cvIsA T (S depth) x x st = Some (true, st)) /\
  (forall depth child parent b st',
     child <> parent ->
     cvIsA T depth child parent st = Some (b, st') ->
     (b = true <->
      exists p, In p (direct_parents T child) /\
        exists depth' st'', cvIsA T depth' p parent st = Some (true, st'')) /\
     (b = true <-> IsA (direct_parents T) child parent)) /\
  (forall rank : Z -> nat,
     (forall c p, In p (direct_parents T c) -> (rank p < rank c)%nat) ->
     (forall child parent,
        exists b st', cvIsA T (S (rank child)) child parent st = Some (b, st')) /\
     (forall A B,
        In B (direct_parents T A) ->
        exists st', cvIsA T (S (rank A)) A B st = Some (true, st')) /\
     (forall A B C,
        In B (direct_parents T A) -> In C (direct_parents T B) ->
        exists st', cvIsA T (S (rank A)) A C st = Some (true, st'))) /\
  (forall (lost : Z -> Prop) parent,
     (forall c, lost c ->
        c <> parent /\
        exists before p after,
          direct_parents T c = (before ++ p :: after)%list /\ lost p /\
          forall q, In q before -> ~ IsA (direct_parents T) q parent) ->
     forall c depth, lost c -> cvIsA T depth c parent st = None) /\
  (forall c parent others,
     c <> parent -> direct_parents T c = c :: others ->
     forall depth, cvIsA T depth c parent st = None).
Proof.
  intros Hr.
  assert (Hnone : forall depth c parent,
            cvIsA_result (direct_parents T) depth c parent = None ->
            cvIsA T depth c parent st = None).
  { intros depth c parent E.
    pose proof (cvIsA_result_reachable T ULONG_MAX depth c parent st Hr) as H.
    rewrite E in H. destruct (cvIsA T depth c parent st); [discriminate H | reflexivity]. }
  split; [|split; [|split; [|split]]]; cycle 3.
  - intros lost parent Hlost c depth Hc. apply Hnone.
    exact (cvIsA_result_lost _ lost parent Hlost depth c Hc).
  - intros c parent others Hne Hp depth. apply Hnone.
    apply (cvIsA_result_lost _ (fun x => x = c) parent); [|reflexivity].
    intros x ->. split; [exact Hne|].
    exists [], c, others. split; [exact Hp|]. split; [reflexivity | intros q []].
  - intros depth x. cbn [cvIsA]. now rewrite Z.eqb_refl.
  - intros depth child parent b st' Hne E.
    assert (Eb : cvIsA_result (direct_parents T) depth child parent = Some b).
    { apply (cvIsA_returns_iff T ULONG_MAX _ _ _ st b Hr). eauto. }
    assert (Hpath : b = true <-> IsA (direct_parents T) child parent).
    { split.
      - intros ->. exact (cvIsA_result_true _ _ _ _ Eb).
      - intros HA. destruct b; [reflexivity|].
        now apply cvIsA_result_false in Eb. }
    split; [|exact Hpath]. split.
    + intros ->. destruct depth as [|depth]; [discriminate|].
      cbn [cvIsA_result] in Eb.
      destruct (Z.eqb_spec child parent); [contradiction|].
      apply any_parent_result_true in Eb as (p & Hp & Hc).
      exists p. split; [exact Hp|]. exists depth.
      now apply (cvIsA_returns_iff T ULONG_MAX _ _ _ st true Hr).
    + intros (p & Hp & depth' & st'' & E'). apply Hpath.
      apply (IsA_step _ _ p _ Hp). apply (cvIsA_result_true _ depth').
      apply (cvIsA_returns_iff T ULONG_MAX _ _ _ st true Hr). eauto.
  - intros rank Hrank.
    assert (Hret : forall child parent,
              exists b, cvIsA_result (direct_parents T) (S (rank child)) child parent = Some b).
    { intros child parent. apply (cvIsA_result_returns _ rank); [exact Hrank | lia]. }
    assert (Htrue : forall child parent, IsA (direct_parents T) child parent ->
              exists st', cvIsA T (S (rank child)) child parent st = Some (true, st')).
    { intros child parent HA. destruct (Hret child parent) as [[] Eb].
      - now apply (cvIsA_returns_iff T ULONG_MAX _ _ _ st true Hr).
      - now apply cvIsA_result_false in Eb. }
    split; [|split].
    + intros child parent. destruct (Hret child parent) as [b Eb].
      exists b. now apply (cvIsA_returns_iff T ULONG_MAX _ _ _ st b Hr).
    + intros A B HB. apply Htrue. exact (IsA_step _ _ B _ HB (IsA_refl _ B)).
    + intros A B C HB HC. apply Htrue.
      exact (IsA_step _ _ B _ HB (IsA_step _ _ C _ HC (IsA_refl _ C))).
Qed.

Lemma chain_rank_descends (c p : Z) :
  In p (direct_parents chain_tables c) -> (chain_rank p < chain_rank c)%nat.
Proof.
  unfold direct_parents. cbn [chain_tables Tables.relationsIsA_ List.filter fst].
  destruct (Z.eqb_spec 5 c) as [E5|H5]; destruct (Z.eqb_spec 6 c) as [E6|H6];
    subst; try discriminate; cbn [map snd In]; intros H.
  - destruct H as [<-|[]]. cbn. lia.
  - destruct H as [<-|[]]. cbn. lia.
  - destruct H.
Qed.

Lemma cvIsA_recursion_witness :
  reachable chain_tables ULONG_MAX_64 start /\
  (exists st', cvIsA chain_tables (S (chain_rank 6)) 6 5 start = Some (true, st')) /\
  (exists st', cvIsA chain_tables (S (chain_rank 6)) 6 3 start = Some (true, st')) /\
  reachable sample_tables ULONG_MAX_64 start /\
  (forall depth, cvIsA sample_tables depth 4 3 start = None).
Proof.
  assert (Hr : reachable chain_tables ULONG_MAX_64 start) by constructor.
  assert (Hs : reachable sample_tables ULONG_MAX_64 start) by constructor.
  destruct (cvIsA_recursion chain_tables ULONG_MAX_64 start Hr) as (_ & _ & H & _).
  destruct (H chain_rank chain_rank_descends) as (_ & Hdirect & Hchain).
  destruct (cvIsA_recursion sample_tables ULONG_MAX_64 start Hs) as (_ & _ & _ & Hlost & _).
  split; [exact Hr|]. split; [|split; [|split; [exact Hs|]]].
  - apply Hdirect. now left.
  - apply (Hchain 6 5 3); now left.
  - intros depth. apply (Hlost (fun c => c = 4 \/ c = 2) 3); [|now left].
    intros c [->| ->]; (split; [discriminate|]).
    + exists [], 2, [3]. split; [reflexivity|]. split; [now right | intros q []].
    + exists [], 2, []. split; [reflexivity|]. split; [now right | intros q []].
Defined.

(** * Further properties of the generator and of the accessors *)

(** ** Splitting an accession *)

Lemma split_nonempty (s : string) : split s <> [].
Proof.
  induction s as [|c s IH]; cbn [split]; [discriminate|].
  destruct (Ascii.eqb c ":"); [discriminate|].
  destruct (split s); [contradiction | discriminate].
Qed.

Lemma split_cons (c : ascii) (s : string) :
  split (String c s)
  = if Ascii.eqb c ":" then EmptyString :: split s
    else match split s with
         | token :: tokens => String c token :: tokens
         | [] => [String c EmptyString]
         end.
Proof. reflexivity. Qed.

Lemma split_length (s : string) : length (split s) = S (count_char ":" s).
Proof.
  induction s as [|c s IH]; [reflexivity|].
  rewrite split_cons. cbn [count_char].
  destruct (Ascii.eqb c ":"); cbn [length Nat.add]; [now rewrite IH|].
  destruct (split s) as [|t ts] eqn:E; [now destruct (split_nonempty s)|].
  exact IH.
Qed.

Lemma split_concat (s : string) : String.concat ":" (split s) = s.
Proof.
  induction s as [|c s IH]; [reflexivity|]. rewrite split_cons.
  destruct (Ascii.eqb_spec c ":") as [->|Hc].
  - destruct (split s) as [|t ts] eqn:E; [now destruct (split_nonempty s)|].
    cbn [String.concat String.append] in *. now rewrite IH.
  - destruct (split s) as [|t ts] eqn:E; [now destruct (split_nonempty s)|].
    destruct ts as [|t' ts]; cbn [String.concat String.append] in *; now rewrite IH.
Qed.

Lemma split_no_colon (s : string) :
  Forall (fun token => count_char ":" token = O) (split s).
Proof.
  induction s as [|c s IH]; [repeat constructor|]. rewrite split_cons.
  destruct (Ascii.eqb c ":") eqn:Hc; [constructor; [reflexivity | exact IH]|].
  destruct (split s) as [|t ts]; [repeat constructor; cbn; now rewrite Hc|].
  inversion IH as [|? ? Ht Hts]; subst. constructor; [|exact Hts].
  cbn [count_char]. now rewrite Hc, Ht.
Qed.

(** X1. [split] cuts a string at its colons and nowhere else: joining the
    tokens with colons gives the string back, there is one token more than
    there are colons, and no token holds a colon. *)
Theorem split_tokens (s : string) :
  String.concat ":" (split s) = s /\
  length (split s) = S (count_char ":" s) /\
  Forall (fun token => count_char ":" token = O) (split s).
Proof.
  split; [apply split_concat|]. split; [apply split_length | apply split_no_colon].
Qed.

Lemma stringToCVID_throws (ULONG_MAX : Z) (str : string) (e : exception) :
  stringToCVID ULONG_MAX str = Throw e -> e = bad_lexical_cast.
Proof.
  unfold stringToCVID. destruct (_ || _); [now intros [= <-] | discriminate].
Qed.

(** X2. The string-accession lookup throws its splitting error exactly for
    the strings that do not hold exactly one colon. *)
Theorem splitting_error_iff_colons (T : Tables.t) (ULONG_MAX : Z) (id : string)
  (st : State) :
  fst (cvTermInfo_id T ULONG_MAX id st) = Throw (splitting_error id)
  <-> count_char ":" id <> 1%nat.
Proof.
  pose proof (split_length id) as Hlen. unfold cvTermInfo_id.
  destruct (split id) as [|prefix [|cvidStr [|? ?]]]; cbn [length] in Hlen.
  - discriminate.
  - split; [intros _; lia | reflexivity].
  - split; [|intros H; exfalso; apply H; lia].
    destruct (find_prefix _ _ _).
    + destruct (stringToCVID ULONG_MAX cvidStr) as [v|e] eqn:E.
      * destruct (subscript _ _ _). discriminate.
      * apply stringToCVID_throws in E. subst e. discriminate.
    + destruct (subscript _ _ _). discriminate.
  - split; [intros _; lia | reflexivity].
Qed.

(** ** [CVTermInfo::shortName] and [CVTermInfo::prefix] *)

Lemma shortName_fold (syns : list string) (name : string) :
  let result := fold_left (fun result it =>
                  if (String.length it <? String.length result)%nat then it else result)
                  syns name in
  exists before after,
    name :: syns = (before ++ result :: after)%list /\
    Forall (fun s => (String.length result < String.length s)%nat) before /\
    Forall (fun s => (String.length result <= String.length s)%nat) after.
Proof.
  cbv zeta.
  set (f := fun result it : string =>
              if (String.length it <? String.length result)%nat then it else result).
  revert name. induction syns as [|it syns IH]; intros name; cbn [fold_left].
  - exists [], []. repeat split; constructor.
  - destruct (Nat.ltb_spec (String.length it) (String.length name)) as [Hlt|Hge].
    + replace (f name it) with it
        by (unfold f; now rewrite (proj2 (Nat.ltb_lt _ _) Hlt)).
      destruct (IH it) as (before & after & E & Hb & Ha).
      set (r := fold_left f syns it) in *.
      assert (Hle : (String.length r <= String.length it)%nat).
      { assert (Hin : In it (before ++ r :: after)%list) by (rewrite <- E; now left).
        apply in_app_or in Hin as [Hin|[Hin|Hin]].
        - pose proof (proj1 (List.Forall_forall _ _) Hb it Hin) as H. cbv beta in H. lia.
        - rewrite Hin. lia.
        - pose proof (proj1 (List.Forall_forall _ _) Ha it Hin) as H. cbv beta in H. lia. }
      exists (name :: before), after. rewrite E. split; [reflexivity|]. split; [|exact Ha].
      constructor; [lia | exact Hb].
    + replace (f name it) with name
        by (unfold f; now rewrite (proj2 (Nat.ltb_ge _ _) Hge)).
      destruct (IH name) as (before & after & E & Hb & Ha).
      set (r := fold_left f syns name) in *.
      destruct before as [|b before].
      * cbn [app] in E. injection E as E1 E2. exists [], (it :: after).
        cbn [app]. split; [now rewrite <- E1, <- E2|].
        split; [constructor|]. constructor; [now rewrite <- E1 | exact Ha].
      * cbn [app] in E. injection E as E1 E2. rewrite <- E1 in Hb.
        exists (name :: it :: before), after. cbn [app]. rewrite E2.
        split; [reflexivity|]. split; [|exact Ha].
        apply List.Forall_cons_iff in Hb as [Hn Hb'].
        constructor; [exact Hn|]. constructor; [lia | exact Hb'].
Qed.

(** X3. [shortName] returns the first shortest of the name and the exact
    synonyms: every text before it in that sequence is strictly longer and
    none after it is shorter. *)
Theorem shortName_first_shortest (this : CVTermInfo.t) :
  exists before after,
    CVTermInfo.name this :: CVTermInfo.exactSynonyms this
    = (before ++ shortName this :: after)%list /\
    Forall (fun s => (String.length (shortName this) < String.length s)%nat) before /\
    Forall (fun s => (String.length (shortName this) <= String.length s)%nat) after.
Proof. exact (shortName_fold (CVTermInfo.exactSynonyms this) (CVTermInfo.name this)). Qed.
Lemma split_app_colon (p rest : string) :
  count_char ":" p = O -> split (p +:+ ":" +:+ rest) = p :: split rest.
Proof.
  induction p as [|c p IH]; intros Hp; [reflexivity|].
  cbn [count_char] in Hp.
  change (String c p +:+ ":" +:+ rest) with (String c (p +:+ ":" +:+ rest)).
  rewrite split_cons.
  destruct (Ascii.eqb c ":"); [discriminate|]. now rewrite IH.
Qed.

Lemma prefix_first_token (s : string) :
  substr0 (find_first_of ":" s) s = List.hd EmptyString (split s).
Proof.
  induction s as [|c s IH]; [reflexivity|].
  rewrite split_cons. cbn [find_first_of list_ascii_of_string existsb].
  rewrite orb_false_r. destruct (Ascii.eqb c ":"); [reflexivity|].
  destruct (split s) as [|t ts] eqn:E; [now destruct (split_nonempty s)|].
  cbn [List.hd] in *. rewrite <- IH.
  destruct (find_first_of ":" s); reflexivity.
Qed.

(** X4. [CVTermInfo::prefix] returns the first of the tokens the
    string-accession lookup splits the id into: the text in front of the
    first colon, and the whole id when it has no colon. *)
Theorem prefix_of_id (this : CVTermInfo.t) :
  CVTermInfo_prefix this = List.hd EmptyString (split (CVTermInfo.id this)) /\
  (forall p rest,
     CVTermInfo.id this = p +:+ ":" +:+ rest -> count_char ":" p = O ->
     CVTermInfo_prefix this = p) /\
  (count_char ":" (CVTermInfo.id this) = O ->
   CVTermInfo_prefix this = CVTermInfo.id this).
Proof.
  unfold CVTermInfo_prefix. split; [apply prefix_first_token|]. split.
  - intros p rest E Hp. rewrite prefix_first_token, E, split_app_colon by exact Hp.
    reflexivity.
  - intros H. rewrite prefix_first_token.
    pose proof (split_concat (CVTermInfo.id this)) as Hj.
    pose proof (split_length (CVTermInfo.id this)) as Hl.
    rewrite H in Hl. destruct (split (CVTermInfo.id this)) as [|t [|? ?]]; try discriminate.
    cbn [String.concat] in Hj. exact Hj.
Qed.

Lemma prefix_of_id_witness :
  count_char ":" "MS" = O /\
  CVTermInfo_prefix (info_with_id "MS:0000001") = "MS".
Proof.
  split; [reflexivity|].
  apply (proj1 (proj2 (prefix_of_id (info_with_id "MS:0000001"))) "MS" "0000001");
    reflexivity.
Defined.

(** ** Names the generator makes up *)

Lemma length_append (a b : string) :
  String.length (a +:+ b) = (String.length a + String.length b)%nat.
Proof. induction a as [|c a IH]; cbn [String.append String.length]; [reflexivity | now rewrite IH]. Qed.

Lemma length_transform (f : ascii -> ascii) (s : string) :
  String.length (transform f s) = String.length s.
Proof. induction s as [|c s IH]; cbn [transform String.length]; [reflexivity | now rewrite IH]. Qed.

Lemma all_chars_transform (p : ascii -> bool) (f : ascii -> ascii) (s : string) :
  (forall c, p (f c) = true) -> all_chars p (transform f s) = true.
Proof.
  intros H. induction s as [|c s IH]; cbn [transform all_chars]; [reflexivity|].
  now rewrite H, IH.
Qed.

Lemma transform_idempotent (f : ascii -> ascii) (s : string) :
  (forall c, f (f c) = f c) -> transform f (transform f s) = transform f s.
Proof.
  intros H. induction s as [|c s IH]; cbn [transform]; [reflexivity | now rewrite H, IH].
Qed.

Lemma toAllowableChar_identifier (c : ascii) : identifier_char (toAllowableChar c) = true.
Proof.
  unfold toAllowableChar, identifier_char. destruct (isalnum c) eqn:E; [now rewrite E|].
  reflexivity.
Qed.




Lemma toupper_not_lower (c : ascii) : islower (toupper c) = false.
Proof. destruct c as [[] [] [] [] [] [] [] []]; reflexivity. Qed.

Lemma toupper_idempotent (c : ascii) : toupper (toupper c) = toupper c.
Proof. destruct c as [[] [] [] [] [] [] [] []]; reflexivity. Qed.

(** X6. The include guard has six characters more than the basename,
    holds no lower-case letter, and is the same for basenames that differ
    in case only. *)
Theorem includeGuardString_upper (basename : string) :
  String.length (includeGuardString basename) = (String.length basename + 6)%nat /\
  all_chars (fun c => negb (islower c)) (includeGuardString basename) = true /\
  includeGuardString (transform toupper basename) = includeGuardString basename.
Proof.
  unfold includeGuardString. cbv zeta. split; [|split].
  - rewrite !length_append, length_transform. cbn [String.length]. lia.
  - rewrite !all_chars_append. rewrite all_chars_transform; [reflexivity|].
    intros c. now rewrite toupper_not_lower.
  - now rewrite (transform_idempotent _ _ toupper_idempotent).
Qed.

(** ** The version written is a token *)

Lemma all_chars_take_while (p : ascii -> bool) (s : string) :
  all_chars p (take_while p s) = true.
Proof.
  induction s as [|c s IH]; cbn [take_while]; [reflexivity|].
  destruct (p c) eqn:E; cbn [all_chars]; [now rewrite E, IH | reflexivity].
Qed.

Lemma spans_greedy_all (p : ascii -> bool) (s : string) (ab : string * string) :
  In ab (spans_greedy p s) -> all_chars p (fst ab) = true.
Proof.
  revert ab. induction s as [|c s IH]; intros ab; cbn [spans_greedy].
  - intros [<-|[]]. reflexivity.
  - destruct (p c) eqn:E.
    + intros H. apply in_app_or in H as [H|[<-|[]]]; [|reflexivity].
      apply in_map_iff in H as (ab' & <- & H'). cbn [fst all_chars].
      now rewrite E, (IH _ H').
    + intros [<-|[]]. reflexivity.
Qed.

Lemma version_regex_token (line : string) (w : option string) :
  regex_match line version_regex = Some w -> all_chars non_space (sub_match w) = true.
Proof.
  intros H. apply regex_match_found in H as (m & Hm & <-).
  unfold version_regex in Hm. cbn [run] in Hm.
  apply in_flat_map in Hm as (m1 & _ & Hm).
  apply in_map_iff in Hm as (m2 & <- & Hm). cbn [what1].
  apply in_flat_map in Hm as (m3 & _ & Hm).
  apply in_map_iff in Hm as (m4 & <- & Hm). cbn [what1].
  destruct (starts_with _ _); [|destruct Hm].
  cbn [flat_map] in Hm. rewrite app_nil_r in Hm.
  apply in_map_iff in Hm as (m5 & <- & Hm). cbn [what1].
  apply in_map_iff in Hm as (m6 & <- & Hm). cbn [what1].
  apply in_map_iff in Hm as (ab & <- & Hm). cbn [consumed sub_match].
  cbn [rest] in Hm. destruct (drop_prefix _ _) as [|c s]; [destruct Hm|].
  cbn [spans] in Hm. destruct (non_space c) eqn:Hc; [|destruct Hm].
  apply in_map_iff in Hm as (ab' & <- & Hab). cbn [fst all_chars].
  now rewrite Hc, (spans_greedy_all _ _ _ Hab).
Qed.

Lemma date_regex_is_token (line : string) (w : option string) :
  regex_match line date_regex = Some w -> all_chars non_space (sub_match w) = true.
Proof.
  rewrite date_regex_token. unfold date_token.
  destruct (starts_with _ _); [|discriminate].
  destruct (string_empty _); [discriminate|].
  intros [= <-]. apply all_chars_take_while.
Qed.

Lemma first_match_token (e : regex) (header : list string) (v : string) :
  (forall line w, regex_match line e = Some w -> all_chars non_space (sub_match w) = true) ->
  first_match e header = Some v -> all_chars non_space v = true.
Proof.
  intros He. induction header as [|line header IH]; cbn [first_match]; [discriminate|].
  destruct (regex_match line e) as [w|] eqn:E; [|exact IH].
  intros [= <-]. exact (He _ _ E).
Qed.

(** X7. The version written for a namespace is never empty and holds no
    white space, whatever the header lines are. *)
Theorem extract_version_is_token (header : list string) :
  string_empty (extract_version header) = false /\
  all_chars non_space (extract_version header) = true.
Proof.
  unfold extract_version. rewrite version_loop_spec. cbn [string_empty].
  destruct (first_match version_regex header) as [v|] eqn:Ev.
  - rewrite (first_match_nonempty _ _ _ version_regex_nonempty Ev).
    split; [exact (first_match_nonempty _ _ _ version_regex_nonempty Ev)|].
    exact (first_match_token _ _ _ version_regex_token Ev).
  - destruct (first_match date_regex header) as [d|] eqn:Ed; [|split; reflexivity].
    rewrite (first_match_nonempty _ _ _ date_regex_nonempty Ed).
    split; [exact (first_match_nonempty _ _ _ date_regex_nonempty Ed)|].
    exact (first_match_token _ _ _ date_regex_is_token Ed).
Qed.

(** ** Escaping and the compiler *)

Lemma double_backslash_none (P : ascii -> bool) (s : string) :
  count_char backslash s = O -> double_backslash P s = s.
Proof.
  induction s as [|c s IH]; [reflexivity|]. cbn [count_char].
  destruct (Ascii.eqb_spec c backslash) as [->|Hc]; [discriminate|].
  intros H. rewrite double_backslash_other by exact Hc. now rewrite IH.
Qed.

Lemma literal_other (c : ascii) (s : string) :
  c <> backslash -> literal (String c s) = String c (literal s).
Proof.
  intros Hc. cbn [literal]. destruct (Ascii.eqb_spec c backslash); [contradiction | reflexivity].
Qed.

Lemma obo_escape_escaped (p : ascii) :
  obo_escape p = true -> p <> backslash /\ escaped p = p.
Proof.
  destruct p as [[] [] [] [] [] [] [] []]; cbn; intros H; try discriminate H;
    (split; [discriminate | reflexivity]).
Qed.

Lemma literal_escape_copy (s : string) :
  well_escaped s = true -> literal (escape_copy s) = s.
Proof.
  rewrite escape_copy_double.
  induction s as [| c | c1 c2 s IH1 IH2] using string_ind2.
  - reflexivity.
  - cbn [well_escaped]. destruct (Ascii.eqb_spec c backslash) as [->|Hc]; [discriminate|].
    intros _. rewrite double_backslash_single. now rewrite literal_other.
  - cbn [well_escaped].
    destruct (Ascii.eqb_spec c1 backslash) as [->|Hc].
    + intros H. apply andb_true_iff in H as [Hp Hs].
      rewrite double_backslash_escape by exact Hp.
      destruct (obo_escape_escaped c2 Hp) as [Hne Hesc].
      change (literal (String backslash (String backslash
                (String c2 (double_backslash obo_escape s)))))
        with (String backslash (literal (String c2 (double_backslash obo_escape s)))).
      rewrite literal_other by exact Hne. now rewrite (IH1 Hs).
    + intros H. rewrite double_backslash_other by exact Hc.
      rewrite literal_other by exact Hc. f_equal. apply IH2. exact H.
Qed.

Lemma literal_char_other (c : ascii) : literal_char c = true -> c <> backslash.
Proof.
  intros H ->. unfold literal_char in H. rewrite Ascii.eqb_refl in H.
  cbn [negb] in H. rewrite andb_false_r in H. discriminate H.
Qed.

Lemma obo_char_other (c : ascii) :
  obo_char c = true -> c <> backslash -> literal_char c = true.
Proof.
  unfold obo_char. intros H Hc. apply orb_true_iff in H as [H|H]; [exact H|].
  apply Ascii.eqb_eq in H. contradiction.
Qed.

Lemma literal_body_other (c : ascii) (text : string) :
  c <> backslash -> literal_body (String c text) = literal_char c && literal_body text.
Proof.
  intros Hc. cbn [literal_body].
  destruct (Ascii.eqb_spec c backslash); [contradiction | reflexivity].
Qed.

Lemma literal_body_escape (e : ascii) (text : string) :
  literal_body (String backslash (String e text)) = simple_escape e && literal_body text.
Proof. cbn [literal_body]. now rewrite Ascii.eqb_refl. Qed.

(** What [escape_copy] writes for well-escaped text of such characters is
    the inside of a well-formed literal. *)
Lemma literal_body_escape_copy (s : string) :
  well_escaped s = true -> all_chars obo_char s = true ->
  literal_body (escape_copy s) = true.
Proof.
  rewrite escape_copy_double.
  induction s as [| c | c1 c2 s IH1 IH2] using string_ind2.
  - reflexivity.
  - cbn [well_escaped all_chars].
    destruct (Ascii.eqb_spec c backslash) as [->|Hc]; [discriminate|].
    intros _ H. rewrite andb_true_r in H. rewrite double_backslash_single.
    rewrite literal_body_other by exact Hc. cbn [literal_body].
    now rewrite (obo_char_other c H Hc).
  - cbn [well_escaped]. intros Hw Ha.
    cbn [all_chars] in Ha. apply andb_true_iff in Ha as [Ha1 Ha].
    destruct (Ascii.eqb_spec c1 backslash) as [->|Hc].
    + apply andb_true_iff in Hw as [Hp Hs].
      apply andb_true_iff in Ha as [Ha2 Ha].
      rewrite double_backslash_escape by exact Hp.
      destruct (obo_escape_escaped c2 Hp) as [Hne _].
      rewrite literal_body_escape. change (simple_escape backslash) with true.
      cbn [andb]. rewrite literal_body_other by exact Hne.
      now rewrite (obo_char_other c2 Ha2 Hne), (IH1 Hs Ha).
    + rewrite double_backslash_other by exact Hc.
      rewrite literal_body_other by exact Hc.
      now rewrite (obo_char_other c1 Ha1 Hc), (IH2 Hw Ha).
Qed.

(** X8. [escape_copy] leaves a text without backslash as it is.  For a
    text of printable characters other than the double quote and the
    question mark, in which every backslash stands in front of one of the
    nine characters, what is written between the quotes is the inside of a
    well-formed literal (plain characters and the escape of the backslash
    only), and that literal denotes the text itself. *)
Theorem escape_copy_literal (s : string) :
  (count_char backslash s = O -> escape_copy s = s) /\
  (well_escaped s = true -> all_chars obo_char s = true ->
   literal_body (escape_copy s) = true /\ literal (escape_copy s) = s).
Proof.
  split.
  - rewrite escape_copy_double. apply double_backslash_none.
  - intros Hw Ha. split; [now apply literal_body_escape_copy | now apply literal_escape_copy].
Qed.

Lemma escape_copy_literal_witness :
  well_escaped (Term.def colon_term) = true /\
  all_chars obo_char (Term.def colon_term) = true /\
  literal_body (escape_copy (Term.def colon_term)) = true /\
  literal (escape_copy (Term.def colon_term)) = Term.def colon_term.
Proof.
  split; [reflexivity|]. split; [reflexivity|].
  apply (proj2 (escape_copy_literal (Term.def colon_term))); reflexivity.
Defined.

(** ** When the declarations compile *)

Lemma compile_enum_fresh (entries : list (string * initializer)) (env0 env : gmap string Z) :
  compile_enum entries env0 = Some env ->
  List.NoDup (map fst entries) /\
  (forall n, In n (map fst entries) -> env0 !! n = None).
Proof.
  revert env0. induction entries as [|[n0 init] entries IH]; intros env0;
    cbn [compile_enum map fst].
  - intros _. split; [constructor | intros ? []].
  - destruct (env0 !! n0) eqn:Hn0; [discriminate|].
    assert (Hstep : forall z, compile_enum entries (<[n0 := z]> env0) = Some env ->
              List.NoDup (n0 :: map fst entries) /\
              (forall n, In n (n0 :: map fst entries) -> env0 !! n = None)).
    { intros z Hc. destruct (IH _ Hc) as [Hnd Hfresh].
      assert (Hnot : ~ In n0 (map fst entries)).
      { intros Hin. specialize (Hfresh n0 Hin). now rewrite lookup_insert_eq in Hfresh. }
      split; [now constructor|].
      intros n [<-|Hin]; [exact Hn0|].
      specialize (Hfresh n Hin). rewrite lookup_insert_ne in Hfresh; [exact Hfresh|].
      intros <-. contradiction. }
    destruct init as [z|m]; [apply Hstep|].
    destruct (env0 !! m); [apply Hstep | discriminate].
Qed.

Lemma scoped_mono (seen seen' : list string) (entries : list (string * initializer)) :
  (forall x, In x seen -> In x seen') -> scoped seen entries -> scoped seen' entries.
Proof.
  revert seen seen'. induction entries as [|[n init] entries IH]; intros seen seen' Hsub;
    cbn [scoped]; [trivial|].
  assert (Hsub' : forall x, In x (n :: seen) -> In x (n :: seen')).
  { intros x [<-|Hx]; [now left | right; now apply Hsub]. }
  destruct init as [z|m]; [apply IH; exact Hsub'|].
  intros [Hm Hsc]. split; [now apply Hsub | exact (IH _ _ Hsub' Hsc)].
Qed.

Lemma scoped_app (seen : list string) (e1 e2 : list (string * initializer)) :
  scoped seen e1 -> scoped seen e2 -> scoped seen (e1 ++ e2).
Proof.
  revert seen. induction e1 as [|[n init] e1 IH]; intros seen H1 H2; [exact H2|].
  cbn [app scoped] in *.
  assert (H2' : scoped (n :: seen) e2).
  { apply (scoped_mono seen); [intros x Hx; now right | exact H2]. }
  destruct init as [z|m]; [now apply IH|].
  destruct H1 as [Hm H1]. split; [exact Hm | now apply IH].
Qed.

Lemma scoped_flat_map {A} (f : A -> list (string * initializer)) (l : list A)
  (seen : list string) :
  (forall x, scoped [] (f x)) -> scoped seen (flat_map f l).
Proof.
  intros Hf. induction l as [|x l IH]; cbn [flat_map]; [exact I|].
  apply scoped_app; [|exact IH].
  apply (scoped_mono []); [intros ? [] | apply Hf].
Qed.

Lemma scoped_enum_entries (obos : list OBO.t) : scoped [] (enum_entries obos).
Proof.
  unfold enum_entries. cbn [scoped].
  apply scoped_flat_map. intros io. apply scoped_flat_map. intros term.
  unfold term_entries. cbn [scoped].
  destruct (String.eqb _ _); [|exact I].
  unfold synonym_entries.
  assert (H : forall seen, In (enumName term) seen ->
            scoped seen (map (fun syn => (enumName2 (Term.prefix term) syn,
                                          Ref (enumName term)))
                             (Term.exactSynonyms term))).
  { induction (Term.exactSynonyms term) as [|syn syns IH]; intros seen Hin;
      cbn [map scoped]; [exact I|].
    split; [exact Hin|]. apply IH. now right. }
  apply H. now left.
Qed.

Lemma identifier_enumName2 (prefix name : string) :
  identifier prefix = true -> identifier (enumName2 prefix name) = true.
Proof.
  unfold identifier, enumName2. destruct prefix as [|c prefix]; [discriminate|].
  cbn [String.append]. intros H. apply andb_true_iff in H as [Hc Hp].
  rewrite Hc. cbn [andb all_chars] in *. apply andb_true_iff in Hp as [Hc' Hp].
  rewrite Hc', !all_chars_append, Hp. cbn [andb all_chars].
  now rewrite (all_chars_transform _ _ _ toAllowableChar_identifier).
Qed.

(** X9. In [enum CVID] as it is written, every initializer that names an
    enumerator names one written before it, the enumerator of the alias's
    own term, so no name is used before it is declared; every enumerator
    has the shape of an identifier when the prefixes of the terms have; and
    a run whose artifacts compile has no two enumerators with one name. *)
Theorem enum_entries_scoped (obos : list OBO.t) :
  scoped [] (enum_entries obos) /\
  (forall alias target,
     In (alias, Ref target) (enum_entries obos) ->
     exists z, In (target, Num z) (enum_entries obos)) /\
  ((forall x, In x (all_terms obos) -> identifier (Term.prefix (term_of x)) = true) ->
   forall n, In n (map fst (enum_entries obos)) -> identifier n = true) /\
  (forall T, link obos = Some T -> List.NoDup (map fst (enum_entries obos))).
Proof.
  split; [apply scoped_enum_entries|]. split; [|split].
  - intros alias target H.
    apply enum_entries_aliases in H as (x & syn & Hx & _ & _ & _ & ->).
    exists (global_code x). now apply all_terms_enum_entry.
  - intros Hp n Hn. apply in_map_iff in Hn as ([n' init] & <- & Hin). cbn [fst].
    destruct init as [z|target].
    + unfold enum_entries in Hin. destruct Hin as [[= <- _]|Hin]; [reflexivity|].
      apply in_flat_map in Hin as (io & Hio & Hin).
      apply in_flat_map in Hin as (term & Ht & Hin).
      assert (Hx : In (fst io, snd io, term) (all_terms obos)).
      { unfold all_terms. apply in_flat_map. exists io. split; [exact Hio|].
        apply in_map_iff. now exists term. }
      specialize (Hp _ Hx). cbn [term_of snd] in Hp.
      unfold term_entries in Hin. destruct Hin as [[= <- _]|Hin].
      * now apply identifier_enumName2.
      * destruct (String.eqb _ _); [|destruct Hin].
        apply in_map_iff in Hin as (syn & [=] & _).
    + apply enum_entries_aliases in Hin as (x & syn & Hx & _ & _ & -> & _).
      apply identifier_enumName2. now apply Hp.
  - intros T Hl. unfold link in Hl.
    destruct (compile_enum (enum_entries obos) ∅) as [env|] eqn:Henv; [|discriminate].
    exact (proj1 (compile_enum_fresh _ _ _ Henv)).
Qed.

Lemma enum_entries_scoped_witness :
  In "MS_m_s" (map fst (enum_entries sample_obos)) /\ identifier "MS_m_s" = true.
Proof.
  assert (Hin : In "MS_m_s" (map fst (enum_entries sample_obos))).
  { vm_compute. right. right. left. reflexivity. }
  split; [exact Hin|].
  apply (proj1 (proj2 (proj2 (enum_entries_scoped sample_obos)))); [|exact Hin].
  intros x Hx. cbn in Hx.
  repeat (destruct Hx as [<-|Hx]; [reflexivity|]). destruct Hx.
Defined.

(** ** Parent references *)

Lemma termMap_fold (l : list Term.t) (m : gmap Z Term.t) (k : Z) :
  (is_Some (fold_left (fun m term => <[Term.id term := term]> m) l m !! k)
   <-> In k (map Term.id l) \/ is_Some (m !! k)) /\
  (forall term,
     fold_left (fun m term => <[Term.id term := term]> m) l m !! k = Some term ->
     (In term l /\ Term.id term = k) \/ m !! k = Some term).
Proof.
  revert m. induction l as [|t l IH]; intros m; cbn [fold_left map In].
  - split; [tauto | auto].
  - destruct (IH (<[Term.id t := t]> m)) as [IH1 IH2]. split.
    + rewrite IH1. destruct (decide (Term.id t = k)) as [E|Hne].
      * subst k. rewrite lookup_insert_eq.
        split; [intros _; left; now left | intros _; right; eauto].
      * rewrite lookup_insert_ne by exact Hne. tauto.
    + intros term Hterm. destruct (IH2 term Hterm) as [[Hin Hid]|Hm]; [auto|].
      destruct (decide (Term.id t = k)) as [E|Hne].
      * subst k. rewrite lookup_insert_eq in Hm. injection Hm as <-. auto.
      * rewrite lookup_insert_ne in Hm by exact Hne. auto.
Qed.

Lemma collect_is_Some {A B} (f : A -> option (list B)) (l : list A) :
  is_Some (collect f l) <-> forall x, In x l -> is_Some (f x).
Proof.
  induction l as [|x l IH]; cbn [collect In].
  - split; [intros _ ? [] | eauto].
  - split.
    + intros [ys Hys]. destruct (f x) as [y|] eqn:Hx; [|discriminate].
      destruct (collect f l) as [zs|]; [|discriminate].
      intros x' [<-|Hin]; [rewrite Hx; eauto|]. apply IH; eauto.
    + intros H. destruct (H x (or_introl eq_refl)) as [y ->].
      destruct (proj2 IH (fun x' Hin => H x' (or_intror Hin))) as [zs ->]. eauto.
Qed.

Lemma collect_In {A B} (f : A -> option (list B)) (l : list A) (ys : list B) (y : B) :
  collect f l = Some ys -> In y ys ->
  exists x zs, In x l /\ f x = Some zs /\ In y zs.
Proof.
  revert ys. induction l as [|x l IH]; intros ys; cbn [collect].
  - intros [= <-] [].
  - destruct (f x) as [zs|] eqn:Hx; [|discriminate].
    destruct (collect f l) as [ws|]; [|discriminate].
    intros [= <-] Hin. apply in_app_or in Hin as [Hin|Hin].
    + exists x, zs. repeat split; [now left | exact Hx | exact Hin].
    + destruct (IH ws eq_refl Hin) as (x' & zs' & H1 & H2 & H3).
      exists x', zs'. repeat split; [now right | exact H2 | exact H3].
Qed.

Lemma parent_rows_is_Some (tm : gmap Z Term.t) (child : Term.t) (ps : list Z) :
  is_Some (parent_rows tm child ps) <-> forall jt, In jt ps -> is_Some (tm !! jt).
Proof.
  induction ps as [|jt ps IH]; cbn [parent_rows In].
  - split; [intros _ ? [] | eauto].
  - split.
    + intros [rows Hrows]. destruct (tm !! jt) as [parent|] eqn:Hjt; [|discriminate].
      destruct (parent_rows tm child ps); [|discriminate].
      intros jt' [<-|Hin]; [rewrite Hjt; eauto|]. apply IH; eauto.
    + intros H. destruct (H jt (or_introl eq_refl)) as [parent ->].
      destruct (proj2 IH (fun jt' Hin => H jt' (or_intror Hin))) as [rows ->]. eauto.
Qed.

Lemma parent_rows_In (tm : gmap Z Term.t) (child : Term.t) (ps : list Z)
  (rows : list (string * string)) (r : string * string) :
  parent_rows tm child ps = Some rows -> In r rows ->
  exists jt parent, In jt ps /\ tm !! jt = Some parent /\
                    r = (enumName child, enumName parent).
Proof.
  revert rows. induction ps as [|jt ps IH]; intros rows; cbn [parent_rows].
  - intros [= <-] [].
  - destruct (tm !! jt) as [parent|] eqn:Hjt; [|discriminate].
    destruct (parent_rows tm child ps) as [rows'|]; [|discriminate].
    intros [= <-] [<-|Hin].
    + exists jt, parent. repeat split; [now left | exact Hjt].
    + destruct (IH rows' eq_refl Hin) as (jt' & parent' & H1 & H2 & H3).
      exists jt', parent'. repeat split; [now right | exact H2 | exact H3].
Qed.

(** X10. A relation table is written exactly when no parent reference
    dangles, that is when every parent id of every term is the id of a
    term of the same ontology.  Each row then pairs a term with a term of
    its own ontology: no edge crosses namespaces. *)
Theorem relation_rows_resolve (parents : Term.t -> list Z) (obos : list OBO.t) :
  (is_Some (relation_rows parents obos) <->
   forall obo term jt,
     In obo obos -> In term (OBO.terms obo) -> In jt (parents term) ->
     In jt (map Term.id (OBO.terms obo))) /\
  (forall rows r,
     relation_rows parents obos = Some rows -> In r rows ->
     exists obo child parent,
       In obo obos /\ In child (OBO.terms obo) /\ In parent (OBO.terms obo) /\
       In (Term.id parent) (parents child) /\
       r = (enumName child, enumName parent)).
Proof.
  unfold relation_rows. split.
  - rewrite collect_is_Some. split.
    + intros H obo term jt Hobo Hterm Hjt.
      specialize (H obo Hobo). rewrite collect_is_Some in H.
      specialize (H term Hterm). rewrite parent_rows_is_Some in H.
      specialize (H jt Hjt). unfold termMap in H.
      apply (proj1 (termMap_fold _ _ _)) in H as [H|[? H]]; [exact H|].
      now rewrite lookup_empty in H.
    + intros H obo Hobo. rewrite collect_is_Some. intros term Hterm.
      rewrite parent_rows_is_Some. intros jt Hjt. unfold termMap.
      apply (proj1 (termMap_fold _ _ _)). left. exact (H obo term jt Hobo Hterm Hjt).
  - intros rows r Hrows Hr.
    destruct (collect_In _ _ _ _ Hrows Hr) as (obo & rows1 & Hobo & Hrows1 & Hr1).
    destruct (collect_In _ _ _ _ Hrows1 Hr1) as (child & rows2 & Hchild & Hrows2 & Hr2).
    destruct (parent_rows_In _ _ _ _ _ Hrows2 Hr2) as (jt & parent & Hjt & Hp & ->).
    unfold termMap in Hp.
    apply (proj2 (termMap_fold _ _ _)) in Hp as [[Hin Hid]|Hp];
      [|now rewrite lookup_empty in Hp].
    exists obo, child, parent. rewrite Hid. auto 10.
Qed.

(** ** What the maps hold after initialization *)

Section Initialized.

Variable T : Tables.t.
Variable ULONG_MAX : Z.

Lemma info_at_extends (m m' : gmap Z CVTermInfo.t) (c : Z) :
  extends_with CVTermInfo.default m m' -> info_at m' c = info_at m c.
Proof. intros H. unfold info_at. destruct (H c) as [->|[-> ->]]; reflexivity. Qed.

Lemma cv_at_extends (m m' : gmap string CV.t) (p : string) :
  extends_with CV.default m m' -> cv_at m' p = cv_at m p.
Proof. intros H. unfold cv_at. destruct (H p) as [->|[-> ->]]; reflexivity. Qed.

(** In every state of a process [cvTermInfo] reads the maps as
    [initialize] built them. *)
Lemma cvTermInfo_reachable (c : Z) (st : State) :
  reachable T ULONG_MAX st ->
  fst (cvTermInfo T c st) = info_at (infoMap_ (initialize T start)) c.
Proof.
  intros Hr. rewrite cvTermInfo_result.
  destruct (reachable_ensure T ULONG_MAX st Hr) as (_ & _ & M & _).
  exact (info_at_extends _ _ c M).
Qed.

Lemma cv_result (prefix : string) (st : State) :
  fst (cv T prefix st) = cv_at (cvMap_ (ensure_initialized T st)) prefix.
Proof.
  unfold cv, cv_at, subscript. destruct (cvMap_ _ !! prefix); reflexivity.
Qed.

Lemma cv_reachable (prefix : string) (st : State) :
  reachable T ULONG_MAX st ->
  fst (cv T prefix st) = cv_at (cvMap_ (initialize T start)) prefix.
Proof.
  intros Hr. rewrite cv_result.
  destruct (reachable_ensure T ULONG_MAX st Hr) as (_ & _ & _ & M).
  exact (cv_at_extends _ _ prefix M).
Qed.

Lemma cvTermInfo_id_result (id : string) (st : State) :
  fst (cvTermInfo_id T ULONG_MAX id st)
  = match split id with
    | [prefix; cvidStr] =>
        match find_prefix (c_str prefix) (Tables.oboPrefixes_ T) 0 with
        | Some i =>
            match stringToCVID ULONG_MAX cvidStr with
            | Return v =>
                Return (info_at (infoMap_ (ensure_initialized T st))
                          (to_CVID T (size_wrap (size_wrap (i * Tables.enumBlockSize_ T) + v))))
            | Throw e => Throw e
            end
        | None => Return (info_at (infoMap_ (ensure_initialized T st)) CVID_Unknown)
        end
    | _ => Throw (splitting_error id)
    end.
Proof.
  unfold cvTermInfo_id, info_at, subscript.
  destruct (split id) as [|prefix [|cvidStr [|? ?]]]; try reflexivity.
  destruct (find_prefix _ _ _).
  - destruct (stringToCVID _ _); [|reflexivity].
    destruct (infoMap_ _ !! _); reflexivity.
  - destruct (infoMap_ _ !! _); reflexivity.
Qed.

(** X11. What an accessor returns does not depend on the calls made
    before it: in any two states of a process, [cv], both [cvTermInfo]
    overloads, [cvids] and [cvIsA] give the same results. The elements
    that lookups insert are never seen. *)
Theorem results_do_not_depend_on_history (st st' : State) :
  reachable T ULONG_MAX st -> reachable T ULONG_MAX st' ->
  (forall prefix, fst (cv T prefix st) = fst (cv T prefix st')) /\
  (forall c, fst (cvTermInfo T c st) = fst (cvTermInfo T c st')) /\
  (forall id, fst (cvTermInfo_id T ULONG_MAX id st)
              = fst (cvTermInfo_id T ULONG_MAX id st')) /\
  fst (cvids T st) = fst (cvids T st') /\
  (forall depth child parent,
     fst <$> cvIsA T depth child parent st = fst <$> cvIsA T depth child parent st').
Proof.
  intros Hr Hr'. split; [|split; [|split; [|split]]].
  - intros prefix. now rewrite !cv_reachable.
  - intros c. now rewrite !cvTermInfo_reachable.
  - intros id. rewrite !cvTermInfo_id_result.
    destruct (reachable_ensure T ULONG_MAX st Hr) as (_ & _ & M & _).
    destruct (reachable_ensure T ULONG_MAX st' Hr') as (_ & _ & M' & _).
    destruct (split id) as [|prefix [|cvidStr [|? ?]]]; try reflexivity.
    destruct (find_prefix _ _ _).
    + destruct (stringToCVID _ _); [|reflexivity].
      now rewrite (info_at_extends _ _ _ M), (info_at_extends _ _ _ M').
    + now rewrite (info_at_extends _ _ _ M), (info_at_extends _ _ _ M').
  - cbn [cvids fst].
    destruct (reachable_ensure T ULONG_MAX st Hr) as (_ & -> & _).
    now destruct (reachable_ensure T ULONG_MAX st' Hr') as (_ & -> & _).
  - intros depth child parent. now rewrite !(cvIsA_result_reachable T ULONG_MAX).
Qed.

Lemma fold_update_preserves {A B} (g : CVTermInfo.t -> B)
  (f : A -> CVTermInfo.t -> CVTermInfo.t) (l : list (Z * A))
  (m : gmap Z CVTermInfo.t) (c : Z) :
  (forall a v, g (f a v) = g v) ->
  g (info_at (fold_left (fun m it => update CVTermInfo.default (f (snd it)) m (fst it)) l m) c)
  = g (info_at m c).
Proof.
  intros Hf. revert m. induction l as [|[k a] l IH]; intros m; cbn [fold_left]; [reflexivity|].
  rewrite IH. cbn [fst snd]. unfold info_at.
  destruct (decide (k = c)) as [->|Hne].
  - now rewrite update_lookup_eq, Hf.
  - now rewrite update_lookup_ne by exact Hne.
Qed.

Lemma fold_update_pushes {A} (g : CVTermInfo.t -> list A)
  (f : A -> CVTermInfo.t -> CVTermInfo.t) (l : list (Z * A))
  (m : gmap Z CVTermInfo.t) (c : Z) :
  (forall a v, g (f a v) = (g v ++ [a])%list) ->
  g (info_at (fold_left (fun m it => update CVTermInfo.default (f (snd it)) m (fst it)) l m) c)
  = (g (info_at m c) ++ map snd (List.filter (fun r => (fst r =? c)%Z) l))%list.
Proof.
  intros Hf. revert m. induction l as [|[k a] l IH]; intros m; cbn [fold_left List.filter].
  - cbn [map]. now rewrite app_nil_r.
  - rewrite IH. cbn [fst snd]. unfold info_at.
    destruct (Z.eqb_spec k c) as [->|Hne].
    + rewrite update_lookup_eq, Hf. cbn [map snd]. now rewrite <- app_assoc.
    + now rewrite update_lookup_ne by exact Hne.
Qed.

Lemma load_termInfos_row (rows : list TermInfo.t) (st : State) (r : TermInfo.t) :
  List.NoDup (map TermInfo.cvid rows) -> In r rows ->
  infoMap_ (load_termInfos rows st) !! TermInfo.cvid r
  = Some (CVTermInfo.mk (TermInfo.cvid r) (TermInfo.id r) (TermInfo.name r)
            (TermInfo.def r) [] [] []).
Proof.
  revert st. induction rows as [|it rows IH]; intros st Hnd Hin; [destruct Hin|].
  cbn [map] in Hnd. apply List.NoDup_cons_iff in Hnd as [Hnot Hnd].
  change (load_termInfos (it :: rows) st)
    with (load_termInfos rows
            (mkState (initialized_ st)
               (<[TermInfo.cvid it :=
                    CVTermInfo.mk (TermInfo.cvid it) (TermInfo.id it) (TermInfo.name it)
                                  (TermInfo.def it) [] [] []]> (infoMap_ st))
               (cvMap_ st) (cvids_ st ++ [TermInfo.cvid it]))).
  destruct Hin as [->|Hin]; [|now apply IH].
  rewrite load_termInfos_lookup_other by exact Hnot.
  cbn [infoMap_]. apply lookup_insert_eq.
Qed.

Lemma load_termInfos_cvid (rows : list TermInfo.t) (st : State) (c : Z) :
  In c (map TermInfo.cvid rows) ->
  CVTermInfo.cvid (info_at (infoMap_ (load_termInfos rows st)) c) = c.
Proof.
  revert st. induction rows as [|it rows IH]; intros st Hin; [destruct Hin|].
  change (load_termInfos (it :: rows) st)
    with (load_termInfos rows
            (mkState (initialized_ st)
               (<[TermInfo.cvid it :=
                    CVTermInfo.mk (TermInfo.cvid it) (TermInfo.id it) (TermInfo.name it)
                                  (TermInfo.def it) [] [] []]> (infoMap_ st))
               (cvMap_ st) (cvids_ st ++ [TermInfo.cvid it]))).
  destruct (in_dec Z.eq_dec c (map TermInfo.cvid rows)) as [Hin'|Hnot]; [now apply IH|].
  destruct Hin as [E|Hin]; [|contradiction].
  unfold info_at. rewrite load_termInfos_lookup_other by exact Hnot.
  cbn [infoMap_]. rewrite E, lookup_insert_eq. reflexivity.
Qed.

(** X12. In every state of a process the record [cvTermInfo] returns for
    a code carries that code in its [cvid] when the code is the code of a
    [termInfos_] row, and [CVID_Unknown] otherwise. *)
Theorem cvTermInfo_cvid (c : Z) (st : State) :
  reachable T ULONG_MAX st ->
  (In c (map TermInfo.cvid (Tables.termInfos_ T)) ->
   CVTermInfo.cvid (fst (cvTermInfo T c st)) = c) /\
  (~ In c (map TermInfo.cvid (Tables.termInfos_ T)) ->
   CVTermInfo.cvid (fst (cvTermInfo T c st)) = CVID_Unknown).
Proof.
  intros Hr. rewrite (cvTermInfo_reachable c st Hr).
  unfold initialize. cbn [infoMap_].
  rewrite !(fold_update_preserves CVTermInfo.cvid) by reflexivity.
  split; [apply load_termInfos_cvid|].
  intros Hnot. unfold info_at. now rewrite load_termInfos_lookup_other by exact Hnot.
Qed.

Lemma initialize_row_record (r : TermInfo.t) (st : State) :
  reachable T ULONG_MAX st ->
  List.NoDup (map TermInfo.cvid (Tables.termInfos_ T)) ->
  In r (Tables.termInfos_ T) ->
  fst (cvTermInfo T (TermInfo.cvid r) st) = record_of_row T r.
Proof.
  intros Hr Hnd Hin. rewrite (cvTermInfo_reachable _ st Hr).
  pose proof (load_termInfos_row (Tables.termInfos_ T) start r Hnd Hin) as Hrow.
  set (c := TermInfo.cvid r) in *.
  set (final := info_at (infoMap_ (initialize T start)) c).
  assert (Hload : info_at (infoMap_ (load_termInfos (Tables.termInfos_ T) start)) c
                  = CVTermInfo.mk c (TermInfo.id r) (TermInfo.name r) (TermInfo.def r)
                      [] [] []).
  { unfold info_at. now rewrite Hrow. }
  assert (Hfield : forall B (g : CVTermInfo.t -> B),
            (forall a v, g (push_parentsIsA a v) = g v) ->
            (forall a v, g (push_parentsPartOf a v) = g v) ->
            (forall a v, g (push_exactSynonyms a v) = g v) ->
            g final = g (info_at (infoMap_ (load_termInfos (Tables.termInfos_ T) start)) c)).
  { intros B g H1 H2 H3. unfold final, initialize. cbn [infoMap_].
    now rewrite !(fold_update_preserves g) by assumption. }
  assert (HisA : CVTermInfo.parentsIsA final = direct_parents T c)
    by apply initialize_parents.
  assert (HpartOf : CVTermInfo.parentsPartOf final = partOf_parents T c).
  { unfold final, initialize. cbn [infoMap_].
    rewrite (fold_update_preserves CVTermInfo.parentsPartOf) by reflexivity.
    rewrite (fold_update_pushes CVTermInfo.parentsPartOf) by reflexivity.
    rewrite (fold_update_preserves CVTermInfo.parentsPartOf) by reflexivity.
    now rewrite Hload. }
  assert (Hsyn : CVTermInfo.exactSynonyms final = synonyms_of T c).
  { unfold final, initialize. cbn [infoMap_].
    rewrite (fold_update_pushes CVTermInfo.exactSynonyms) by reflexivity.
    rewrite !(fold_update_preserves CVTermInfo.exactSynonyms) by reflexivity.
    now rewrite Hload. }
  pose proof (Hfield _ CVTermInfo.cvid ltac:(reflexivity) ltac:(reflexivity)
                ltac:(reflexivity)) as Hc.
  pose proof (Hfield _ CVTermInfo.id ltac:(reflexivity) ltac:(reflexivity)
                ltac:(reflexivity)) as Hi.
  pose proof (Hfield _ CVTermInfo.name ltac:(reflexivity) ltac:(reflexivity)
                ltac:(reflexivity)) as Hn.
  pose proof (Hfield _ CVTermInfo.def ltac:(reflexivity) ltac:(reflexivity)
                ltac:(reflexivity)) as Hd.
  rewrite Hload in Hc, Hi, Hn, Hd. cbn in Hc, Hi, Hn, Hd.
  unfold record_of_row. fold c.
  destruct final as [fc fi fn fd fa fp fs]. cbn in *. congruence.
Qed.

(** X13. When no two rows of [termInfos_] have one code, the record
    [cvTermInfo] returns for the code of a row is made of that row's id,
    name and definition, of the second components of the is-a and part-of
    rows that have the code first, and of the synonyms listed under the
    code, each in table order. *)
Theorem cvTermInfo_of_row (r : TermInfo.t) (st : State) :
  reachable T ULONG_MAX st ->
  List.NoDup (map TermInfo.cvid (Tables.termInfos_ T)) ->
  In r (Tables.termInfos_ T) ->
  fst (cvTermInfo T (TermInfo.cvid r) st) = record_of_row T r.
Proof. exact (initialize_row_record r st). Qed.

End Initialized.

Lemma cvTermInfo_cvid_witness :
  reachable sample_tables ULONG_MAX_64 start /\
  CVTermInfo.cvid (fst (cvTermInfo sample_tables 3 start)) = 3 /\
  CVTermInfo.cvid (fst (cvTermInfo sample_tables 7 start)) = CVID_Unknown.
Proof.
  assert (Hr : reachable sample_tables ULONG_MAX_64 start) by constructor.
  split; [exact Hr|].
  destruct (cvTermInfo_cvid sample_tables ULONG_MAX_64 3 start Hr) as [H3 _].
  destruct (cvTermInfo_cvid sample_tables ULONG_MAX_64 7 start Hr) as [_ H7].
  split.
  - apply H3. vm_compute. intuition reflexivity.
  - apply H7. vm_compute. intros H.
    repeat (destruct H as [H|H]; [discriminate H|]). exact H.
Defined.

Lemma cvTermInfo_of_row_witness :
  reachable sample_tables ULONG_MAX_64 start /\
  fst (cvTermInfo sample_tables 4 start)
  = CVTermInfo.mk 4 "MS:0000004" "a" "A" [2; 3] [1] [].
Proof.
  assert (Hr : reachable sample_tables ULONG_MAX_64 start) by constructor.
  split; [exact Hr|].
  apply (cvTermInfo_of_row sample_tables ULONG_MAX_64 (TermInfo.mk 4 "MS:0000004" "a" "A") start Hr).
  - cbn. repeat constructor; cbn; intuition discriminate.
  - cbn. tauto.
Defined.

(** ** More on the is-a test *)

Lemma IsA_trans (parents : Z -> list Z) (a b c : Z) :
  IsA parents a b -> IsA parents b c -> IsA parents a c.
Proof.
  intros Hab Hbc. induction Hab as [x|child p parent Hp _ IH]; [exact Hbc|].
  exact (IsA_step _ _ p _ Hp (IH Hbc)).
Qed.

Lemma IsA_rank (parents : Z -> list Z) (rank : Z -> nat) (a b : Z) :
  (forall c p, In p (parents c) -> (rank p < rank c)%nat) ->
  IsA parents a b -> a = b \/ (rank b < rank a)%nat.
Proof.
  intros Hrank Hab. induction Hab as [x|child p parent Hp _ IH]; [now left|].
  right. specialize (Hrank child p Hp). destruct IH as [->|IH]; lia.
Qed.

(** X14. A code without direct is-a parents, such as a code the tables do
    not know, is-a nothing but itself: the call returns [false] for every
    other code, at any depth. *)
Theorem cvIsA_without_parents (T : Tables.t) (ULONG_MAX : Z) (st : State)
  (depth : nat) (child parent : Z) :
  reachable T ULONG_MAX st ->
  direct_parents T child = [] -> child <> parent ->
  exists st', cvIsA T (S depth) child parent st = Some (false, st').
Proof.
  intros Hr Hp Hne. apply (cvIsA_returns_iff T ULONG_MAX _ _ _ st false Hr).
  cbn [cvIsA_result]. rewrite Hp.
  destruct (Z.eqb_spec child parent); [contradiction | reflexivity].
Qed.

Lemma cvIsA_without_parents_witness :
  exists st', cvIsA sample_tables 1 7 3 start = Some (false, st').
Proof.
  apply (cvIsA_without_parents sample_tables ULONG_MAX_64 start 0 7 3).
  - constructor.
  - reflexivity.
  - discriminate.
Defined.

(** X15. On an is-a table without cycle (the direct parents descend in a
    rank) the test is a partial order on the codes: from [cvIsA(a, b)] and
    [cvIsA(b, c)] follows [cvIsA(a, c)], and [cvIsA(a, b)] together with
    [cvIsA(b, a)] only holds for [a = b]. *)
Theorem cvIsA_partial_order (T : Tables.t) (ULONG_MAX : Z) (st : State)
  (rank : Z -> nat) :
  reachable T ULONG_MAX st ->
  (forall c p, In p (direct_parents T c) -> (rank p < rank c)%nat) ->
  (forall a b c d1 d2 s1 s2,
     cvIsA T d1 a b st = Some (true, s1) ->
     cvIsA T d2 b c st = Some (true, s2) ->
     exists s3, cvIsA T (S (rank a)) a c st = Some (true, s3)) /\
  (forall a b d1 d2 s1 s2,
     cvIsA T d1 a b st = Some (true, s1) ->
     cvIsA T d2 b a st = Some (true, s2) ->
     a = b).
Proof.
  intros Hr Hrank.
  assert (Hpath : forall a b d s, cvIsA T d a b st = Some (true, s) ->
            IsA (direct_parents T) a b).
  { intros a b d s E. apply (cvIsA_result_true _ d).
    apply (cvIsA_returns_iff T ULONG_MAX _ _ _ st true Hr). eauto. }
  split.
  - intros a b c d1 d2 s1 s2 E1 E2.
    pose proof (IsA_trans _ _ _ _ (Hpath _ _ _ _ E1) (Hpath _ _ _ _ E2)) as Hac.
    apply (cvIsA_returns_iff T ULONG_MAX _ _ _ st true Hr).
    destruct (cvIsA_result_returns (direct_parents T) rank (S (rank a)) a c Hrank)
      as [[] Eb]; [lia | exact Eb |].
    now apply cvIsA_result_false in Eb.
  - intros a b d1 d2 s1 s2 E1 E2.
    destruct (IsA_rank _ rank _ _ Hrank (Hpath _ _ _ _ E1)) as [->|H1]; [reflexivity|].
    destruct (IsA_rank _ rank _ _ Hrank (Hpath _ _ _ _ E2)) as [->|H2]; [reflexivity|].
    lia.
Qed.

Lemma cvIsA_partial_order_witness :
  exists s3, cvIsA chain_tables (S (chain_rank 6)) 6 3 start = Some (true, s3).
Proof.
  assert (Hr : reachable chain_tables ULONG_MAX_64 start) by constructor.
  destruct (cvIsA_partial_order chain_tables ULONG_MAX_64 start chain_rank Hr
              chain_rank_descends) as [Htrans _].
  assert (E1 : {s | cvIsA chain_tables 2 6 5 start = Some (true, s)}).
  { vm_compute. eexists. reflexivity. }
  assert (E2 : {s | cvIsA chain_tables 2 5 3 start = Some (true, s)}).
  { vm_compute. eexists. reflexivity. }
  destruct E1 as [s1 E1], E2 as [s2 E2].
  exact (Htrans 6 5 3 2%nat 2%nat s1 s2 E1 E2).
Defined.

(** ** Namespace descriptors *)

Lemma string_empty_iff (s : string) : string_empty s = true <-> s = EmptyString.
Proof. destruct s; cbn; split; congruence. Qed.

Lemma fold_assign_lookup_other (l : list cv_statement) (m : gmap string CV.t) (p : string) :
  ~ In p (map stmt_key l) ->
  fold_left (fun m s => update CV.default (assign (stmt_field s) (stmt_text s)) m (stmt_key s))
    l m !! p = m !! p.
Proof.
  revert m. induction l as [|s l IH]; intros m Hp; cbn [fold_left]; [reflexivity|].
  cbn [map In] in Hp. rewrite IH by tauto. apply update_lookup_ne. tauto.
Qed.

(** X16. [CV::operator==] holds exactly between equal records and
    [CV::empty] exactly of the value-initialized record; in every state of
    a process, [cv] with a prefix that no statement of [initialize] names
    returns that empty record. *)
Theorem cv_unknown_prefix_is_empty (T : Tables.t) (ULONG_MAX : Z) (st : State) :
  reachable T ULONG_MAX st ->
  (forall a b, CV_equal a b = true <-> a = b) /\
  (forall a, CV_empty a = true <-> a = CV.default) /\
  (forall prefix,
     ~ In prefix (map stmt_key (Tables.cvMap_init T)) ->
     fst (cv T prefix st) = CV.default /\ CV_empty (fst (cv T prefix st)) = true).
Proof.
  intros Hr. split; [|split].
  - intros [a1 a2 a3 a4] [b1 b2 b3 b4]. unfold CV_equal. cbn.
    rewrite !andb_true_iff, !String.eqb_eq. split.
    + intros [[[-> ->] ->] ->]. reflexivity.
    + intros [= -> -> -> ->]. auto.
  - intros [a1 a2 a3 a4]. unfold CV_empty, CV.default. cbn.
    rewrite !andb_true_iff, !string_empty_iff. split.
    + intros [[[-> ->] ->] ->]. reflexivity.
    + intros [= -> -> -> ->]. auto.
  - intros prefix Hp.
    assert (E : fst (cv T prefix st) = CV.default).
    { rewrite (cv_reachable T ULONG_MAX prefix st Hr). unfold cv_at, initialize.
      cbn [cvMap_]. rewrite fold_assign_lookup_other by exact Hp.
      assert (G : forall rows st0, cvMap_ (load_termInfos rows st0) = cvMap_ st0).
      { unfold load_termInfos. induction rows as [|it rows IH]; intros st0; [reflexivity|].
        cbn [fold_left]. now rewrite IH. }
      rewrite G. reflexivity. }
    now rewrite E.
Qed.

Lemma cv_unknown_prefix_is_empty_witness :
  reachable sample_tables ULONG_MAX_64 start /\
  CV_empty (fst (cv sample_tables "XX" start)) = true.
Proof.
  assert (Hr : reachable sample_tables ULONG_MAX_64 start) by constructor.
  split; [exact Hr|].
  destruct (cv_unknown_prefix_is_empty sample_tables ULONG_MAX_64 start Hr) as (_ & _ & H).
  apply (H "XX"). cbn. intuition discriminate.
Defined.

(** ** Decimal text and its conversion *)

Lemma digits_value_uint (d : Decimal.uint) (acc : Z) :
  digits_value acc (NilEmpty.string_of_uint d)
  = acc * 10 ^ Z.of_N (DecimalPos.Unsigned.usize d)
    + Z.of_N (DecimalPos.Unsigned.of_lu (Decimal.rev d)).
Proof.
  revert acc.
  induction d as [|d IH|d IH|d IH|d IH|d IH|d IH|d IH|d IH|d IH|d IH]; intros acc;
    [cbn; lia|..];
    cbn [NilEmpty.string_of_uint digits_value DecimalPos.Unsigned.usize];
    rewrite IH; unfold Decimal.rev at 2; cbn [Decimal.revapp];
    rewrite DecimalPos.Unsigned.of_lu_revapp;
    rewrite N2Z.inj_add, N2Z.inj_mul, N2Z.inj_pow, N2Z.inj_succ;
    rewrite Z.pow_succ_r by apply N2Z.is_nonneg;
    match goal with
    | |- context [Z.of_nat (code ?c - 48)] =>
        let v := eval vm_compute in (Z.of_nat (code c - 48)) in
        change (Z.of_nat (code c - 48)) with v
    end;
    match goal with
    | |- context [Z.of_N (DecimalPos.Unsigned.of_lu ?D)] =>
        lazymatch D with
        | Decimal.rev _ => fail
        | _ => let v := eval vm_compute in (Z.of_N (DecimalPos.Unsigned.of_lu D)) in
               change (Z.of_N (DecimalPos.Unsigned.of_lu D)) with v
        end
    end;
    change (Z.of_N 10) with 10; ring.
Qed.

Lemma uint_digits (d : Decimal.uint) :
  all_chars isdigit (NilEmpty.string_of_uint d) = true.
Proof. induction d; cbn [NilEmpty.string_of_uint all_chars]; [reflexivity|..]; exact IHd. Qed.

(** The decimal text of a number is a non-empty run of digits that
    denotes the number. *)
Lemma decimal_digits (z : Z) :
  0 <= z ->
  digits_value 0 (decimal z) = z /\
  all_chars isdigit (decimal z) = true /\
  decimal z <> EmptyString.
Proof.
  intros Hz. unfold decimal.
  pose proof (DecimalN.Unsigned.of_to (Z.to_N z)) as Hof.
  unfold N.of_uint in Hof. rewrite DecimalPos.Unsigned.of_uint_alt in Hof.
  destruct (N.to_uint (Z.to_N z)) eqn:E;
    try (split; [|split; [apply uint_digits | discriminate]];
         unfold NilZero.string_of_uint; rewrite digits_value_uint, Hof, Z.mul_0_l, Z2N.id by lia; reflexivity).
  apply (f_equal Z.of_N) in Hof. rewrite Z2N.id in Hof by lia. cbn in Hof.
  subst z. split; [reflexivity|]. split; [reflexivity | discriminate].
Qed.

Lemma digits_value_fill (n : nat) (s : string) :
  digits_value 0 (fill n "0" +:+ s) = digits_value 0 s.
Proof. induction n as [|n IH]; [reflexivity|]. cbn [fill String.append digits_value]. exact IH. Qed.

Lemma all_chars_fill (n : nat) : all_chars isdigit (fill n "0") = true.
Proof. induction n as [|n IH]; [reflexivity|]. exact IH. Qed.

Lemma isdigit_code (c : ascii) :
  isdigit c = true -> (48 <= code c <= 57)%nat.
Proof. unfold isdigit. rewrite andb_true_iff, !Nat.leb_le. tauto. Qed.

Lemma ascii_of_code (c : ascii) : chr (code c) = c.
Proof. apply ascii_nat_embedding. Qed.

Lemma isdigit_plain (c : ascii) :
  isdigit c = true ->
  isspace c = false /\ Ascii.eqb c "-" = false /\ Ascii.eqb c "+" = false /\
  Ascii.eqb c ":" = false /\ Ascii.eqb c NUL = false.
Proof.
  intros H. apply isdigit_code in H.
  assert (G : forall d, code c <> code d -> Ascii.eqb c d = false).
  { intros d Hd. destruct (Ascii.eqb_spec c d) as [->|]; [contradiction | reflexivity]. }
  repeat split;
    try (apply G;
         match goal with
         | |- _ <> code ?d =>
             let v := eval vm_compute in (code d) in change (code d) with v
         end; lia).
  unfold isspace.
  destruct (Nat.eqb_spec (code c) 32); [lia|].
  destruct (Nat.leb_spec 9 (code c)), (Nat.leb_spec (code c) 13); try reflexivity; lia.
Qed.

Lemma take_while_all_chars (p : ascii -> bool) (s : string) :
  all_chars p s = true -> take_while p s = s.
Proof.
  induction s as [|c s IH]; [reflexivity|]. cbn [all_chars take_while].
  intros H. apply andb_true_iff in H as [-> H]. now rewrite IH.
Qed.

Lemma c_str_digits (s : string) : all_chars isdigit s = true -> c_str s = s.
Proof.
  induction s as [|c s IH]; [reflexivity|]. cbn [all_chars c_str].
  intros H. apply andb_true_iff in H as [Hc H].
  destruct (isdigit_plain c Hc) as (_ & _ & _ & _ & ->). now rewrite IH.
Qed.

Lemma count_char_digits (s : string) : all_chars isdigit s = true -> count_char ":" s = O.
Proof.
  induction s as [|c s IH]; [reflexivity|]. cbn [all_chars count_char].
  intros H. apply andb_true_iff in H as [Hc H].
  destruct (isdigit_plain c Hc) as (_ & _ & _ & -> & _). now rewrite IH.
Qed.

(** [stringToCVID] on a non-empty run of digits: the number, when it fits
    [unsigned long] and [unsigned int]. *)
Lemma stringToCVID_digits (ULONG_MAX : Z) (s : string) :
  all_chars isdigit s = true -> s <> EmptyString ->
  digits_value 0 s <= ULONG_MAX -> 0 <= digits_value 0 s < UINT_MOD ->
  stringToCVID ULONG_MAX s = Return (digits_value 0 s).
Proof.
  intros Hd Hne Hu Hr. unfold stringToCVID, strtoul. rewrite (c_str_digits s Hd).
  assert (Hs : subject s = (false, s)).
  { destruct s as [|c s]; [contradiction|]. unfold subject.
    cbn [all_chars] in Hd. apply andb_true_iff in Hd as [Hc Hd].
    destruct (isdigit_plain c Hc) as (Hsp & Hm & Hp & _).
    cbn [skip_while]. rewrite Hsp, Hm, Hp. cbn [take_while]. rewrite Hc.
    now rewrite (take_while_all_chars _ _ Hd). }
  rewrite Hs. destruct s as [|c s]; [contradiction|]. cbn [string_empty].
  destruct (Z.ltb_spec ULONG_MAX (digits_value 0 (String c s))); [lia|].
  cbn [result converted range_error negb andb orb].
  rewrite andb_false_r. cbn [orb]. rewrite Z.eqb_refl. cbn [negb].
  now rewrite Z.mod_small by exact Hr.
Qed.

(** X17. Writing a number in decimal and reading it back with
    [stringToCVID] gives the number, with or without the zeros [setw(7)]
    puts in front, as long as it fits both [unsigned long] and
    [unsigned int]. *)
Theorem stringToCVID_decimal (ULONG_MAX n : Z) (w : nat) :
  0 <= n < UINT_MOD -> n <= ULONG_MAX ->
  stringToCVID ULONG_MAX (setw_fill w "0" (decimal n)) = Return n.
Proof.
  intros Hn Hu. destruct (decimal_digits n) as (Hv & Hd & Hne); [lia|].
  assert (Hval : digits_value 0 (setw_fill w "0" (decimal n)) = n).
  { unfold setw_fill. now rewrite digits_value_fill. }
  rewrite <- Hval at 2. apply stringToCVID_digits.
  - unfold setw_fill. now rewrite all_chars_append, all_chars_fill, Hd.
  - unfold setw_fill. destruct (fill _ _); [exact Hne | discriminate].
  - now rewrite Hval.
  - now rewrite Hval.
Qed.

Lemma stringToCVID_decimal_witness :
  stringToCVID ULONG_MAX_64 (setw_fill 7 "0" (decimal 1234)) = Return 1234.
Proof.
  apply (stringToCVID_decimal ULONG_MAX_64 1234 7); [unfold UINT_MOD|unfold ULONG_MAX_64]; lia.
Defined.

Lemma results_do_not_depend_on_history_witness :
  reachable sample_tables ULONG_MAX_64 start /\
  reachable sample_tables ULONG_MAX_64 (snd (cvTermInfo sample_tables 7 start)) /\
  fst (cvids sample_tables start)
  = fst (cvids sample_tables (snd (cvTermInfo sample_tables 7 start))).
Proof.
  assert (Hr : reachable sample_tables ULONG_MAX_64 start) by constructor.
  assert (Hr' : reachable sample_tables ULONG_MAX_64 (snd (cvTermInfo sample_tables 7 start)))
    by (constructor; exact Hr).
  split; [exact Hr|]. split; [exact Hr'|].
  exact (proj1 (proj2 (proj2 (proj2
    (results_do_not_depend_on_history sample_tables ULONG_MAX_64 _ _ Hr Hr'))))).
Defined.

(** ** Accessions *)

Lemma setw_decimal_digits (w : nat) (n : Z) :
  0 <= n ->
  digits_value 0 (setw_fill w "0" (decimal n)) = n /\
  all_chars isdigit (setw_fill w "0" (decimal n)) = true /\
  setw_fill w "0" (decimal n) <> EmptyString.
Proof.
  intros Hn. destruct (decimal_digits n Hn) as (Hv & Hd & Hne). unfold setw_fill.
  split; [now rewrite digits_value_fill|]. split.
  - now rewrite all_chars_append, all_chars_fill, Hd.
  - destruct (fill _ _); [exact Hne | discriminate].
Qed.

Lemma split_single (s : string) : count_char ":" s = O -> split s = [s].
Proof.
  induction s as [|c s IH]; [reflexivity|]. cbn [count_char]. rewrite split_cons.
  destruct (Ascii.eqb c ":"); [discriminate|]. intros H. now rewrite IH.
Qed.

Lemma split_two (p d : string) :
  count_char ":" p = O -> count_char ":" d = O -> split (p +:+ String ":" d) = [p; d].
Proof.
  intros Hp Hd. induction p as [|c p IH].
  - cbn [String.append]. rewrite split_cons. cbn. now rewrite split_single.
  - cbn [count_char] in Hp. cbn [String.append]. rewrite split_cons.
    destruct (Ascii.eqb c ":"); [discriminate|]. now rewrite IH.
Qed.

Lemma with_index_ge {A} (l : list A) (k i : Z) (a : A) :
  In (i, a) (with_index k l) -> k <= i.
Proof.
  revert k. induction l as [|b l IH]; intros k; cbn [with_index]; [intros []|].
  intros [[= <- _]|H]; [lia|]. apply IH in H. lia.
Qed.

Lemma all_terms_index_nonneg (obos : list OBO.t) (x : Z * OBO.t * Term.t) :
  In x (all_terms obos) -> 0 <= term_index x.
Proof.
  unfold all_terms. intros H. apply in_flat_map in H as ([i obo] & Hio & H).
  apply in_map_iff in H as (term & <- & _). cbn. exact (with_index_ge _ _ _ _ Hio).
Qed.

Lemma linked_tables (obos : list OBO.t) (T : Tables.t) :
  link obos = Some T ->
  Tables.enumBlockSize_ T = Generator.enumBlockSize_ /\
  Tables.oboPrefixes_ T = map c_literal (map OBO.prefix obos) /\
  Tables.cvMap_init T = map link_statement (cvMap_statements obos).
Proof.
  unfold link. intros linked.
  destruct (compile_enum _ _) as [env|]; [|discriminate].
  destruct (relationsIsA_rows obos); [|discriminate].
  destruct (relationsPartOf_rows obos); [|discriminate].
  destruct (all_some (map (link_termInfo env) _)); [|discriminate].
  destruct (all_some (map (link_pair env) _)); [|discriminate].
  destruct (all_some (map (link_pair env) _)); [|discriminate].
  destruct (all_some (map (link_synonym env) _)); [|discriminate].
  injection linked as <-. auto.
Qed.

Lemma wide_tables_linked : link wide_obos = Some wide_tables.
Proof. vm_compute. reflexivity. Qed.

(** The cast to [CVID] keeps a code of the tables that fits [long]. *)
Lemma to_CVID_code (T : Tables.t) (c : Z) :
  In c (map TermInfo.cvid (Tables.termInfos_ T)) -> 0 <= c < 2 ^ 63 ->
  to_CVID T c = c.
Proof.
  intros Hin Hc. unfold to_CVID, UINT_MOD, SIZE_MOD.
  destruct (CVID_is_int T) eqn:E.
  - unfold CVID_is_int in E. rewrite forallb_forall in E.
    apply in_map_iff in Hin as (r & <- & Hr). specialize (E r Hr).
    apply andb_true_iff in E as [_ E]. apply Z.leb_le in E. unfold INT_MAX in E.
    rewrite Z.mod_small by lia. lia.
  - rewrite Z.mod_small by lia. lia.
Qed.

(** X18. The accession written for a term leads back to the term, for a
    term whose prefix holds no colon and is found in [oboPrefixes_] at the
    index of the term's own ontology, whose id fits [unsigned long] and
    [unsigned int] and whose global code fits [long]: looked up with the
    string overload, the id text of the term's row gives the record that
    the code overload gives for the term's global code, also when the
    code does not fit [int].  (A prefix that names no ontology of the run,
    or an earlier one, leads elsewhere.) *)
Theorem accession_round_trip (obos : list OBO.t) (T : Tables.t) (ULONG_MAX : Z)
  (x : Z * OBO.t * Term.t) (st : State) :
  link obos = Some T -> In x (all_terms obos) ->
  count_char ":" (Term.prefix (term_of x)) = O ->
  find_prefix (c_str (Term.prefix (term_of x))) (Tables.oboPrefixes_ T) 0
  = Some (term_index x) ->
  0 <= Term.id (term_of x) <= ULONG_MAX ->
  Term.id (term_of x) < UINT_MOD ->
  term_index x * Generator.enumBlockSize_ + Term.id (term_of x) < 2 ^ 63 ->
  fst (cvTermInfo_id T ULONG_MAX (row_id (term_row (term_of x))) st)
  = Return (fst (cvTermInfo T (global_code x) st)).
Proof.
  intros Hl Hx Hp Hf Hid Huint Hmax.
  pose proof (all_terms_index_nonneg obos x Hx) as Hi.
  destruct (linked_tables obos T Hl) as (Hbs & _ & _).
  destruct (setw_decimal_digits 7 (Term.id (term_of x))) as (Hv & Hd & Hne); [lia|].
  assert (Hcode : global_code x
                  = term_index x * Generator.enumBlockSize_ + Term.id (term_of x)).
  { unfold global_code, enumValue, size_wrap, SIZE_MOD.
    unfold Generator.enumBlockSize_ in *.
    rewrite (Z.mod_small (100000000 * term_index x)) by nia.
    rewrite Z.mod_small by nia. ring. }
  assert (Hsum : size_wrap (size_wrap (term_index x * Generator.enumBlockSize_)
                            + Term.id (term_of x))
                 = global_code x).
  { rewrite Hcode. unfold size_wrap, SIZE_MOD. unfold Generator.enumBlockSize_ in *.
    rewrite (Z.mod_small (term_index x * 100000000)) by nia.
    apply Z.mod_small. nia. }
  assert (Hin : In (global_code x) (map TermInfo.cvid (Tables.termInfos_ T))).
  { rewrite (linked_termInfos_codes obos T Hl). right. unfold term_codes. now apply in_map. }
  rewrite cvTermInfo_id_result, cvTermInfo_result. cbn [term_row row_id].
  change (Term.prefix (term_of x) +:+ ":" +:+ setw_fill 7 "0" (decimal (Term.id (term_of x))))
    with (Term.prefix (term_of x)
          +:+ String ":" (setw_fill 7 "0" (decimal (Term.id (term_of x))))).
  rewrite split_two; [|exact Hp | now apply count_char_digits].
  rewrite Hf, stringToCVID_digits, Hv, Hbs;
    [|exact Hd | exact Hne | rewrite Hv; lia | rewrite Hv; lia].
  rewrite Hsum, to_CVID_code; [reflexivity | exact Hin |].
  rewrite Hcode. unfold Generator.enumBlockSize_ in *. nia.
Qed.

Lemma accession_round_trip_witness :
  fst (cvTermInfo_id sample_tables ULONG_MAX_64 "UO:0000001" start)
  = Return (fst (cvTermInfo sample_tables 100000001 start)) /\
  fst (cvTermInfo_id wide_tables ULONG_MAX_64 "W:50000000" start)
  = Return (fst (cvTermInfo wide_tables 2150000000 start)).
Proof.
  split.
  - apply (accession_round_trip sample_obos sample_tables ULONG_MAX_64
             (1, OBO.mk "unit.obo" [] "UO"
                   [Term.mk "UO" 1 "second" "A time unit." [] [] ["s"]],
              Term.mk "UO" 1 "second" "A time unit." [] [] ["s"]) start).
    + exact sample_tables_linked.
    + cbn. tauto.
    + reflexivity.
    + reflexivity.
    + cbn. unfold ULONG_MAX_64. lia.
    + vm_compute. reflexivity.
    + vm_compute. reflexivity.
  - apply (accession_round_trip wide_obos wide_tables ULONG_MAX_64
             (21, OBO.mk "w.obo" [] "W" [wide_term], wide_term) start).
    + exact wide_tables_linked.
    + vm_compute. tauto.
    + reflexivity.
    + reflexivity.
    + cbn. unfold ULONG_MAX_64. lia.
    + vm_compute. reflexivity.
    + vm_compute. reflexivity.
Defined.

(** ** The records of the terms of a run *)

Lemma global_code_nonneg (x : Z * OBO.t * Term.t) : 0 <= global_code x.
Proof.
  unfold global_code, enumValue, size_wrap, SIZE_MOD.
  apply Z.mod_pos_bound. lia.
Qed.

Lemma linked_term_row (obos : list OBO.t) (T : Tables.t) (x : Z * OBO.t * Term.t) :
  link obos = Some T -> In x (all_terms obos) ->
  In (TermInfo.mk (global_code x)
        (c_literal (row_id (term_row (term_of x))))
        (c_literal (escape_copy (Term.name (term_of x))))
        (c_literal (escape_copy (Term.def (term_of x)))))
     (Tables.termInfos_ T).
Proof.
  intros Hl Hx. destruct (linked_env obos T Hl) as (env & Henv & Hinfos & _).
  destruct (compile_enum_spec _ _ _ Henv) as (_ & Hnum & _).
  apply (all_some_In _ _ _ Hinfos). apply in_map_iff.
  exists (term_row (term_of x)). split.
  - unfold link_termInfo. cbn [term_row row_cvid row_id row_name row_def].
    now rewrite (Hnum _ _ (all_terms_enum_entry obos x Hx)).
  - rewrite termInfos_rows_all_terms. right. apply in_map_iff. now exists x.
Qed.

Lemma all_chars_impl (p q : ascii -> bool) (s : string) :
  (forall c, p c = true -> q c = true) -> all_chars p s = true -> all_chars q s = true.
Proof.
  intros H. induction s as [|c s IH]; [reflexivity|]. cbn [all_chars].
  intros Hs. apply andb_true_iff in Hs as [Hc Hs]. now rewrite (H c Hc), IH.
Qed.

Lemma literal_char_obo_char (c : ascii) : literal_char c = true -> obo_char c = true.
Proof. unfold obo_char. now intros ->. Qed.

Lemma obo_char_not_NUL (c : ascii) : obo_char c = true -> Ascii.eqb c NUL = false.
Proof. destruct c as [[] [] [] [] [] [] [] []]; cbn; intros H; try discriminate H; reflexivity. Qed.

Lemma isdigit_literal_char (c : ascii) : isdigit c = true -> literal_char c = true.
Proof. destruct c as [[] [] [] [] [] [] [] []]; cbn; intros H; try discriminate H; reflexivity. Qed.

Lemma c_str_obo_chars (s : string) : all_chars obo_char s = true -> c_str s = s.
Proof.
  induction s as [|c s IH]; [reflexivity|]. cbn [all_chars c_str].
  intros H. apply andb_true_iff in H as [Hc H].
  now rewrite (obo_char_not_NUL c Hc), IH.
Qed.

(** Text of plain characters stands in a literal for itself. *)
Lemma c_literal_plain (s : string) : all_chars literal_char s = true -> c_literal s = s.
Proof.
  intros H. unfold c_literal.
  assert (E : literal s = s).
  { induction s as [|c s IH]; [reflexivity|]. cbn [all_chars] in H.
    apply andb_true_iff in H as [Hc H].
    rewrite literal_other by exact (literal_char_other c Hc). now rewrite IH. }
  rewrite E. apply c_str_obo_chars. exact (all_chars_impl _ _ s literal_char_obo_char H).
Qed.

Lemma decimal_all_digits (z : Z) : all_chars isdigit (decimal z) = true.
Proof.
  unfold decimal, NilZero.string_of_uint.
  destruct (N.to_uint (Z.to_N z)) eqn:E; try (rewrite <- E; apply uint_digits).
  reflexivity.
Qed.

Lemma row_id_plain (term : Term.t) :
  all_chars literal_char (Term.prefix term) = true ->
  all_chars literal_char (row_id (term_row term)) = true.
Proof.
  intros H. cbn [term_row row_id]. rewrite all_chars_append, H.
  change (":" +:+ ?t) with (String ":" t). cbn [all_chars andb].
  change (literal_char ":") with true. cbn [andb].
  apply (all_chars_impl isdigit); [exact isdigit_literal_char|].
  unfold setw_fill. now rewrite all_chars_append, all_chars_fill, decimal_all_digits.
Qed.

(** X19. When the terms of a run have pairwise different global codes,
    the record of a term's code carries the code and, as far as they are
    text a string literal can hold, the texts of the term as they stand in
    the ontology: the accession, for a prefix of plain characters; the
    name and the definition, when they consist of printable characters
    other than the double quote and the question mark and every backslash
    in them starts one of the nine escapes; and every exact synonym of
    plain characters. *)
Theorem linked_term_record (obos : list OBO.t) (T : Tables.t) (ULONG_MAX : Z)
  (x : Z * OBO.t * Term.t) (st : State) :
  link obos = Some T -> List.NoDup (term_codes obos) ->
  In x (all_terms obos) -> reachable T ULONG_MAX st ->
  let term := term_of x in
  let info := fst (cvTermInfo T (global_code x) st) in
  CVTermInfo.cvid info = global_code x /\
  (all_chars literal_char (Term.prefix term) = true ->
   CVTermInfo.id info = row_id (term_row term)) /\
  (well_escaped (Term.name term) = true -> all_chars obo_char (Term.name term) = true ->
   CVTermInfo.name info = Term.name term) /\
  (well_escaped (Term.def term) = true -> all_chars obo_char (Term.def term) = true ->
   CVTermInfo.def info = Term.def term) /\
  (forall syn, In syn (Term.exactSynonyms term) -> all_chars literal_char syn = true ->
     In syn (CVTermInfo.exactSynonyms info)).
Proof.
  intros Hl Hnd Hx Hr term info.
  assert (Hcodes : List.NoDup (map TermInfo.cvid (Tables.termInfos_ T))).
  { rewrite (linked_termInfos_codes obos T Hl). constructor; [|exact Hnd].
    unfold term_codes. intros H. apply in_map_iff in H as (y & Hy & _).
    pose proof (global_code_nonneg y). unfold CVID_Unknown in Hy. lia. }
  pose proof (initialize_row_record T ULONG_MAX _ st Hr Hcodes (linked_term_row obos T x Hl Hx))
    as E.
  cbn [TermInfo.cvid] in E. subst info. rewrite E. unfold record_of_row.
  cbn [CVTermInfo.cvid CVTermInfo.id CVTermInfo.name CVTermInfo.def
       CVTermInfo.exactSynonyms TermInfo.cvid TermInfo.id TermInfo.name TermInfo.def].
  fold term. split; [reflexivity|]. split; [|split; [|split]].
  - intros Hp. apply c_literal_plain. now apply row_id_plain.
  - intros Hw Ha. unfold c_literal. rewrite literal_escape_copy by exact Hw.
    now apply c_str_obo_chars.
  - intros Hw Ha. unfold c_literal. rewrite literal_escape_copy by exact Hw.
    now apply c_str_obo_chars.
  - intros syn Hs Ha. unfold synonyms_of.
    apply in_map_iff. exists (global_code x, c_literal syn).
    split; [exact (c_literal_plain syn Ha)|].
    apply filter_In. split; [exact (linked_synonym_rows obos T Hl x syn Hx Hs)|].
    cbn [fst]. apply Z.eqb_refl.
Qed.

Lemma linked_term_record_witness :
  CVTermInfo.id (fst (cvTermInfo sample_tables 1 start)) = "MS:0000001" /\
  CVTermInfo.name (fst (cvTermInfo sample_tables 1 start)) = "mass spectrum" /\
  In "m-s" (CVTermInfo.exactSynonyms (fst (cvTermInfo sample_tables 1 start))).
Proof.
  assert (Hr : reachable sample_tables ULONG_MAX_64 start) by constructor.
  assert (Hnd : List.NoDup (term_codes sample_obos)).
  { vm_compute. repeat constructor; cbn; intuition discriminate. }
  destruct (linked_term_record sample_obos sample_tables ULONG_MAX_64
              (0, OBO.mk "psi-ms.obo" header_scenario "MS"
                    [ Term.mk "MS" 1 "mass spectrum" "A plot." [] [] ["m-s"];
                      Term.mk "MS" 2 "b" "B" [2] [] [];
                      Term.mk "MS" 3 "c" "C" [] [] [];
                      Term.mk "MS" 4 "a" "A" [2; 3] [1] [] ],
               Term.mk "MS" 1 "mass spectrum" "A plot." [] [] ["m-s"]) start
              sample_tables_linked Hnd) as (_ & Hid & Hname & _ & Hsyn).
  - cbn. tauto.
  - exact Hr.
  - split; [apply Hid; reflexivity|].
    split; [apply Hname; reflexivity | apply (Hsyn "m-s"); [cbn; tauto | reflexivity]].
Defined.
(** ** The namespace descriptors of a run *)

Lemma cv_at_update_eq (f : CV.t -> CV.t) (m : gmap string CV.t) (k : string) :
  cv_at (update CV.default f m k) k = f (cv_at m k).
Proof. unfold cv_at. now rewrite update_lookup_eq. Qed.

Lemma cv_at_update_ne (f : CV.t -> CV.t) (m : gmap string CV.t) (k p : string) :
  k <> p -> cv_at (update CV.default f m k) p = cv_at m p.
Proof. intros H. unfold cv_at. now rewrite update_lookup_ne. Qed.

Lemma field_of_assign_same (f : cv_field) (text : string) (c : CV.t) :
  field_of f (assign f text c) = text.
Proof. destruct f; reflexivity. Qed.

Lemma field_of_assign_other (f f' : cv_field) (text : string) (c : CV.t) :
  f' <> f -> field_of f (assign f' text c) = field_of f c.
Proof. destruct f, f'; try reflexivity; contradiction. Qed.

(** Statements for another key or another field leave a field as it is. *)
Lemma fold_assign_field_other (l : list cv_statement) (m : gmap string CV.t)
  (p : string) (f : cv_field) :
  (forall s, In s l -> stmt_key s = p -> stmt_field s <> f) ->
  field_of f (cv_at (fold_left (fun m s =>
      update CV.default (assign (stmt_field s) (stmt_text s)) m (stmt_key s)) l m) p)
  = field_of f (cv_at m p).
Proof.
  revert m. induction l as [|s l IH]; intros m H; cbn [fold_left]; [reflexivity|].
  rewrite IH by (intros s' Hs'; apply H; now right).
  destruct (String.eqb_spec (stmt_key s) p) as [E|E].
  - rewrite <- E, cv_at_update_eq. apply field_of_assign_other. apply H; [now left | exact E].
  - now rewrite cv_at_update_ne.
Qed.

(** The last statement for a key and a field decides the field. *)
Lemma fold_assign_field_last (l1 l2 : list cv_statement) (s : cv_statement)
  (m : gmap string CV.t) :
  (forall s', In s' l2 -> stmt_key s' = stmt_key s -> stmt_field s' <> stmt_field s) ->
  field_of (stmt_field s) (cv_at (fold_left (fun m s =>
      update CV.default (assign (stmt_field s) (stmt_text s)) m (stmt_key s))
      (l1 ++ s :: l2)%list m) (stmt_key s))
  = stmt_text s.
Proof.
  intros H. rewrite fold_left_app. cbn [fold_left].
  rewrite fold_assign_field_other by exact H.
  rewrite cv_at_update_eq. apply field_of_assign_same.
Qed.

Lemma fold_assign_id (l : list cv_statement) (m : gmap string CV.t) (p : string) :
  (forall s, In s l -> stmt_field s = Id -> stmt_text s = stmt_key s) ->
  CV.id (cv_at m p) = p \/ (exists s, In s l /\ stmt_field s = Id /\ stmt_key s = p) ->
  CV.id (cv_at (fold_left (fun m s =>
      update CV.default (assign (stmt_field s) (stmt_text s)) m (stmt_key s)) l m) p) = p.
Proof.
  revert m. induction l as [|s l IH]; intros m Hid H; cbn [fold_left].
  - destruct H as [H|(s & [] & _)]. exact H.
  - apply IH; [intros s' Hs'; apply Hid; now right|].
    assert (Hs : stmt_field s = Id -> stmt_key s = p ->
                 CV.id (cv_at (update CV.default (assign (stmt_field s) (stmt_text s))
                                  m (stmt_key s)) p) = p).
    { intros Hf Hk. rewrite <- Hk at 1. rewrite cv_at_update_eq, Hf. cbn.
      rewrite (Hid s) by (now left || exact Hf). exact Hk. }
    destruct H as [H|(s' & [<-|Hin] & Hf & Hk)].
    + left. destruct (String.eqb_spec (stmt_key s) p) as [E|E].
      * destruct (stmt_field s) eqn:Hf; try (now apply Hs);
          rewrite <- E, cv_at_update_eq, E; cbn; exact H.
      * now rewrite cv_at_update_ne.
    + left. now apply Hs.
    + right. now exists s'.
Qed.

Lemma load_termInfos_cvMap (rows : list TermInfo.t) (st : State) :
  cvMap_ (load_termInfos rows st) = cvMap_ st.
Proof.
  unfold load_termInfos. revert st. induction rows as [|it rows IH]; intros st; [reflexivity|].
  cbn [fold_left]. now rewrite IH.
Qed.

Lemma initialize_cvMap (T : Tables.t) :
  cvMap_ (initialize T start)
  = fold_left (fun m s =>
      update CV.default (assign (stmt_field s) (stmt_text s)) m (stmt_key s))
      (Tables.cvMap_init T) ∅.
Proof. unfold initialize. cbn [cvMap_]. now rewrite load_termInfos_cvMap. Qed.

(** The statements written per ontology set the id and the version. *)
Lemma obo_statements (obos : list OBO.t) (s : cv_statement) :
  In s (flat_map (fun obo =>
          [ mkStmt (OBO.prefix obo) Id (OBO.prefix obo);
            mkStmt (OBO.prefix obo) Version (extract_version (OBO.header obo)) ]) obos) ->
  exists obo, In obo obos /\ stmt_key s = OBO.prefix obo /\
    (stmt_field s = Id /\ stmt_text s = OBO.prefix obo \/
     stmt_field s = Version /\ stmt_text s = extract_version (OBO.header obo)).
Proof.
  intros H. apply in_flat_map in H as (obo & Hobo & [<-|[<-|[]]]);
    exists obo; cbn; auto.
Qed.

(** X20. The id of a namespace descriptor tells whether the namespace was
    loaded: [cv] with one of the prefixes of the run returns a descriptor
    whose id is that prefix, and with any other key one whose id is
    empty. *)
Theorem cv_id_tells_loaded (obos : list OBO.t) (T : Tables.t) (ULONG_MAX : Z)
  (st : State) (prefix : string) :
  link obos = Some T -> reachable T ULONG_MAX st ->
  (In prefix (Tables.oboPrefixes_ T) -> CV.id (fst (cv T prefix st)) = prefix) /\
  (~ In prefix (Tables.oboPrefixes_ T) -> CV.id (fst (cv T prefix st)) = EmptyString).
Proof.
  intros Hl Hr. destruct (linked_tables obos T Hl) as (_ & Hp & Hc).
  rewrite (cv_reachable T ULONG_MAX prefix st Hr), initialize_cvMap, Hc, Hp.
  unfold cvMap_statements. split; intros H.
  - apply fold_assign_id.
    + intros s Hs Hf. apply in_map_iff in Hs as (s0 & <- & Hs0).
      cbn [link_statement stmt_field stmt_key stmt_text] in *.
      apply in_app_or in Hs0 as [Hs0|Hs0].
      * cbn in Hs0. destruct Hs0 as [<-|[<-|[<-|[<-|[]]]]]; discriminate.
      * apply obo_statements in Hs0 as (obo & _ & -> & [[_ ->]|[E _]]); congruence.
    + right. apply in_map_iff in H as (q & <- & Hq).
      apply in_map_iff in Hq as (obo & <- & Hobo).
      exists (link_statement (mkStmt (OBO.prefix obo) Id (OBO.prefix obo))).
      split; [|now cbn]. apply in_map. apply in_or_app. right.
      apply in_flat_map. exists obo. split; [exact Hobo | now left].
  - change (CV.id ?c) with (field_of Id c). rewrite fold_assign_field_other; [reflexivity|].
    intros s Hs Hk Hf. apply H. apply in_map_iff in Hs as (s0 & <- & Hs0).
    cbn [link_statement stmt_field stmt_key stmt_text] in *.
    apply in_app_or in Hs0 as [Hs0|Hs0].
    + cbn in Hs0. destruct Hs0 as [<-|[<-|[<-|[<-|[]]]]]; discriminate.
    + apply obo_statements in Hs0 as (obo & Hobo & E & _).
      rewrite <- Hk, E. apply in_map. now apply in_map.
Qed.

Lemma cv_id_tells_loaded_witness :
  reachable sample_tables ULONG_MAX_64 start /\
  CV.id (fst (cv sample_tables "UO" start)) = "UO" /\
  CV.id (fst (cv sample_tables "GO" start)) = EmptyString.
Proof.
  assert (Hr : reachable sample_tables ULONG_MAX_64 start) by constructor.
  split; [exact Hr|]. split.
  - apply (cv_id_tells_loaded sample_obos sample_tables ULONG_MAX_64 start "UO"
             sample_tables_linked Hr). cbn. tauto.
  - apply (cv_id_tells_loaded sample_obos sample_tables ULONG_MAX_64 start "GO"
             sample_tables_linked Hr). cbn. intuition discriminate.
Defined.



Lemma CV_empty_fullName (c : CV.t) : CV.fullName c <> EmptyString -> CV_empty c = false.
Proof.
  destruct c as [i u f v]. unfold CV_empty. cbn [CV.id CV.fullName CV.URI CV.version].
  intros H. destruct f; [contradiction|]. cbn [string_empty]. now rewrite andb_false_r.
Qed.

(** X22. Whatever ontologies a run is given, the descriptors of "MS" and
    "UO" carry the full names and the URIs that [initialize] assigns
    first, so [cv] never returns an empty descriptor for these two keys,
    also when no such ontology was loaded. *)
Theorem cv_MS_UO_names (obos : list OBO.t) (T : Tables.t) (ULONG_MAX : Z) (st : State) :
  link obos = Some T -> reachable T ULONG_MAX st ->
  CV.fullName (fst (cv T "MS" st))
  = "Proteomics Standards Initiative Mass Spectrometry Ontology" /\
  CV.URI (fst (cv T "MS" st))
  = "http://psidev.cvs.sourceforge.net/*checkout*/psidev/psi/psi-ms/mzML/controlledVocabulary/psi-ms.obo" /\
  CV.fullName (fst (cv T "UO" st)) = "Unit Ontology" /\
  CV.URI (fst (cv T "UO" st))
  = "http://obo.cvs.sourceforge.net/*checkout*/obo/obo/ontology/phenotype/unit.obo" /\
  CV_empty (fst (cv T "MS" st)) = false /\
  CV_empty (fst (cv T "UO" st)) = false.
Proof.
  intros Hl Hr. destruct (linked_tables obos T Hl) as (_ & _ & Hc).
  rewrite !(cv_reachable T ULONG_MAX _ st Hr), initialize_cvMap, Hc.
  unfold cvMap_statements. rewrite map_app.
  set (rest := map link_statement (flat_map _ obos)).
  assert (Hrest : forall s f, In s rest -> f = FullName \/ f = URI -> stmt_field s <> f).
  { intros s f Hs Hf. apply in_map_iff in Hs as (s0 & <- & Hs0).
    apply obo_statements in Hs0 as (o & _ & _ & [[E _]|[E _]]);
      cbn [link_statement stmt_field]; rewrite E; destruct Hf as [-> | ->]; discriminate. }
  set (m := fold_left _ _ _).
  assert (H1 : CV.fullName (cv_at m "MS")
               = "Proteomics Standards Initiative Mass Spectrometry Ontology").
  { subst m. cbn [map app].
    match goal with
    | |- context [fold_left ?F (?s :: ?l2) ?m0] =>
        exact (fold_assign_field_last [] l2 s m0
          ltac:(intros s' [<-|[<-|[<-|Hs']]] Hk; try discriminate;
                apply Hrest; [exact Hs' | now left]))
    end. }
  assert (H2 : CV.URI (cv_at m "MS")
               = "http://psidev.cvs.sourceforge.net/*checkout*/psidev/psi/psi-ms/mzML/controlledVocabulary/psi-ms.obo").
  { subst m. cbn [map app].
    match goal with
    | |- context [fold_left ?F (?s1 :: ?s :: ?l2) ?m0] =>
        exact (fold_assign_field_last [s1] l2 s m0
          ltac:(intros s' [<-|[<-|Hs']] Hk; try discriminate;
                apply Hrest; [exact Hs' | now right]))
    end. }
  assert (H3 : CV.fullName (cv_at m "UO") = "Unit Ontology").
  { subst m. cbn [map app].
    match goal with
    | |- context [fold_left ?F (?s1 :: ?s2 :: ?s :: ?l2) ?m0] =>
        exact (fold_assign_field_last [s1; s2] l2 s m0
          ltac:(intros s' [<-|Hs'] Hk; try discriminate;
                apply Hrest; [exact Hs' | now left]))
    end. }
  assert (H4 : CV.URI (cv_at m "UO")
               = "http://obo.cvs.sourceforge.net/*checkout*/obo/obo/ontology/phenotype/unit.obo").
  { subst m. cbn [map app].
    match goal with
    | |- context [fold_left ?F (?s1 :: ?s2 :: ?s3 :: ?s :: ?l2) ?m0] =>
        exact (fold_assign_field_last [s1; s2; s3] l2 s m0
          ltac:(intros s' Hs' Hk; apply Hrest; [exact Hs' | now right]))
    end. }
  repeat split; try assumption.
  - apply CV_empty_fullName. rewrite H1. discriminate.
  - apply CV_empty_fullName. rewrite H3. discriminate.
Qed.

Lemma cv_MS_UO_names_witness :
  reachable chain_tables ULONG_MAX_64 start /\
  CV.id (fst (cv chain_tables "UO" start)) = EmptyString /\
  CV.fullName (fst (cv chain_tables "UO" start)) = "Unit Ontology".
Proof.
  assert (Hr : reachable chain_tables ULONG_MAX_64 start) by constructor.
  split; [exact Hr|]. split; [reflexivity|].
  exact (proj1 (proj2 (proj2
    (cv_MS_UO_names chain_obos chain_tables ULONG_MAX_64 start chain_tables_linked Hr)))).
Defined.

(** ** The relation tables of a run *)

Lemma collect_In_conv {A B} (f : A -> option (list B)) (l : list A) (ys : list B)
  (x : A) (zs : list B) (y : B) :
  collect f l = Some ys -> In x l -> f x = Some zs -> In y zs -> In y ys.
Proof.
  revert ys. induction l as [|x' l IH]; intros ys; cbn [collect]; [intros _ []|].
  destruct (f x') as [zs'|] eqn:Hx'; [|discriminate].
  destruct (collect f l) as [ws|]; [|discriminate].
  intros [= <-] [->|Hin] Hx Hy; apply in_or_app.
  - left. congruence.
  - right. exact (IH ws eq_refl Hin Hx Hy).
Qed.

Lemma parent_rows_In_conv (tm : gmap Z Term.t) (child : Term.t) (ps : list Z)
  (rows : list (string * string)) (jt : Z) (parent : Term.t) :
  parent_rows tm child ps = Some rows -> In jt ps -> tm !! jt = Some parent ->
  In (enumName child, enumName parent) rows.
Proof.
  revert rows. induction ps as [|jt' ps IH]; intros rows; cbn [parent_rows]; [intros _ []|].
  destruct (tm !! jt') as [parent'|] eqn:Hjt'; [|discriminate].
  destruct (parent_rows tm child ps) as [rows'|]; [|discriminate].
  intros [= <-] [->|Hin] Hjt.
  - left. congruence.
  - right. exact (IH rows' eq_refl Hin Hjt).
Qed.

Lemma all_some_In_inv {A} (l : list (option A)) (l' : list A) (x : A) :
  all_some l = Some l' -> In x l' -> In (Some x) l.
Proof.
  revert l'. induction l as [|[y|] l IH]; intros l'; cbn [all_some];
    [intros [= <-] [] | | discriminate].
  destruct (all_some l) as [ys|]; [|discriminate].
  intros [= <-] [->|Hin]; [now left|]. right. exact (IH ys eq_refl Hin).
Qed.

Lemma with_index_In {A} (l : list A) (k : Z) (x : A) :
  In x l -> exists i, In (i, x) (with_index k l).
Proof.
  revert k. induction l as [|y l IH]; intros k; cbn [with_index]; [intros []|].
  intros [->|Hin]; [exists k; now left|].
  destruct (IH (k + 1) Hin) as [i Hi]. exists i. now right.
Qed.

Lemma with_index_snd {A} (l : list A) (k i : Z) (x : A) :
  In (i, x) (with_index k l) -> In x l.
Proof.
  revert k. induction l as [|y l IH]; intros k; cbn [with_index]; [intros []|].
  intros [[= _ ->]|Hin]; [now left|]. right. exact (IH _ Hin).
Qed.

Lemma all_terms_In (obos : list OBO.t) (i : Z) (obo : OBO.t) (term : Term.t) :
  In (i, obo) (with_index 0 obos) -> In term (OBO.terms obo) ->
  In (i, obo, term) (all_terms obos).
Proof.
  intros Hio Ht. unfold all_terms. apply in_flat_map. exists (i, obo).
  split; [exact Hio|]. apply in_map_iff. now exists term.
Qed.

Lemma termMap_lookup (obo : OBO.t) (jt : Z) (parent : Term.t) :
  termMap obo !! jt = Some parent -> In parent (OBO.terms obo) /\ Term.id parent = jt.
Proof.
  unfold termMap. intros H.
  apply (proj2 (termMap_fold _ _ _)) in H as [H|H]; [exact H|].
  now rewrite lookup_empty in H.
Qed.

(** The pairs of a relation table, as linked: one for each parent id of
    each term, between the codes of the term and of the term that
    [termMaps] holds for the id. *)
Lemma linked_pairs (parents : Term.t -> list Z) (obos : list OBO.t)
  (env : gmap string Z) (rows : list (string * string)) (table : list (Z * Z))
  (a b : Z) :
  compile_enum (enum_entries obos) ∅ = Some env ->
  relation_rows parents obos = Some rows ->
  all_some (map (link_pair env) rows) = Some table ->
  In (a, b) table <->
  exists i obo child parent,
    In (i, obo) (with_index 0 obos) /\ In child (OBO.terms obo) /\
    In (Term.id parent) (parents child) /\
    termMap obo !! Term.id parent = Some parent /\
    a = enumValue child i /\ b = enumValue parent i.
Proof.
  intros Henv Hrows Htable.
  destruct (compile_enum_spec _ _ _ Henv) as (_ & Hnum & _).
  assert (Hcode : forall i obo term,
            In (i, obo) (with_index 0 obos) -> In term (OBO.terms obo) ->
            env !! enumName term = Some (enumValue term i)).
  { intros i obo term Hio Ht.
    exact (Hnum _ _ (all_terms_enum_entry obos _ (all_terms_In obos i obo term Hio Ht))). }
  split.
  - intros Hin. apply (all_some_In_inv _ _ _ Htable) in Hin.
    apply in_map_iff in Hin as (r & Hr & Hin).
    unfold relation_rows in Hrows.
    destruct (collect_In _ _ _ _ Hrows Hin) as (obo & rows1 & Hobo & Hrows1 & Hr1).
    destruct (collect_In _ _ _ _ Hrows1 Hr1) as (child & rows2 & Hchild & Hrows2 & Hr2).
    destruct (parent_rows_In _ _ _ _ _ Hrows2 Hr2) as (jt & parent & Hjt & Hp & ->).
    destruct (termMap_lookup obo jt parent Hp) as [Hparent Hid].
    destruct (with_index_In obos 0 obo Hobo) as [i Hio].
    unfold link_pair in Hr. cbn [fst snd] in Hr.
    rewrite (Hcode i obo child Hio Hchild), (Hcode i obo parent Hio Hparent) in Hr.
    injection Hr as <- <-.
    exists i, obo, child, parent. rewrite Hid. auto 10.
  - intros (i & obo & child & parent & Hio & Hchild & Hjt & Hp & -> & ->).
    destruct (termMap_lookup obo _ parent Hp) as [Hparent _].
    apply (all_some_In _ _ _ Htable). apply in_map_iff.
    exists (enumName child, enumName parent). split.
    + unfold link_pair. cbn [fst snd].
      now rewrite (Hcode i obo child Hio Hchild), (Hcode i obo parent Hio Hparent).
    + unfold relation_rows in Hrows.
      assert (Hobo : In obo obos) by exact (with_index_snd _ _ _ _ Hio).
      assert (H1 : is_Some (collect (fun term => parent_rows (termMap obo) term (parents term))
                              (OBO.terms obo))).
      { refine (proj1 (collect_is_Some
                  (fun obo => collect (fun term => parent_rows (termMap obo) term (parents term))
                                      (OBO.terms obo)) obos) _ obo Hobo).
        rewrite Hrows. eauto. }
      destruct H1 as [rows1 Hrows1].
      assert (H2 : is_Some (parent_rows (termMap obo) child (parents child))).
      { refine (proj1 (collect_is_Some
                  (fun term => parent_rows (termMap obo) term (parents term))
                  (OBO.terms obo)) _ child Hchild).
        rewrite Hrows1. eauto. }
      destruct H2 as [rows2 Hrows2].
      apply (collect_In_conv
               (fun obo => collect (fun term => parent_rows (termMap obo) term (parents term))
                                   (OBO.terms obo)) _ _ obo rows1 _ Hrows Hobo Hrows1).
      apply (collect_In_conv (fun term => parent_rows (termMap obo) term (parents term))
               _ _ child rows2 _ Hrows1 Hchild Hrows2).
      exact (parent_rows_In_conv _ _ _ _ _ _ Hrows2 Hjt Hp).
Qed.

Lemma linked_relations (obos : list OBO.t) (T : Tables.t) :
  link obos = Some T ->
  exists env isA partOf,
    compile_enum (enum_entries obos) ∅ = Some env /\
    relationsIsA_rows obos = Some isA /\
    relationsPartOf_rows obos = Some partOf /\
    all_some (map (link_pair env) isA) = Some (Tables.relationsIsA_ T) /\
    all_some (map (link_pair env) partOf) = Some (Tables.relationsPartOf_ T).
Proof.
  unfold link. intros linked.
  destruct (compile_enum _ _) as [env|] eqn:Henv; [|discriminate].
  destruct (relationsIsA_rows obos) as [isA|] eqn:HA; [|discriminate].
  destruct (relationsPartOf_rows obos) as [partOf|] eqn:HP; [|discriminate].
  destruct (all_some (map (link_termInfo env) _)); [|discriminate].
  destruct (all_some (map (link_pair env) isA)) eqn:TA; [|discriminate].
  destruct (all_some (map (link_pair env) partOf)) eqn:TP; [|discriminate].
  destruct (all_some (map (link_synonym env) _)); [|discriminate].
  injection linked as <-. exists env, isA, partOf. cbn. auto 10.
Qed.

(** X23. The linked relation tables hold exactly the edges the ontologies
    declare: a pair of codes is a row of [relationsIsA_] exactly when it is
    the code of a term and the code of the term of the same ontology that
    one of its is-a parent ids names, and likewise for [relationsPartOf_]
    and the part-of parent ids. *)
Theorem linked_relation_tables (obos : list OBO.t) (T : Tables.t) (a b : Z) :
  link obos = Some T ->
  (In (a, b) (Tables.relationsIsA_ T) <->
   exists i obo child parent,
     In (i, obo) (with_index 0 obos) /\ In child (OBO.terms obo) /\
     In (Term.id parent) (Term.parentsIsA child) /\
     termMap obo !! Term.id parent = Some parent /\
     a = enumValue child i /\ b = enumValue parent i) /\
  (In (a, b) (Tables.relationsPartOf_ T) <->
   exists i obo child parent,
     In (i, obo) (with_index 0 obos) /\ In child (OBO.terms obo) /\
     In (Term.id parent) (Term.parentsPartOf child) /\
     termMap obo !! Term.id parent = Some parent /\
     a = enumValue child i /\ b = enumValue parent i).
Proof.
  intros Hl.
  destruct (linked_relations obos T Hl) as (env & isA & partOf & Henv & HA & HP & TA & TP).
  split.
  - exact (linked_pairs Term.parentsIsA obos env isA _ a b Henv HA TA).
  - exact (linked_pairs Term.parentsPartOf obos env partOf _ a b Henv HP TP).
Qed.

Lemma linked_relation_tables_witness :
  In (6, 5) (Tables.relationsIsA_ chain_tables).
Proof.
  apply (linked_relation_tables chain_obos chain_tables 6 5 chain_tables_linked).
  exists 0, (OBO.mk "psi-ms.obo" header_scenario "MS"
      [ Term.mk "MS" 3 "c" "C" [] [] [];
        Term.mk "MS" 5 "b" "B" [3] [] [];
        Term.mk "MS" 6 "a" "A" [5] [] [] ]),
    (Term.mk "MS" 6 "a" "A" [5] [] []), (Term.mk "MS" 5 "b" "B" [3] [] []).
  split; [now left|]. split; [cbn; tauto|]. split; [now left|].
  split; [vm_compute; reflexivity|]. split; reflexivity.
Defined.

(** X24. On an is-a table without cycle, a term is-a each parent its
    ontology declares for it: for a parent id of the term that names a
    term of the same ontology, [cvIsA] of the two codes returns [true]. *)
Theorem declared_parent_isA (obos : list OBO.t) (T : Tables.t) (ULONG_MAX : Z)
  (st : State) (rank : Z -> nat) (i : Z) (obo : OBO.t) (child parent : Term.t) :
  link obos = Some T -> reachable T ULONG_MAX st ->
  (forall c p, In p (direct_parents T c) -> (rank p < rank c)%nat) ->
  In (i, obo) (with_index 0 obos) -> In child (OBO.terms obo) ->
  In (Term.id parent) (Term.parentsIsA child) ->
  termMap obo !! Term.id parent = Some parent ->
  exists st',
    cvIsA T (S (rank (enumValue child i))) (enumValue child i) (enumValue parent i) st
    = Some (true, st').
Proof.
  intros Hl Hr Hrank Hio Hchild Hjt Hp.
  destruct (linked_relations obos T Hl) as (env & isA & partOf & Henv & HA & _ & TA & _).
  assert (Hrow : In (enumValue child i, enumValue parent i) (Tables.relationsIsA_ T)).
  { apply (linked_pairs Term.parentsIsA obos env isA _ _ _ Henv HA TA).
    exists i, obo, child, parent. auto 10. }
  assert (Hdirect : In (enumValue parent i) (direct_parents T (enumValue child i))).
  { unfold direct_parents. apply in_map_iff.
    exists (enumValue child i, enumValue parent i). split; [reflexivity|].
    apply filter_In. split; [exact Hrow | apply Z.eqb_refl]. }
  apply (cvIsA_returns_iff T ULONG_MAX _ _ _ st true Hr).
  destruct (cvIsA_result_returns (direct_parents T) rank (S (rank (enumValue child i)))
              (enumValue child i) (enumValue parent i) Hrank) as [[] Eb];
    [lia | exact Eb |].
  apply cvIsA_result_false in Eb. destruct Eb.
  exact (IsA_step _ _ _ _ Hdirect (IsA_refl _ _)).
Qed.

Lemma declared_parent_isA_witness :
  exists st', cvIsA chain_tables 3 6 5 start = Some (true, st').
Proof.
  apply (declared_parent_isA chain_obos chain_tables ULONG_MAX_64 start chain_rank 0
           (OBO.mk "psi-ms.obo" header_scenario "MS"
              [ Term.mk "MS" 3 "c" "C" [] [] [];
                Term.mk "MS" 5 "b" "B" [3] [] [];
                Term.mk "MS" 6 "a" "A" [5] [] [] ])
           (Term.mk "MS" 6 "a" "A" [5] [] []) (Term.mk "MS" 5 "b" "B" [3] [] [])
           chain_tables_linked).
  - constructor.
  - exact chain_rank_descends.
  - now left.
  - cbn. tauto.
  - now left.
  - vm_compute. reflexivity.
Defined.
